(** * Nano Banana: request orchestration and resilience layer

    A shallow embedding of [plugins/nanobanana/main.py]: the prompt
    sanitizer, the style-content validator, the error classifier, the
    backoff policy, the retry executor and the batch orchestrator, together
    with the parts of the Python standard library they call ([str] methods,
    [shlex.quote], [pathlib] on POSIX).

    Conventions.
    - A Python [str] is a [string] holding one [ascii] per character; the
      model covers the characters U+0000..U+00FF.
    - A Python [int] is a [Z].  A [float] that the code computes is the
      rational it denotes ([Q]); the one place where the conversion of an
      [int] to a [float] can fail is written out in [calculate_backoff].
    - A dictionary with a fixed set of possible keys is a record whose
      optional keys are [option] fields ([None]: the key is absent).
    - Effects are threaded through a state-and-exception monad [M] whose
      state is the outside world plus a log of the effects performed. *)

From Stdlib Require Import String Ascii List ZArith Bool Lia.
From Stdlib Require Import QArith Qminmax Qround Qabs Qpower.
Import ListNotations.

Open Scope list_scope.
Open Scope string_scope.
Open Scope Z_scope.

(* ====================================================================== *)
(** ** Python strings                                                      *)
(* ====================================================================== *)

Definition ord (c : ascii) : Z := Z.of_N (N_of_ascii c).
Definition chr (n : Z) : ascii := ascii_of_N (Z.to_N n).

Definition dquote : ascii := "034"%char.
Definition newline : ascii := "010"%char.

(** [bool(s)] for a string: the empty string is falsy. *)
Definition truthy (s : string) : bool :=
  match s with EmptyString => false | String _ _ => true end.

(** [len(s)] *)
Definition len (s : string) : Z := Z.of_nat (String.length s).

(** [c.isspace()] on U+0000..U+00FF. *)
Definition isspace (c : ascii) : bool :=
  let n := ord c in
  ((9 <=? n) && (n <=? 13)) || ((28 <=? n) && (n <=? 32))
  || (n =? 133) || (n =? 160).

(** [c.lower()] on U+0000..U+00FF. *)
Definition lower_char (c : ascii) : ascii :=
  let n := ord c in
  if ((65 <=? n) && (n <=? 90))
     || ((192 <=? n) && (n <=? 222) && negb (n =? 215))
  then chr (n + 32) else c.

Fixpoint lower (s : string) : string :=
  match s with
  | EmptyString => EmptyString
  | String c s' => String (lower_char c) (lower s')
  end.

Fixpoint lstrip (s : string) : string :=
  match s with
  | EmptyString => EmptyString
  | String c s' => if isspace c then lstrip s' else s
  end.

Fixpoint rstrip (s : string) : string :=
  match s with
  | EmptyString => EmptyString
  | String c s' =>
      let r := rstrip s' in
      if isspace c && negb (truthy r) then EmptyString else String c r
  end.

(** [s.strip()] *)
Definition strip (s : string) : string := rstrip (lstrip s).

(** [pat in s] *)
Fixpoint contains (pat s : string) : bool :=
  String.prefix pat s
  || match s with
     | EmptyString => false
     | String _ s' => contains pat s'
     end.

(** Some character of [s] satisfies [p]: what [re.search] of a one-character
    class does. *)
Fixpoint any_char (p : ascii -> bool) (s : string) : bool :=
  match s with
  | EmptyString => false
  | String c s' => p c || any_char p s'
  end.

Fixpoint all_chars (p : ascii -> bool) (s : string) : bool :=
  match s with
  | EmptyString => true
  | String c s' => p c && all_chars p s'
  end.

(** [s.replace(old, new)] for a one-character [old]. *)
Fixpoint replace (old : ascii) (new : string) (s : string) : string :=
  match s with
  | EmptyString => EmptyString
  | String c s' =>
      if Ascii.eqb c old then new ++ replace old new s'
      else String c (replace old new s')
  end.

(** [s[:n]] for [n >= 0] *)
Fixpoint take (n : nat) (s : string) : string :=
  match n, s with
  | S n', String c s' => String c (take n' s')
  | _, _ => EmptyString
  end.

(** [s[n:]] for [n >= 0] *)
Fixpoint drop (n : nat) (s : string) : string :=
  match n, s with
  | S n', String _ s' => drop n' s'
  | _, _ => s
  end.

(** [sep.join(parts)] *)
Fixpoint join (sep : string) (parts : list string) : string :=
  match parts with
  | [] => EmptyString
  | [x] => x
  | x :: rest => x ++ sep ++ join sep rest
  end.

(** [s.split(sep)] for a one-character [sep]: the current field is
    accumulated in [cur]. *)
Fixpoint split_from (sep : ascii) (cur : string) (s : string) : list string :=
  match s with
  | EmptyString => [cur]
  | String c s' =>
      if Ascii.eqb c sep then cur :: split_from sep EmptyString s'
      else split_from sep (cur ++ String c EmptyString) s'
  end.

Definition split (sep : ascii) (s : string) : list string :=
  split_from sep EmptyString s.

(** [s.rfind(c)]: the index of the last occurrence of [c], or -1. *)
Fixpoint rfind (c : ascii) (s : string) : Z :=
  match s with
  | EmptyString => -1
  | String d s' =>
      let r := rfind c s' in
      if 0 <=? r then r + 1
      else if Ascii.eqb d c then 0 else -1
  end.

(** Decimal digits of a natural number, most significant first; [fuel]
    bounds the number of digits. *)
Fixpoint digits_fuel (fuel : nat) (n : Z) (acc : string) : string :=
  match fuel with
  | O => acc
  | S fuel' =>
      let acc' := String (chr (48 + n mod 10)) acc in
      if n <? 10 then acc' else digits_fuel fuel' (n / 10) acc'
  end.

Definition digits (n : Z) : string :=
  digits_fuel (S (Z.to_nat (Z.log2 n))) n EmptyString.

(** [str(n)] for an [int]. *)
Definition str_of_int (n : Z) : string :=
  if n <? 0 then "-" ++ digits (- n) else digits n.

Fixpoint zeros (k : nat) : string :=
  match k with O => EmptyString | S k' => String "0" (zeros k') end.

(** [format(n, "03d")]: sign first, then zeros up to a total width of 3. *)
Definition format_03d (n : Z) : string :=
  let sign := if n <? 0 then "-" else EmptyString in
  let d := digits (Z.abs n) in
  sign ++ zeros (3 - String.length sign - String.length d) ++ d.

(** [format(q, ".1f")]: one decimal, ties to even. *)
Definition format_1f (q : Q) : string :=
  let a := Qabs q in
  let scaled := (a * 10)%Q in
  let n := Qfloor scaled in
  let frac := (scaled - inject_Z n)%Q in
  let r :=
    match (frac ?= 1 # 2)%Q with
    | Lt => n
    | Gt => n + 1
    | Eq => if Z.even n then n else n + 1
    end in
  (if Qlt_le_dec q 0 then "-" else EmptyString)
  ++ digits (r / 10) ++ "." ++ digits (r mod 10).


(* ====================================================================== *)
(** ** [pathlib] paths on POSIX                                            *)
(* ====================================================================== *)

(** A parsed path: the root (empty, one slash or two) and the components
    after it.  Empty components and [.] are dropped when a string is
    parsed; [..] is kept. *)
Record Path := mkPath { root : string; tail : list string }.

Fixpoint lstrip_slash (s : string) : string :=
  match s with
  | String "/" s' => lstrip_slash s'
  | _ => s
  end.

(** [Path(s)] *)
Definition Path_of (s : string) : Path :=
  let r :=
    if String.prefix "/" s then
      if String.prefix "//" s && negb (String.prefix "///" s)
      then "//" else "/"
    else EmptyString in
  mkPath r
    (filter (fun x => truthy x && negb (String.eqb x "."))
            (split "/" (lstrip_slash s))).

(** [str(p)] *)
Definition path_str (p : Path) : string :=
  let s := root p ++ join "/" (tail p) in
  if truthy s then s else ".".

(** [p.name] *)
Definition path_name (p : Path) : string := last (tail p) EmptyString.

(** [p.suffix] *)
Definition path_suffix (p : Path) : string :=
  let name := path_name p in
  let i := rfind "." name in
  if (0 <? i) && (i <? len name - 1) then drop (Z.to_nat i) name
  else EmptyString.

(** [p.stem] *)
Definition path_stem (p : Path) : string :=
  let name := path_name p in
  let i := rfind "." name in
  if (0 <? i) && (i <? len name - 1) then take (Z.to_nat i) name else name.

(** [p.parent] *)
Definition path_parent (p : Path) : Path :=
  mkPath (root p) (removelast (tail p)).

(** [p / key] *)
Definition path_div (p : Path) (key : string) : Path :=
  let k := Path_of key in
  if truthy (root k) then k else mkPath (root p) (tail p ++ tail k).

(* ====================================================================== *)
(** ** Error codes and structured responses                                *)
(* ====================================================================== *)

Inductive ErrorCode :=
| SUCCESS
| API_KEY_MISSING
| FILE_NOT_FOUND
| INVALID_INPUT
| RATE_LIMITED
| NETWORK_ERROR
| API_ERROR
| CONTENT_POLICY
| TIMEOUT
| PARTIAL_FAILURE.

(** The string each code stands for. *)
Definition ErrorCode_value (c : ErrorCode) : string :=
  match c with
  | SUCCESS => "SUCCESS"
  | API_KEY_MISSING => "API_KEY_MISSING"
  | FILE_NOT_FOUND => "FILE_NOT_FOUND"
  | INVALID_INPUT => "INVALID_INPUT"
  | RATE_LIMITED => "RATE_LIMITED"
  | NETWORK_ERROR => "NETWORK_ERROR"
  | API_ERROR => "API_ERROR"
  | CONTENT_POLICY => "CONTENT_POLICY"
  | TIMEOUT => "TIMEOUT"
  | PARTIAL_FAILURE => "PARTIAL_FAILURE"
  end.

(** The dictionary of one item: what [generate_single_image], the retry
    wrapper and the invalid-input branch of [generate_image] build.  The
    keys [success] and [error_code] are always set; the others may be
    absent. *)
Record ItemDict := mkItem {
  prompt : option string;
  output : option string;
  error : option string;
  success : bool;
  error_code : ErrorCode;
  retries_used : option Z
}.

(** [ResultDict] as [generate_image] returns it. *)
Record ResultDict := mkResult {
  r_success : bool;
  r_error_code : ErrorCode;
  r_error : option string;
  r_results : list ItemDict;
  r_total : Z;
  r_succeeded : Z;
  r_failed : Z;
  r_retries_used : option Z
}.

(** Exceptions derived from [Exception]; [str(e)] is the message. *)
Inductive exc_class :=
| ValueError | OverflowError | AttributeError | OtherException.

Record exception := Exc { exc_kind : exc_class; exc_msg : string }.

Definition str_exc (e : exception) : string := exc_msg e.

(* ====================================================================== *)
(** ** Input validation                                                    *)
(* ====================================================================== *)

(** The character class [[;&|`$(){}[\]<>\\!]]. *)
Definition SHELL_DANGEROUS_CHARS (c : ascii) : bool :=
  any_char (Ascii.eqb c) ";&|`$(){}[]<>\!".

(** [shlex.quote]: the class of characters that need no quoting is
    [[\w@%+=:,./-]] with ASCII [\w]. *)
Definition shlex_safe (c : ascii) : bool :=
  let n := ord c in
  ((48 <=? n) && (n <=? 57)) || ((65 <=? n) && (n <=? 90))
  || ((97 <=? n) && (n <=? 122))
  || any_char (Ascii.eqb c) "_@%+=:,./-".

Definition shlex_quote (s : string) : string :=
  if negb (truthy s) then "''"
  else if negb (any_char (fun c => negb (shlex_safe c)) s) then s
  else "'" ++ replace "'" (String "'" (String dquote (String "'"
                           (String dquote (String "'" EmptyString))))) s
       ++ "'".

Definition sanitize_prompt (prompt : string) : exception + string :=
  if negb (truthy prompt) || negb (truthy (strip prompt)) then
    inl (Exc ValueError "Prompt cannot be empty")
  else if any_char SHELL_DANGEROUS_CHARS prompt then
    inr (shlex_quote prompt)
  else inr prompt.

(** *** Style-content validation

    [pattern.findall(content)] is used for its first element only, that
    is for the leftmost match.  Each pattern is given by the function that
    tells what it matches at the start of a string. *)

Fixpoint first_match (m : string -> option string) (s : string)
  : option string :=
  match m s with
  | Some x => Some x
  | None =>
      match s with
      | EmptyString => None
      | String _ s' => first_match m s'
      end
  end.

(** A literal, ignoring case. *)
Fixpoint match_icase (pat s : string) : option string :=
  match pat, s with
  | EmptyString, _ => Some EmptyString
  | String p pat', String c s' =>
      if Ascii.eqb (lower_char c) (lower_char p)
      then option_map (String c) (match_icase pat' s')
      else None
  | String _ _, EmptyString => None
  end.

(** Three backquotes, [\s*], then [word], ignoring case. *)
Definition match_fence (word : string) (s : string) : option string :=
  if String.prefix "```" s then
    let rest := drop 3 s in
    let body := lstrip rest in
    let ws := take (String.length rest - String.length body) rest in
    option_map (fun w => "```" ++ ws ++ w) (match_icase word body)
  else None.

(** The part of [s] before its first newline. *)
Fixpoint line_of (s : string) : string :=
  match s with
  | EmptyString => EmptyString
  | String c s' =>
      if Ascii.eqb c newline then EmptyString else String c (line_of s')
  end.

(** [$], [opening], [.*], [closing]: the greedy [.*] stays on the line and
    stops at the last [closing] on it. *)
Definition match_subst (opening closing : ascii) (s : string)
  : option string :=
  match s with
  | String "$" (String o rest) =>
      if Ascii.eqb o opening then
        let line := line_of rest in
        let i := rfind closing line in
        if 0 <=? i
        then Some (String "$" (String o (take (Z.to_nat (i + 1)) line)))
        else None
      else None
  | _ => None
  end.

(** One character of a class. *)
Definition match_class (cls : string) (s : string) : option string :=
  match s with
  | String c _ =>
      if any_char (Ascii.eqb c) cls then Some (String c EmptyString)
      else None
  | EmptyString => None
  end.

Definition INJECTION_PATTERNS : list (string -> option string) :=
  [ match_fence "bash";
    match_fence "shell";
    match_subst "{" "}";
    match_subst "(" ")";
    match_class ";&|`";
    match_icase "<script";
    match_icase "javascript:" ].

Definition validate_style_content (content : string)
  : bool * list string :=
  let warnings :=
    flat_map
      (fun pattern =>
         match first_match pattern content with
         | Some m => ["Suspicious pattern: " ++ take 50 m ++ "..."]
         | None => []
         end)
      INJECTION_PATTERNS in
  (Nat.eqb (List.length warnings) 0, warnings).

(* ====================================================================== *)
(** ** Retry logic with exponential backoff                                *)
(* ====================================================================== *)

Definition ASPECT_RATIOS : list string :=
  ["1:1"; "3:4"; "4:3"; "4:5"; "5:4"; "9:16"; "16:9"; "21:9"].
Definition DEFAULT_MODEL : string := "gemini-3-pro-image-preview".
Definition DEFAULT_MAX_RETRIES : Z := 3.
Definition DEFAULT_TIMEOUT : Z := 60.

Definition RETRYABLE_ERRORS : list string :=
  [ "rate limit"; "429"; "503"; "502"; "connection"; "timeout";
    "temporarily unavailable" ].

Definition is_retryable_error (error_str : string) : bool :=
  let error_lower := lower error_str in
  existsb (fun pattern => contains pattern error_lower) RETRYABLE_ERRORS.

(** [base_delay * (2 ** attempt)], then [min].

    For [attempt >= 0] the power is an [int]; multiplying it by the float
    [base_delay] first converts it to a float, and that conversion raises
    [OverflowError] when the integer is [2 ** 1024] or more, the largest
    float being below [2 ** 1024].  Below that the power is a float
    exactly, and so is its product with a float unless that leaves the
    range of floats; the model takes the product and the minimum on the
    rationals, which is what the code computes for finite parameters with
    [base_delay >= 0].  [min(delay, max_delay)] is [delay] unless
    [max_delay < delay]. *)
Definition calculate_backoff (attempt : Z) (base_delay max_delay : Q)
  : exception + Q :=
  if 1024 <=? attempt then
    inl (Exc OverflowError "int too large to convert to float")
  else
    let delay := (base_delay * 2 ^ attempt)%Q in
    inr (Qmin delay max_delay).


(* ====================================================================== *)
(** ** The outside world                                                   *)
(* ====================================================================== *)

(** [types.Part.from_bytes(data=..., mime_type=...)] *)
Record Part := mkPart { part_data : string; part_mime_type : string }.

(** One element of the [contents] of a request. *)
Inductive Content :=
| Text (s : string)
| Image (p : Part).

(** [genai.Client(api_key=...)] *)
Record Client := mkClient { client_api_key : string }.

(** The arguments of [client.models.generate_content]; the response
    modalities are always [['IMAGE']]. *)
Record Request := mkRequest {
  req_model : string;
  req_contents : list Content;
  req_aspect_ratio : string
}.

(** One part of [response.candidates[0].content.parts]: its [inline_data]
    is absent or falsy ([None]), or carries [data]. *)
Record ResponsePart := mkResponsePart { inline_data : option string }.

(** The external collaborators: the process environment, the file system,
    the remote service and the base64 decoder.  Reading does not change
    the world; creating directories, writing and calling the service may.
    An operation that can raise returns the exception on the left.  A
    response of the service is given by the parts of its first candidate;
    a response from which [response.candidates[0].content.parts] cannot be
    taken raises where the call is made, so it counts as a call that
    raises. *)
Class Collaborators (W : Type) := {
  environ_get : W -> string -> option string;
  path_exists : W -> Path -> bool;
  read_text : W -> Path -> exception + string;
  read_bytes : W -> Path -> exception + string;
  mkdir_parents : W -> Path -> option exception * W;
  write_bytes : W -> Path -> string -> option exception * W;
  generate_content :
    W -> Client -> Request -> (exception + list ResponsePart) * W;
  b64decode : string -> exception + string
}.

(** What the program does to the world, in order.  [EvCall] marks an
    invocation of the function wrapped by the retry executor; it is not an
    effect by itself and is there so that invocations can be counted. *)
Inductive event :=
| EvCall
| EvPrint (line : string)
| EvSleep (seconds : Q)
| EvExists (p : Path)
| EvReadText (p : Path)
| EvReadBytes (p : Path)
| EvMkdir (p : Path)
| EvWrite (p : Path) (data : string)
| EvRemote (req : Request).

Record State (W : Type) := mkState { world : W; log : list event }.
Arguments mkState {W} _ _.
Arguments world {W} _.
Arguments log {W} _.

(** How a computation ends: with a value, with an exception derived from
    [Exception], or with [SystemExit] ([sys.exit(code)]), which
    [except Exception] does not catch. *)
Inductive Res (A : Type) :=
| Ret (a : A)
| Raise (e : exception)
| Exit (code : Z).
Arguments Ret {A} _.
Arguments Raise {A} _.
Arguments Exit {A} _.

Definition M (W A : Type) : Type := State W -> Res A * State W.

Definition ret {W A} (a : A) : M W A := fun st => (Ret a, st).

Definition bind {W A B} (c : M W A) (k : A -> M W B) : M W B :=
  fun st =>
    match c st with
    | (Ret a, st') => k a st'
    | (Raise e, st') => (Raise e, st')
    | (Exit code, st') => (Exit code, st')
    end.

Definition raise {W A} (e : exception) : M W A := fun st => (Raise e, st).

(** [sys.exit(code)] *)
Definition sys_exit {W A} (code : Z) : M W A := fun st => (Exit code, st).

(** [try: c / except Exception as e: ...]: the exception is handed over as
    a value. *)
Definition try_except {W A} (c : M W A) : M W (exception + A) :=
  fun st =>
    match c st with
    | (Ret a, st') => (Ret (inr a), st')
    | (Raise e, st') => (Ret (inl e), st')
    | (Exit code, st') => (Exit code, st')
    end.

Definition emit {W} (ev : event) : M W unit :=
  fun st => (Ret tt, mkState (world st) (log st ++ [ev])).

(** A pure computation that may raise. *)
Definition lift {W A} (r : exception + A) : M W A :=
  match r with
  | inl e => raise e
  | inr a => ret a
  end.

Declare Scope monad_scope.
Delimit Scope monad_scope with monad.
Notation "x <- c ;; k" := (bind c (fun x => k))
  (at level 61, c at next level, right associativity) : monad_scope.
Notation "c ;; k" := (bind c (fun _ => k))
  (at level 61, right associativity) : monad_scope.
Notation "' pat <- c ;; k" :=
  (bind c (fun x => match x with pat => k end))
  (at level 61, pat pattern, c at next level, right associativity)
  : monad_scope.
Open Scope monad_scope.

Section Effects.
Context {W : Type} `{Collaborators W}.

Definition print (line : string) : M W unit := emit (EvPrint line).

(** [time.sleep(seconds)] *)
Definition sleep (seconds : Q) : M W unit := emit (EvSleep seconds).

(** [os.environ.get(name)] *)
Definition os_environ_get (name : string) : M W (option string) :=
  fun st => (Ret (environ_get (world st) name), st).

(** [p.exists()] *)
Definition Path_exists (p : Path) : M W bool :=
  emit (EvExists p) ;;
  fun st => (Ret (path_exists (world st) p), st).

(** [p.read_text()] *)
Definition Path_read_text (p : Path) : M W string :=
  emit (EvReadText p) ;;
  fun st => lift (read_text (world st) p) st.

(** [p.read_bytes()] *)
Definition Path_read_bytes (p : Path) : M W string :=
  emit (EvReadBytes p) ;;
  fun st => lift (read_bytes (world st) p) st.

Definition run_io (r : option exception * W) : M W unit :=
  fun st =>
    match r with
    | (Some e, w) => (Raise e, mkState w (log st))
    | (None, w) => (Ret tt, mkState w (log st))
    end.

(** [p.mkdir(parents=True, exist_ok=True)] *)
Definition Path_mkdir (p : Path) : M W unit :=
  emit (EvMkdir p) ;;
  fun st => run_io (mkdir_parents (world st) p) st.

(** [p.write_bytes(data)] *)
Definition Path_write_bytes (p : Path) (data : string) : M W unit :=
  emit (EvWrite p data) ;;
  fun st => run_io (write_bytes (world st) p data) st.

(** [client.models.generate_content(...)], down to the parts of the first
    candidate. *)
Definition models_generate_content (client : Client) (req : Request)
  : M W (list ResponsePart) :=
  emit (EvRemote req) ;;
  fun st =>
    match generate_content (world st) client req with
    | (inl e, w) => (Raise e, mkState w (log st))
    | (inr parts, w) => (Ret parts, mkState w (log st))
    end.

(* ---------------------------------------------------------------------- *)
(** *** The retry executor                                                 *)
(* ---------------------------------------------------------------------- *)

Definition set_retries_used (result : ItemDict) (n : Z) : ItemDict :=
  mkItem (prompt result) (output result) (error result) (success result)
         (error_code result) (Some n).

Section Retry.
Variable func : M W ItemDict.
Variable max_retries : Z.

(** The body of [wrapper]: [fuel] is what is left of
    [range(max_retries + 1)], [attempt] the loop variable. *)
Fixpoint retry_loop (fuel : nat) (attempt retries_used : Z)
         (last_error : option string) : M W ItemDict :=
  match fuel with
  | S fuel' =>
      emit EvCall ;;
      r <- try_except func ;;
      match r with
      | inr result => ret (set_retries_used result retries_used)
      | inl e =>
          let last_error := str_exc e in
          if negb (is_retryable_error last_error) then
            (* Non-retryable error, fail immediately *)
            ret (mkItem None None (Some last_error) false API_ERROR
                        (Some retries_used))
          else if attempt <? max_retries then
            delay <- lift (calculate_backoff attempt 1 60) ;;
            print ("Retry " ++ str_of_int (attempt + 1) ++ "/"
                   ++ str_of_int max_retries ++ " after "
                   ++ format_1f delay ++ "s: " ++ last_error) ;;
            sleep delay ;;
            retry_loop fuel' (attempt + 1) (retries_used + 1)
                       (Some last_error)
          else
            retry_loop fuel' (attempt + 1) retries_used (Some last_error)
      end
  | O =>
      (* All retries exhausted *)
      match last_error with
      | Some last_error =>
          ret (mkItem None None
                 (Some ("Failed after " ++ str_of_int max_retries
                        ++ " retries: " ++ last_error))
                 false
                 (if contains "rate" (lower last_error)
                  then RATE_LIMITED else NETWORK_ERROR)
                 (Some retries_used))
      | None =>
          raise (Exc AttributeError
                     "'NoneType' object has no attribute 'lower'")
      end
  end.

Definition retry_with_backoff : M W ItemDict :=
  retry_loop (Z.to_nat (max_retries + 1)) 0 0 None.

End Retry.

(* ---------------------------------------------------------------------- *)
(** *** Core functions                                                     *)
(* ---------------------------------------------------------------------- *)

Fixpoint print_warnings (warnings : list string) : M W unit :=
  match warnings with
  | [] => ret tt
  | warning :: rest => print ("  - " ++ warning) ;; print_warnings rest
  end.

Definition load_style (style_path : string) : M W string :=
  let path := Path_of style_path in
  found <- Path_exists path ;;
  if negb found then
    print ("ERROR: Style file not found: " ++ style_path) ;;
    sys_exit 1
  else
    content <- Path_read_text path ;;
    let '(is_valid, warnings) := validate_style_content content in
    (if negb is_valid then
       print "WARNING: Style file contains suspicious patterns:" ;;
       print_warnings warnings
     else ret tt) ;;
    ret content.

Definition mime_map : list (string * string) :=
  [ (".png", "image/png"); (".jpg", "image/jpeg"); (".jpeg", "image/jpeg");
    (".webp", "image/webp"); (".gif", "image/gif") ].

(** [d.get(key, default)] *)
Fixpoint dict_get (d : list (string * string)) (key default : string)
  : string :=
  match d with
  | [] => default
  | (k, v) :: d' => if String.eqb k key then v else dict_get d' key default
  end.

Definition load_image (image_path : string) : M W Part :=
  let path := Path_of image_path in
  found <- Path_exists path ;;
  if negb found then
    print ("ERROR: Image not found: " ++ image_path) ;;
    sys_exit 1
  else
    let suffix := lower (path_suffix path) in
    let mime_type := dict_get mime_map suffix "image/png" in
    data <- Path_read_bytes path ;;
    ret (mkPart data mime_type).

(** The loop over the parts of the response. *)
Fixpoint extract_image (prompt : string) (output_path : Path)
         (parts : list ResponsePart) : M W ItemDict :=
  match parts with
  | part :: rest =>
      match inline_data part with
      | Some data =>
          img_data <- lift (b64decode data) ;;
          Path_mkdir (path_parent output_path) ;;
          Path_write_bytes output_path img_data ;;
          ret (mkItem (Some prompt) (Some (path_str output_path)) None
                      true SUCCESS None)
      | None => extract_image prompt output_path rest
      end
  | [] =>
      ret (mkItem (Some prompt) None (Some "No image in response")
                  false API_ERROR None)
  end.

Definition generate_single_image (client : Client) (prompt : string)
           (output_path : Path) (style_text : string)
           (edit_part : option Part) (ref_parts : list Part)
           (aspect_ratio model : string) : M W ItemDict :=
  (* Build final prompt *)
  let final_prompt :=
    if truthy style_text
    then style_text ++ String newline (String newline "Generate: ") ++ prompt
    else prompt in
  (* Build contents *)
  let contents :=
    ([Text final_prompt]
     ++ match edit_part with Some p => [Image p] | None => [] end
     ++ map Image ref_parts)%list in
  parts <- models_generate_content client
             (mkRequest model contents aspect_ratio) ;;
  (* The image, taken from the response *)
  extract_image prompt output_path parts.

Fixpoint load_images (paths : list string) : M W (list Part) :=
  match paths with
  | [] => ret []
  | ref_path :: rest =>
      part <- load_image ref_path ;;
      parts <- load_images rest ;;
      ret (part :: parts)
  end.

(** [sum(1 for r in results if r["success"])] *)
Definition count_success (results : list ItemDict) : Z :=
  Z.of_nat (List.length (filter success results)).

Section Batch.
Variable client : Client.
Variable n_prompts : Z.
Variable output_base : Path.
Variable style_text : string.
Variable edit_part : option Part.
Variable ref_parts : list Part.
Variable aspect_ratio model : string.

(** The output file of item [i] (counted from 0). *)
Definition out_path_of (i : Z) : Path :=
  if 1 <? n_prompts then
    path_div (path_parent output_base)
             (path_stem output_base ++ "_" ++ format_03d (i + 1)
              ++ path_suffix output_base)
  else output_base.

(** The body of the loop over [enumerate(prompts)]: the item it appends
    and the retries it adds to [total_retries]. *)
Definition process_prompt (i : Z) (prompt : string) : M W (ItemDict * Z) :=
  (* Sanitize prompt *)
  match sanitize_prompt prompt with
  | inl (Exc ValueError msg) =>
      ret (mkItem (Some prompt) None (Some msg) false INVALID_INPUT None, 0)
  | inl e => raise e
  | inr safe_prompt =>
      (* Generate output filename *)
      let out_path := out_path_of i in
      (* Retry wrapper for single image generation *)
      result <- retry_with_backoff
                  (generate_single_image client safe_prompt out_path
                     style_text edit_part ref_parts aspect_ratio model)
                  DEFAULT_MAX_RETRIES ;;
      (if success result then
         print ("Generated: " ++ path_str out_path)
       else
         print ("ERROR: " ++ match error result with
                             | Some e => e
                             | None => "Unknown error"
                             end)) ;;
      ret (result,
           match retries_used result with Some r => r | None => 0 end)
  end.

Fixpoint batch_loop (i : Z) (queue : list string) (results : list ItemDict)
         (total_retries : Z) : M W (list ItemDict * Z) :=
  match queue with
  | [] => ret (results, total_retries)
  | prompt :: rest =>
      '(item, used) <- process_prompt i prompt ;;
      batch_loop (i + 1) rest (results ++ [item]) (total_retries + used)
  end.

End Batch.

Definition generate_image (prompts : list string) (output_path : string)
           (style_path edit_path : option string)
           (ref_paths : option (list string))
           (aspect_ratio model : string) (max_retries : Z)
  : M W ResultDict :=
  api_key <- os_environ_get "GEMINI_API_KEY" ;;
  match api_key with
  | None | Some EmptyString =>
      ret (mkResult false API_KEY_MISSING (Some "GEMINI_API_KEY not set")
                    [] (Z.of_nat (List.length prompts)) 0
                    (Z.of_nat (List.length prompts)) None)
  | Some api_key =>
      let client := mkClient api_key in
      (* The style, if provided *)
      style_text <-
        match style_path with
        | None | Some EmptyString => ret EmptyString
        | Some style_path => load_style style_path
        end ;;
      (* The reference images, if provided *)
      ref_parts <-
        match ref_paths with
        | None => ret []
        | Some ref_paths => load_images ref_paths
        end ;;
      (* The edit source, if editing *)
      edit_part <-
        match edit_path with
        | None | Some EmptyString => ret None
        | Some edit_path =>
            part <- load_image edit_path ;; ret (Some part)
        end ;;
      let output_base := Path_of output_path in
      '(results, total_retries) <-
        batch_loop client (Z.of_nat (List.length prompts)) output_base
                   style_text edit_part ref_parts aspect_ratio model
                   0 prompts [] 0 ;;
      let succeeded := count_success results in
      let failed := Z.of_nat (List.length results) - succeeded in
      ret (mkResult (failed =? 0)
                    (if failed =? 0 then SUCCESS else PARTIAL_FAILURE)
                    None results (Z.of_nat (List.length prompts))
                    succeeded failed (Some total_retries))
  end.

End Effects.

(* ====================================================================== *)
(** ** A scripted world                                                    *)
(* ====================================================================== *)

(** A world in which the service answers from a script and then keeps
    giving [sim_default]; files are kept by the string of their path;
    creating directories and writing always succeed, and decoding leaves
    the data as it is. *)
Record SimWorld := mkSim {
  sim_environ : list (string * string);
  sim_files : list (string * string);
  sim_script : list (exception + list ResponsePart);
  sim_default : exception + list ResponsePart
}.

Fixpoint assoc (d : list (string * string)) (key : string) : option string :=
  match d with
  | [] => None
  | (k, v) :: d' => if String.eqb k key then Some v else assoc d' key
  end.

Definition sim_read (w : SimWorld) (p : Path) : exception + string :=
  match assoc (sim_files w) (path_str p) with
  | Some content => inr content
  | None =>
      inl (Exc OtherException
               ("[Errno 2] No such file or directory: '" ++ path_str p ++ "'"))
  end.

#[export] Instance SimCollaborators : Collaborators SimWorld := {|
  environ_get w name := assoc (sim_environ w) name;
  path_exists w p :=
    match assoc (sim_files w) (path_str p) with
    | Some _ => true
    | None => false
    end;
  read_text := sim_read;
  read_bytes := sim_read;
  mkdir_parents w p := (None, w);
  write_bytes w p data :=
    (None, mkSim (sim_environ w) ((path_str p, data) :: sim_files w)
                 (sim_script w) (sim_default w));
  generate_content w client req :=
    match sim_script w with
    | reply :: rest =>
        (reply, mkSim (sim_environ w) (sim_files w) rest (sim_default w))
    | [] => (sim_default w, w)
    end;
  b64decode data := inr data
|}.

Definition image_reply : exception + list ResponsePart :=
  inr [mkResponsePart (Some "aW1hZ2U=")].

Definition no_image_reply : exception + list ResponsePart :=
  inr [mkResponsePart None].

Definition error_reply (msg : string) : exception + list ResponsePart :=
  inl (Exc OtherException msg).

(** A world with the credential set and no files. *)
Definition sim_world (script : list (exception + list ResponsePart))
           (default : exception + list ResponsePart) : SimWorld :=
  mkSim [("GEMINI_API_KEY", "secret")] [] script default.

Definition start {W} (w : W) : State W := mkState w [].

(* ====================================================================== *)
(** ** Whole responses                                                     *)
(* ====================================================================== *)

(** What the call of the service gives back when it returns, as far as
    line 277, [response.candidates[0].content.parts], looks into it:
    [candidates], the [content] of a candidate and the [parts] of a
    content, each of which may be [None]. *)
Record ResponseContent := mkResponseContent {
  content_parts : option (list ResponsePart)
}.

Record Candidate := mkCandidate {
  candidate_content : option ResponseContent
}.

Record Response := mkResponse {
  response_candidates : option (list Candidate)
}.

(** [response.candidates[0].content.parts], taken as the [for] statement
    of line 277 takes it: indexing [None] or an empty list, the attribute
    [parts] of [None], and iterating over [None] raise. *)
Definition response_parts (r : Response) : exception + list ResponsePart :=
  match response_candidates r with
  | None =>
      inl (Exc OtherException "'NoneType' object is not subscriptable")
  | Some [] => inl (Exc OtherException "list index out of range")
  | Some (candidate :: _) =>
      match candidate_content candidate with
      | None =>
          inl (Exc AttributeError
                   "'NoneType' object has no attribute 'parts'")
      | Some content =>
          match content_parts content with
          | None =>
              inl (Exc OtherException "'NoneType' object is not iterable")
          | Some parts => inr parts
          end
      end
  end.

(** The image data a response carries, in any part of any candidate. *)
Definition response_images (r : Response) : list string :=
  flat_map
    (fun candidate =>
       match candidate_content candidate with
       | Some content =>
           flat_map (fun part =>
                       match inline_data part with
                       | Some data => [data]
                       | None => []
                       end)
                    (match content_parts content with
                     | Some parts => parts
                     | None => []
                     end)
       | None => []
       end)
    (match response_candidates r with Some cs => cs | None => [] end).

(** A scripted world that keeps the responses whole, and in which the
    files listed in [raw_binary] exist but are not text: reading them as
    bytes succeeds and reading them as text raises.  A call of the
    service that returns is followed by taking the parts of the first
    candidate. *)
Record RawWorld := mkRaw {
  raw_environ : list (string * string);
  raw_files : list (string * string);
  raw_binary : list string;
  raw_script : list (exception + Response);
  raw_default : exception + Response
}.

Definition raw_read_bytes (w : RawWorld) (p : Path) : exception + string :=
  match assoc (raw_files w) (path_str p) with
  | Some content => inr content
  | None =>
      inl (Exc OtherException
               ("[Errno 2] No such file or directory: '" ++ path_str p ++ "'"))
  end.

Definition raw_read_text (w : RawWorld) (p : Path) : exception + string :=
  if existsb (String.eqb (path_str p)) (raw_binary w) then
    inl (Exc OtherException
             "'utf-8' codec can't decode byte 0x89 in position 0: invalid start byte")
  else raw_read_bytes w p.

Definition raw_answer (reply : exception + Response)
  : exception + list ResponsePart :=
  match reply with
  | inl e => inl e
  | inr r => response_parts r
  end.

#[export] Instance RawCollaborators : Collaborators RawWorld := {|
  environ_get w name := assoc (raw_environ w) name;
  path_exists w p :=
    match assoc (raw_files w) (path_str p) with
    | Some _ => true
    | None => false
    end;
  read_text := raw_read_text;
  read_bytes := raw_read_bytes;
  mkdir_parents w p := (None, w);
  write_bytes w p data :=
    (None, mkRaw (raw_environ w) ((path_str p, data) :: raw_files w)
                 (raw_binary w) (raw_script w) (raw_default w));
  generate_content w client req :=
    match raw_script w with
    | reply :: rest =>
        (raw_answer reply,
         mkRaw (raw_environ w) (raw_files w) (raw_binary w) rest
               (raw_default w))
    | [] => (raw_answer (raw_default w), w)
    end;
  b64decode data := inr data
|}.

(** A response with no candidates, and one whose first candidate has an
    empty list of parts. *)
Definition no_candidates : Response := mkResponse (Some []).

Definition no_parts : Response :=
  mkResponse (Some [mkCandidate (Some (mkResponseContent (Some [])))]).


(* ====================================================================== *)
(** ** Vocabulary of the statements                                        *)
(* ====================================================================== *)

(** The shell metacharacters of the specification, spelled out. *)
Definition shell_metacharacters : list ascii :=
  [ ";"; "&"; "|"; "`"; "$"; "("; ")"; "{"; "}"; "["; "]"; "<"; ">"; "\";
    "!" ]%char.

Definition is_call (ev : event) : bool :=
  match ev with EvCall => true | _ => false end.

Definition is_remote (ev : event) : bool :=
  match ev with EvRemote _ => true | _ => false end.

Definition is_write (ev : event) : bool :=
  match ev with EvMkdir _ | EvWrite _ _ => true | _ => false end.

(** How many times a wrapped function has been invoked so far. *)
Definition calls (l : list event) : Z :=
  Z.of_nat (List.length (filter is_call l)).

(** The state in which the wrapped function starts once the invocation
    has been counted. *)
Definition called {W} (st : State W) : State W :=
  mkState (world st) (log st ++ [EvCall]).

(** The state after the retry executor has announced a retry and slept. *)
Definition backed_off {W} (st : State W) (attempt max_retries : Z)
           (delay : Q) (last_error : string) : State W :=
  mkState (world st)
    ((log st
      ++ [EvPrint ("Retry " ++ str_of_int (attempt + 1) ++ "/"
                   ++ str_of_int max_retries ++ " after "
                   ++ format_1f delay ++ "s: " ++ last_error)])
     ++ [EvSleep delay]).

(** The dictionaries the retry executor builds by itself. *)
Definition api_error_item (msg : string) (used : Z) : ItemDict :=
  mkItem None None (Some msg) false API_ERROR (Some used).

Definition exhausted_item (max_retries : Z) (msg : string) (used : Z)
  : ItemDict :=
  mkItem None None
    (Some ("Failed after " ++ str_of_int max_retries ++ " retries: " ++ msg))
    false
    (if contains "rate" (lower msg) then RATE_LIMITED else NETWORK_ERROR)
    (Some used).

(** The dictionaries of [generate_single_image] and of the invalid-input
    branch of [generate_image]. *)
Definition success_item (prompt : string) (out : Path) : ItemDict :=
  mkItem (Some prompt) (Some (path_str out)) None true SUCCESS None.

Definition no_image_item (prompt : string) : ItemDict :=
  mkItem (Some prompt) None (Some "No image in response") false API_ERROR
         None.

Definition invalid_input_item (prompt : string) : ItemDict :=
  mkItem (Some prompt) None (Some "Prompt cannot be empty") false
         INVALID_INPUT None.

(** An operation that does not count invocations on its own account. *)
Definition quiet {W A} (c : M W A) : Prop :=
  forall st, calls (log (snd (c st))) = calls (log st).

(** An operation that does not end the process. *)
Definition no_exit {W A} (c : M W A) : Prop :=
  forall st code, fst (c st) <> Exit code.

(** An operation that raises an error classified retryable whenever it is
    invoked. *)
Definition always_retryable {W A} (c : M W A) : Prop :=
  forall st, exists e st',
    c st = (Raise e, st') /\ is_retryable_error (str_exc e) = true.

(** An operation that fails with a transient error however often it is
    tried. *)
Definition unavailable {W} : M W ItemDict :=
  raise (Exc OtherException "503 Service Unavailable").

(** The request [generate_single_image] sends. *)
Definition request_for (prompt style_text : string) (edit_part : option Part)
           (ref_parts : list Part) (aspect_ratio model : string) : Request :=
  mkRequest model
    ([Text (if truthy style_text
            then style_text
                 ++ String newline (String newline "Generate: ") ++ prompt
            else prompt)]
     ++ match edit_part with Some p => [Image p] | None => [] end
     ++ map Image ref_parts)%list
    aspect_ratio.

(** The state after the events [evs]. *)
Definition emits {W} (st : State W) (evs : list event) : State W :=
  mkState (world st) (log st ++ evs).

(** The kinds a failure built by the retry executor can have. *)
Definition executor_kinds : list ErrorCode :=
  [API_ERROR; RATE_LIMITED; NETWORK_ERROR].

(** What the dictionary of item [i] (counted from 0) of a batch of [n]
    prompts can be, given its prompt: the invalid-input record; or, for
    the sanitized prompt, the success or the no-image record of
    [generate_single_image] with a retry count; or a failure built by the
    retry executor, which carries no prompt. *)
Definition item_shape (n : Z) (base : Path) (i : Z) (p : string)
           (r : ItemDict) : Prop :=
  match sanitize_prompt p with
  | inl _ => r = invalid_input_item p
  | inr safe =>
      (exists k, r = set_retries_used
                       (success_item safe (out_path_of n base i)) k)
      \/ (exists k, r = set_retries_used (no_image_item safe) k)
      \/ (exists msg code k,
             r = mkItem None None (Some msg) false code (Some k)
             /\ In code executor_kinds)
  end.

(** [enumerate(prompts)], counting from [i]. *)
Fixpoint enumerate_from (i : Z) (l : list string) : list (Z * string) :=
  match l with
  | [] => []
  | p :: l' => (i, p) :: enumerate_from (i + 1) l'
  end.

(** The line printed when a shared input file is missing. *)
Definition not_found_line (line : string) : bool :=
  String.prefix "ERROR: Style file not found: " line
  || String.prefix "ERROR: Image not found: " line.

(** The events of loading shared inputs that are present: looking a path
    up, reading it, and printing anything but a missing-file line. *)
Definition load_event (ev : event) : bool :=
  match ev with
  | EvExists _ | EvReadText _ | EvReadBytes _ => true
  | EvPrint line => negb (not_found_line line)
  | _ => false
  end.

(** The shared input paths in the order in which they are loaded; an
    empty style or edit path counts as not given. *)
Definition shared_paths (style_path edit_path : option string)
           (ref_paths : option (list string)) : list string :=
  (match style_path with Some (String c s) => [String c s] | _ => [] end
   ++ match ref_paths with Some ps => ps | None => [] end
   ++ match edit_path with Some (String c s) => [String c s] | _ => [] end
  )%list.

Section Vocabulary.
Context {W : Type} `{Collaborators W}.

(** The credential is set, and not to the empty string. *)
Definition has_credential (w : W) : Prop :=
  exists c key, environ_get w "GEMINI_API_KEY" = Some (String c key).

(** Every file that exists can be read. *)
Definition readable (w : W) : Prop :=
  forall p, path_exists w p = true ->
    (exists content, read_text w p = inr content)
    /\ (exists data, read_bytes w p = inr data).

Definition present (w : W) (p : string) : Prop :=
  path_exists w (Path_of p) = true.

(** A computation that loads the files [paths]: in a world whose files
    can be read, either all of them are present and it returns, having
    only looked files up, read them and printed warnings; or one of them
    is absent and it ends the process with status 1 right after the line
    that says so, having done nothing else but loading. *)
Definition loads {A} (paths : list string) (c : M W A) : Prop :=
  forall st, readable (world st) ->
    (Forall (present (world st)) paths
     /\ exists a evs,
          c st = (Ret a, emits st evs) /\ forallb load_event evs = true)
    \/ (exists evs p line,
          In p paths /\ path_exists (world st) (Path_of p) = false
          /\ not_found_line line = true
          /\ forallb load_event evs = true
          /\ c st = (Exit 1,
                     emits st (evs ++ [EvExists (Path_of p); EvPrint line]))).

(** The three loading steps of [generate_image], taken together. *)
Definition load_shared (style_path edit_path : option string)
           (ref_paths : option (list string))
  : M W (string * list Part * option Part) :=
  style_text <-
    match style_path with
    | None | Some EmptyString => ret EmptyString
    | Some style_path => load_style style_path
    end ;;
  ref_parts <-
    match ref_paths with
    | None => ret []
    | Some ref_paths => load_images ref_paths
    end ;;
  edit_part <-
    match edit_path with
    | None | Some EmptyString => ret None
    | Some edit_path => part <- load_image edit_path ;; ret (Some part)
    end ;;
  ret (style_text, ref_parts, edit_part).

(** The aggregation at the end of [generate_image]. *)
Definition aggregate (prompts : list string) (results : list ItemDict)
           (total_retries : Z) : ResultDict :=
  let succeeded := count_success results in
  let failed := Z.of_nat (List.length results) - succeeded in
  mkResult (failed =? 0)
           (if failed =? 0 then SUCCESS else PARTIAL_FAILURE)
           None results (Z.of_nat (List.length prompts))
           succeeded failed (Some total_retries).

(** The events of the style warnings. *)
Definition warning_events (content : string) : list event :=
  let '(is_valid, warnings) := validate_style_content content in
  if negb is_valid then
    EvPrint "WARNING: Style file contains suspicious patterns:"
    :: map (fun warning => EvPrint ("  - " ++ warning)) warnings
  else [].

End Vocabulary.

(** How a shared input is read: the style as text, an image as bytes. *)
Inductive input_kind := StyleFile | ImageFile.

(** The shared inputs in the order in which [generate_image] loads them:
    the style, the reference images, the edit source; an empty style or
    edit path counts as not given. *)
Definition shared_inputs (style_path edit_path : option string)
           (ref_paths : option (list string))
  : list (input_kind * string) :=
  (match style_path with
   | Some (String c s) => [(StyleFile, String c s)]
   | _ => []
   end
   ++ match ref_paths with
      | Some ps => map (pair ImageFile) ps
      | None => []
      end
   ++ match edit_path with
      | Some (String c s) => [(ImageFile, String c s)]
      | _ => []
      end)%list.

(** The line [load_style] or [load_image] prints for a missing file. *)
Definition not_found_message (x : input_kind * string) : string :=
  match fst x with
  | StyleFile => "ERROR: Style file not found: "
  | ImageFile => "ERROR: Image not found: "
  end ++ snd x.

Section LoadingOrder.
Context {W : Type} `{Collaborators W}.

(** The input exists and can be read the way it is loaded. *)
Definition can_load (w : W) (x : input_kind * string) : Prop :=
  path_exists w (Path_of (snd x)) = true
  /\ match fst x with
     | StyleFile => exists content, read_text w (Path_of (snd x)) = inr content
     | ImageFile => exists data, read_bytes w (Path_of (snd x)) = inr data
     end.

(** A computation that loads [inputs] in order: when all of them can be
    loaded it returns, having only looked files up, read them and printed
    warnings; when one is absent and those before it can be loaded, it
    ends the process with status 1 right after looking that one up and
    printing its line, having done nothing else but loading. *)
Definition loads_in_order {A} (inputs : list (input_kind * string))
           (c : M W A) : Prop :=
  forall st,
    (Forall (can_load (world st)) inputs ->
     exists a evs,
       c st = (Ret a, emits st evs) /\ forallb load_event evs = true)
    /\ (forall before x after,
          inputs = (before ++ x :: after)%list ->
          Forall (can_load (world st)) before ->
          path_exists (world st) (Path_of (snd x)) = false ->
          exists evs,
            forallb load_event evs = true
            /\ c st = (Exit 1,
                       emits st (evs ++ [EvExists (Path_of (snd x));
                                         EvPrint (not_found_message x)]))).

End LoadingOrder.

Definition is_not_found_print (ev : event) : bool :=
  match ev with EvPrint line => not_found_line line | _ => false end.

(** Nothing is asked of the service, no wrapped operation is invoked,
    nothing is written and nothing is waited for. *)
Definition only_loading (ev : event) : bool :=
  match ev with
  | EvExists _ | EvReadText _ | EvReadBytes _ | EvPrint _ => true
  | _ => false
  end.

(** The string of a path up to its last component: the root, then every
    component but the last, each followed by a slash. *)
Definition dir_prefix (p : Path) : string :=
  root p
  ++ fold_right (fun c acc => c ++ "/" ++ acc) EmptyString
                (removelast (tail p)).

Definition no_slash (s : string) : Prop :=
  any_char (Ascii.eqb "/") s = false.

(** The number a string of decimal digits stands for, continuing from
    [v]. *)
Fixpoint decimal_value (v : Z) (s : string) : Z :=
  match s with
  | EmptyString => v
  | String c s' => decimal_value (v * 10 + (ord c - 48)) s'
  end.

(* ====================================================================== *)
(** ** The command line                                                    *)
(* ====================================================================== *)

(** What [parser.parse_args()] gives: the parsing itself is the work of
    [argparse] and is not modelled.  [--style] and [--edit] are [None]
    when absent, [--ref] is [None] or the list of its occurrences. *)
Record Args := mkArgs {
  args_output : string;
  args_prompts : list string;
  args_style : option string;
  args_edit : option string;
  args_ref : option (list string);
  args_aspect : string;
  args_model : string;
  args_max_retries : Z
}.

(** [a == b] on error codes, which are strings. *)
Definition ErrorCode_eqb (a b : ErrorCode) : bool :=
  String.eqb (ErrorCode_value a) (ErrorCode_value b).

(** [d.get(key, default)] on an optional key. *)
Definition get_default (key : option string) (default : string) : string :=
  match key with Some v => v | None => default end.

Section CommandLine.
Context {W : Type} `{Collaborators W}.

(** The loop over [result['results']] that lists the failed items. *)
Fixpoint print_failed (results : list ItemDict) : M W unit :=
  match results with
  | [] => ret tt
  | r :: rest =>
      (if negb (success r) then
         print ("  - " ++ get_default (prompt r) "Unknown" ++ ": "
                ++ get_default (error r) "Unknown error")
       else ret tt) ;;
      print_failed rest
  end.

(** [main], from the parsed arguments on.  A missing key of [result]
    raises [KeyError], whose string is the key between single quotes. *)
Definition main (args : Args) : M W unit :=
  result <- generate_image (args_prompts args) (args_output args)
              (args_style args) (args_edit args) (args_ref args)
              (args_aspect args) (args_model args) (args_max_retries args) ;;
  if ErrorCode_eqb (r_error_code result) API_KEY_MISSING then
    message <- match r_error result with
               | Some e => ret e
               | None => raise (Exc OtherException "'error'")
               end ;;
    print ("ERROR: " ++ message) ;;
    sys_exit 2
  else
    (* Print summary *)
    print (String newline
             ("Completed: " ++ str_of_int (r_succeeded result) ++ "/"
              ++ str_of_int (r_total result) ++ " images")) ;;
    retries <- match r_retries_used result with
               | Some n => ret n
               | None => raise (Exc OtherException "'retries_used'")
               end ;;
    (if 0 <? retries then
       print ("Retries used: " ++ str_of_int retries)
     else ret tt) ;;
    (if 0 <? r_failed result then
       print (String newline "Failed images:") ;;
       print_failed (r_results result)
     else ret tt) ;;
    sys_exit (if r_success result then 0 else 1).

End CommandLine.

(* ====================================================================== *)
(** ** Further vocabulary                                                  *)
(* ====================================================================== *)

Definition is_sleep (ev : event) : bool :=
  match ev with EvSleep _ => true | _ => false end.

(** How many events of a log satisfy [p]. *)
Definition count (p : event -> bool) (l : list event) : Z :=
  Z.of_nat (List.length (filter p l)).

(** A computation that adds no event satisfying [p]. *)
Definition silent {W A} (p : event -> bool) (c : M W A) : Prop :=
  forall st, count p (log (snd (c st))) = count p (log st).

(** A computation under which every event of the log keeps satisfying
    [P]. *)
Definition keeps {W A} (P : event -> Prop) (c : M W A) : Prop :=
  forall st, Forall P (log st) -> Forall P (log (snd (c st))).

(** The retries recorded in a dictionary, 0 when the key is absent. *)
Definition retries_of (r : ItemDict) : Z :=
  match retries_used r with Some k => k | None => 0 end.

Fixpoint sum_retries (results : list ItemDict) : Z :=
  match results with
  | [] => 0
  | r :: rest => retries_of r + sum_retries rest
  end.

(** The prompts the sanitizer lets through. *)
Definition nonblank (prompts : list string) : list string :=
  filter (fun p => negb (all_chars isspace p)) prompts.

(** The data of the first part of a response that carries an image. *)
Fixpoint first_image (parts : list ResponsePart) : option string :=
  match parts with
  | [] => None
  | part :: rest =>
      match inline_data part with
      | Some data => Some data
      | None => first_image rest
      end
  end.

(** The codes a dictionary of an item, and the result of a batch, can
    carry. *)
Definition item_codes : list ErrorCode :=
  [SUCCESS; INVALID_INPUT; API_ERROR; RATE_LIMITED; NETWORK_ERROR].

Definition batch_codes : list ErrorCode :=
  [SUCCESS; PARTIAL_FAILURE; API_KEY_MISSING].

Definition mime_types : list string :=
  ["image/png"; "image/jpeg"; "image/webp"; "image/gif"].

(** The characters of the class among the injection patterns. *)
Definition flagged_char (c : ascii) : bool :=
  any_char (Ascii.eqb c) ";&|`".

(** A character none of the injection patterns needs. *)
Definition plain_char (c : ascii) : bool :=
  negb (any_char (Ascii.eqb c) ";&|`$<:").

(** The lines of the warning about a style file. *)
Definition style_warning (warnings : list string) : list event :=
  EvPrint "WARNING: Style file contains suspicious patterns:"
  :: map (fun warning => EvPrint ("  - " ++ warning)) warnings.

(** Writing and creating directories only where item [i] of some
    position below [n] has its output. *)
Definition writes_outputs_only (n : Z) (base : Path) (ev : event) : Prop :=
  match ev with
  | EvWrite p _ => exists i, 0 <= i < n /\ p = out_path_of n base i
  | EvMkdir p => exists i, 0 <= i < n /\ p = path_parent (out_path_of n base i)
  | _ => True
  end.

(** A wait of 1, 2 or 4 seconds. *)
Definition short_wait (ev : event) : Prop :=
  match ev with
  | EvSleep d => d = 1%Q \/ d = 2%Q \/ d = 4%Q
  | _ => True
  end.

(** The events a batch may add to the log: anything but a write or a new
    directory elsewhere than at the outputs, or a wait of another
    length. *)
Definition batch_event (n : Z) (base : Path) (ev : event) : Prop :=
  writes_outputs_only n base ev /\ short_wait ev.

(** The requests a batch may send: the request of a prompt of the batch
    that the sanitizer accepts, with what was taken in at the start. *)
Definition request_event (prompts : list string) (style_text : string)
           (edit_part : option Part) (ref_parts : list Part)
           (aspect_ratio model : string) (ev : event) : Prop :=
  match ev with
  | EvRemote req =>
      exists p safe,
        In p prompts /\ sanitize_prompt p = inr safe
        /\ req = request_for safe style_text edit_part ref_parts
                    aspect_ratio model
  | _ => True
  end.

(** A log priced at [wr] per call of the service and [ws] per wait. *)
Definition weight (wr ws : Z) (ev : event) : Z :=
  match ev with
  | EvRemote _ => wr
  | EvSleep _ => ws
  | _ => 0
  end.

Fixpoint cost (wr ws : Z) (l : list event) : Z :=
  match l with
  | [] => 0
  | ev :: l' => weight wr ws ev + cost wr ws l'
  end.

(** A computation that adds to the price of the log, and at most [k]. *)
Definition spends {W A} (wr ws k : Z) (c : M W A) : Prop :=
  forall st,
    cost wr ws (log st) <= cost wr ws (log (snd (c st)))
                        <= cost wr ws (log st) + k.

(** What [main] prints after a batch that ran. *)
Definition report_events (b : ResultDict) : list event :=
  ([EvPrint (String newline
               ("Completed: " ++ str_of_int (r_succeeded b) ++ "/"
                ++ str_of_int (r_total b) ++ " images"))]
   ++ (if 0 <? match r_retries_used b with Some n => n | None => 0 end
       then [EvPrint ("Retries used: "
                      ++ str_of_int (match r_retries_used b with Some n => n | None => 0 end))]
       else [])
   ++ (if 0 <? r_failed b
       then EvPrint (String newline "Failed images:")
            :: map (fun r =>
                      EvPrint ("  - " ++ get_default (prompt r) "Unknown"
                               ++ ": "
                               ++ get_default (error r) "Unknown error"))
                   (filter (fun r => negb (success r)) (r_results b))
       else []))%list.

Section Transient.
Context {W : Type} `{Collaborators W}.
Variable func : M W ItemDict.
Variable max_retries : Z.

(** [transient k a st st']: from the state [st], with the loop at attempt
    [a], the next [k] invocations of [func] raise retryable errors, each
    is followed by the announcement and the wait before the next attempt,
    and the loop is then in the state [st']. *)
Inductive transient : nat -> Z -> State W -> State W -> Prop :=
| transient_O (a : Z) (st : State W) : transient O a st st
| transient_S (k : nat) (a : Z) (st st1 st' : State W) (e : exception)
              (delay : Q) :
    func (called st) = (Raise e, st1) ->
    is_retryable_error (str_exc e) = true ->
    a < max_retries ->
    calculate_backoff a 1 60 = inr delay ->
    transient k (a + 1)
              (backed_off st1 a max_retries delay (str_exc e)) st' ->
    transient (S k) a st st'.

End Transient.

(* ====================================================================== *)
(** * Properties                                                           *)
(* ====================================================================== *)

(** ** Strings *)

Lemma prefix_app (pat s : string) :
  String.prefix pat s = true <-> exists b, s = pat ++ b.
Proof.
  revert s; induction pat as [|c pat IH]; intros s.
  - split; [intros _; now exists s | intros _; now destruct s].
  - destruct s as [|d s]; simpl.
    + split; [discriminate | intros [b Hb]; discriminate].
    + destruct (ascii_dec c d) as [->|Hcd].
      * rewrite IH. split; intros [b Hb]; exists b.
        -- now rewrite Hb.
        -- now injection Hb.
      * split; [discriminate | intros [b Hb]; injection Hb; congruence].
Qed.

(** [pat in s] holds exactly when [s] is [a ++ pat ++ b] for some [a], [b]. *)
Lemma contains_spec (pat s : string) :
  contains pat s = true <-> exists a b, s = a ++ pat ++ b.
Proof.
  induction s as [|c s IH].
  - change (contains pat EmptyString)
      with (String.prefix pat EmptyString || false).
    rewrite orb_false_r, prefix_app. split.
    + intros [b Hb]. now exists EmptyString, b.
    + intros [a [b Hab]]. destruct a; simpl in Hab.
      * now exists b.
      * discriminate.
  - change (contains pat (String c s))
      with (String.prefix pat (String c s) || contains pat s).
    rewrite orb_true_iff, prefix_app, IH. split.
    + intros [[b Hb] | [a [b Hab]]].
      * now exists EmptyString, b.
      * exists (String c a), b. now rewrite Hab.
    + intros [a [b Hab]]. destruct a as [|d a]; simpl in Hab.
      * left. now exists b.
      * right. exists a, b. now injection Hab.
Qed.

Lemma any_char_In (p : ascii -> bool) (s : string) :
  any_char p s = true <->
  exists c, In c (list_ascii_of_string s) /\ p c = true.
Proof.
  induction s as [|d s IH]; simpl.
  - split; [discriminate | intros [c [[] _]]].
  - rewrite orb_true_iff, IH. split.
    + intros [Hd | [c [Hc Hp]]]; [exists d | exists c]; auto.
    + intros [c [[<- | Hc] Hp]]; [now left | right; now exists c].
Qed.

Lemma any_char_eqb_In (c : ascii) (s : string) :
  any_char (Ascii.eqb c) s = true <-> In c (list_ascii_of_string s).
Proof.
  rewrite any_char_In. split.
  - intros [d [Hd Heq]]. apply Ascii.eqb_eq in Heq. now subst.
  - intros Hc. exists c. split; [assumption | apply Ascii.eqb_refl].
Qed.

Lemma all_chars_lstrip (s : string) :
  all_chars isspace s = true -> lstrip s = EmptyString.
Proof.
  induction s as [|c s IH]; simpl; [reflexivity|].
  intros Hall. apply andb_true_iff in Hall as [Hc Hs].
  rewrite Hc. now apply IH.
Qed.

Lemma lstrip_nonspace (s : string) :
  all_chars isspace s = false ->
  exists c s', lstrip s = String c s' /\ isspace c = false.
Proof.
  induction s as [|c s IH]; simpl; [discriminate|].
  destruct (isspace c) eqn:Hc; simpl.
  - exact IH.
  - intros _. now exists c, s.
Qed.

(** [s.strip()] is empty exactly when every character of [s] is
    whitespace. *)
Lemma strip_empty (s : string) :
  truthy (strip s) = negb (all_chars isspace s).
Proof.
  unfold strip. destruct (all_chars isspace s) eqn:Hall.
  - now rewrite all_chars_lstrip.
  - destruct (lstrip_nonspace s Hall) as [c [s' [-> Hc]]].
    simpl. now rewrite Hc.
Qed.

Lemma all_chars_empty_or (s : string) :
  negb (truthy s) || negb (truthy (strip s)) = all_chars isspace s.
Proof.
  rewrite strip_empty, negb_involutive.
  destruct s; simpl; [reflexivity|].
  reflexivity.
Qed.

(** ** The sanitizer *)

Lemma SHELL_DANGEROUS_CHARS_spec (c : ascii) :
  SHELL_DANGEROUS_CHARS c = true <-> In c shell_metacharacters.
Proof.
  unfold SHELL_DANGEROUS_CHARS. now rewrite any_char_eqb_In.
Qed.

Lemma has_metacharacter (s : string) :
  any_char SHELL_DANGEROUS_CHARS s = true <->
  exists c, In c shell_metacharacters /\ In c (list_ascii_of_string s).
Proof.
  rewrite any_char_In. split; intros [c [H1 H2]]; exists c.
  - now rewrite <- SHELL_DANGEROUS_CHARS_spec.
  - now rewrite SHELL_DANGEROUS_CHARS_spec.
Qed.

Lemma metacharacter_not_space (c : ascii) :
  In c shell_metacharacters -> isspace c = false /\ shlex_safe c = false.
Proof.
  intros Hc. repeat (destruct Hc as [<- | Hc]; [now vm_compute|]).
  destruct Hc.
Qed.

Lemma metacharacter_not_blank (s : string) :
  any_char SHELL_DANGEROUS_CHARS s = true -> all_chars isspace s = false.
Proof.
  induction s as [|d s IH]; simpl; [discriminate|].
  intros Hany. apply orb_true_iff in Hany as [Hd | Hs].
  - apply SHELL_DANGEROUS_CHARS_spec, metacharacter_not_space in Hd.
    now rewrite (proj1 Hd).
  - rewrite (IH Hs). apply andb_false_r.
Qed.

Lemma metacharacter_unsafe (s : string) :
  any_char SHELL_DANGEROUS_CHARS s = true ->
  any_char (fun c => negb (shlex_safe c)) s = true.
Proof.
  rewrite !any_char_In. intros [c [Hc Hd]]. exists c. split; [assumption|].
  apply SHELL_DANGEROUS_CHARS_spec, metacharacter_not_space in Hd.
  now rewrite (proj2 Hd).
Qed.

(** What [shlex.quote] gives for a string with a shell metacharacter: the
    string between single quotes, each single quote inside it replaced by
    a single quote between double quotes between single quotes. *)
Lemma shlex_quote_metacharacter (s : string) :
  any_char SHELL_DANGEROUS_CHARS s = true ->
  shlex_quote s =
  "'" ++ replace "'" (String "'" (String dquote (String "'"
                      (String dquote (String "'" EmptyString))))) s ++ "'".
Proof.
  intros Hany. unfold shlex_quote.
  rewrite (metacharacter_unsafe s Hany).
  destruct s; [discriminate | reflexivity].
Qed.

Lemma sanitize_prompt_blank (p : string) :
  all_chars isspace p = true ->
  sanitize_prompt p = inl (Exc ValueError "Prompt cannot be empty").
Proof.
  intros Hall. unfold sanitize_prompt.
  now rewrite all_chars_empty_or, Hall.
Qed.

Lemma sanitize_prompt_quoted (p : string) :
  any_char SHELL_DANGEROUS_CHARS p = true ->
  sanitize_prompt p = inr (shlex_quote p).
Proof.
  intros Hany. unfold sanitize_prompt.
  now rewrite all_chars_empty_or, (metacharacter_not_blank p Hany), Hany.
Qed.

Lemma sanitize_prompt_unchanged (p : string) :
  all_chars isspace p = false ->
  any_char SHELL_DANGEROUS_CHARS p = false ->
  sanitize_prompt p = inr p.
Proof.
  intros Hall Hany. unfold sanitize_prompt.
  now rewrite all_chars_empty_or, Hall, Hany.
Qed.

(** The sanitizer raises nothing but [ValueError]. *)
Lemma sanitize_prompt_cases (p : string) :
  sanitize_prompt p = inl (Exc ValueError "Prompt cannot be empty")
  \/ exists safe, sanitize_prompt p = inr safe.
Proof.
  unfold sanitize_prompt.
  destruct (negb (truthy p) || negb (truthy (strip p))); [now left|].
  right. destruct (any_char SHELL_DANGEROUS_CHARS p); eauto.
Qed.

(** ** The error classifier *)

Lemma is_retryable_error_spec (e : string) :
  is_retryable_error e = true <->
  exists entry,
    In entry [ "rate limit"; "429"; "503"; "502"; "connection"; "timeout";
               "temporarily unavailable" ]
    /\ exists a b, lower e = a ++ entry ++ b.
Proof.
  unfold is_retryable_error. rewrite existsb_exists.
  split; intros [entry [Hin Hc]]; exists entry; split; try assumption.
  - now apply contains_spec.
  - now apply contains_spec.
Qed.

(** ** The backoff policy *)

Lemma calculate_backoff_in_range (a : Z) (base cap : Q) :
  a < 1024 ->
  calculate_backoff a base cap = inr (Qmin (base * 2 ^ a) cap).
Proof.
  intros Ha. unfold calculate_backoff.
  destruct (1024 <=? a) eqn:E; [apply Z.leb_le in E; lia | reflexivity].
Qed.

Lemma calculate_backoff_overflows (a : Z) (base cap : Q) :
  1024 <= a ->
  calculate_backoff a base cap =
  inl (Exc OverflowError "int too large to convert to float").
Proof.
  intros Ha. unfold calculate_backoff.
  destruct (1024 <=? a) eqn:E; [reflexivity | apply Z.leb_gt in E; lia].
Qed.

(** Below the overflow the delay with the default parameters does not
    exceed the cap and does not decrease with the attempt. *)
Lemma calculate_backoff_default_bounded (a : Z) (d : Q) :
  calculate_backoff a 1 60 = inr d -> (d <= 60)%Q.
Proof.
  unfold calculate_backoff. destruct (1024 <=? a); [discriminate|].
  intros [= <-]. apply Q.le_min_r.
Qed.

Lemma calculate_backoff_default_monotone (a b : Z) (d d' : Q) :
  a <= b ->
  calculate_backoff a 1 60 = inr d ->
  calculate_backoff b 1 60 = inr d' ->
  (d <= d')%Q.
Proof.
  intros Hab. unfold calculate_backoff.
  destruct (1024 <=? a); [discriminate|].
  destruct (1024 <=? b); [discriminate|].
  intros [= <-] [= <-].
  apply Q.min_le_compat_r.
  rewrite !Qmult_1_l.
  apply Qpower_le_compat_l; [assumption | discriminate].
Qed.

(** ** The retry executor *)

Section RetryFacts.
Context {W : Type} `{Collaborators W}.
Variable func : M W ItemDict.
Variable max_retries : Z.

(** One turn of the loop. *)
Lemma retry_loop_S (fuel : nat) (attempt used : Z) (last : option string)
      (st : State W) :
  retry_loop func max_retries (S fuel) attempt used last st =
  match func (called st) with
  | (Ret result, st') => (Ret (set_retries_used result used), st')
  | (Raise e, st') =>
      if negb (is_retryable_error (str_exc e)) then
        (Ret (api_error_item (str_exc e) used), st')
      else if attempt <? max_retries then
        match calculate_backoff attempt 1 60 with
        | inl e' => (Raise e', st')
        | inr delay =>
            retry_loop func max_retries fuel (attempt + 1) (used + 1)
              (Some (str_exc e))
              (backed_off st' attempt max_retries delay (str_exc e))
        end
      else
        retry_loop func max_retries fuel (attempt + 1) used
                   (Some (str_exc e)) st'
  | (Exit code, st') => (Exit code, st')
  end.
Proof.
  cbn [retry_loop]. unfold bind at 1. unfold emit at 1.
  unfold bind at 1. unfold try_except. fold (called st).
  destruct (func (called st)) as [[result|e|code] st']; try reflexivity.
  destruct (negb (is_retryable_error (str_exc e))); [reflexivity|].
  destruct (attempt <? max_retries); [|reflexivity].
  unfold bind at 1.
  destruct (calculate_backoff attempt 1 60) as [e'|delay]; reflexivity.
Qed.

Lemma retry_loop_O (attempt used : Z) (msg : string) (st : State W) :
  retry_loop func max_retries O attempt used (Some msg) st =
  (Ret (exhausted_item max_retries msg used), st).
Proof. reflexivity. Qed.

(** A value returned by the wrapped function ends the loop at once: it is
    handed back with the retries counted so far, whatever it says. *)
Lemma retry_loop_returns (fuel : nat) (attempt used : Z)
      (last : option string) (st st' : State W) (result : ItemDict) :
  func (called st) = (Ret result, st') ->
  retry_loop func max_retries (S fuel) attempt used last st =
  (Ret (set_retries_used result used), st').
Proof. intros Hf. now rewrite retry_loop_S, Hf. Qed.

Lemma retry_loop_not_retryable (fuel : nat) (attempt used : Z)
      (last : option string) (st st' : State W) (e : exception) :
  func (called st) = (Raise e, st') ->
  is_retryable_error (str_exc e) = false ->
  retry_loop func max_retries (S fuel) attempt used last st =
  (Ret (api_error_item (str_exc e) used), st').
Proof. intros Hf He. now rewrite retry_loop_S, Hf, He. Qed.

Lemma calls_app (l1 l2 : list event) : calls (l1 ++ l2) = calls l1 + calls l2.
Proof.
  unfold calls. rewrite filter_app, length_app. lia.
Qed.

Lemma calls_called (st : State W) :
  calls (log (called st)) = calls (log st) + 1.
Proof. unfold called. simpl. now rewrite calls_app. Qed.

Lemma calls_backed_off (st : State W) a n d msg :
  calls (log (backed_off st a n d msg)) = calls (log st).
Proof.
  unfold backed_off. simpl. rewrite !calls_app. unfold calls. simpl. lia.
Qed.

Lemma quiet_calls {A} (c : M W A) (st st' : State W) (res : Res A) :
  quiet c -> c st = (res, st') -> calls (log st') = calls (log st).
Proof. intros Hq Hc. specialize (Hq st). now rewrite Hc in Hq. Qed.

Lemma exhausted_item_kind (msg : string) (used : Z) :
  (error_code (exhausted_item max_retries msg used) = RATE_LIMITED <->
   exists a b, lower msg = a ++ "rate" ++ b)
  /\ (error_code (exhausted_item max_retries msg used) = NETWORK_ERROR <->
      ~ exists a b, lower msg = a ++ "rate" ++ b).
Proof.
  pose proof (contains_spec "rate" (lower msg)) as Hspec.
  unfold exhausted_item, error_code.
  destruct (contains "rate" (lower msg)); split; split; intros Hk;
    try reflexivity; try discriminate.
  - now apply Hspec.
  - exfalso. apply Hk. now apply Hspec.
  - apply Hspec in Hk. discriminate.
  - intros Hm. apply Hspec in Hm. discriminate.
Qed.

(** The loop when every invocation raises a retryable error and the
    backoff never overflows: every remaining turn invokes the operation,
    and the outcome carries the message of the last invocation. *)
Lemma retry_loop_exhausts (fuel : nat) :
  always_retryable func -> quiet func -> max_retries <= 1024 ->
  forall (attempt used : Z) (last : option string) (st : State W),
    0 <= attempt ->
    attempt + Z.of_nat (S fuel) = max_retries + 1 ->
    exists st_last e st',
      func st_last = (Raise e, st')
      /\ retry_loop func max_retries (S fuel) attempt used last st =
         (Ret (exhausted_item max_retries (str_exc e)
                              (used + Z.of_nat fuel)), st')
      /\ calls (log st') = calls (log st) + Z.of_nat (S fuel).
Proof.
  intros Hretry Hquiet Hmax.
  induction fuel as [|fuel IH]; intros attempt used last st Ha Hsum.
  - destruct (Hretry (called st)) as [e [st' [Hf He]]].
    exists (called st), e, st'. split; [assumption|].
    rewrite retry_loop_S, Hf, He. simpl negb. cbv iota.
    destruct (attempt <? max_retries) eqn:E;
      [apply Z.ltb_lt in E; lia|].
    rewrite retry_loop_O, Z.add_0_r. split; [reflexivity|].
    rewrite (quiet_calls _ _ _ _ Hquiet Hf), calls_called. lia.
  - destruct (Hretry (called st)) as [e [st' [Hf He]]].
    rewrite retry_loop_S, Hf, He. simpl negb. cbv iota.
    destruct (attempt <? max_retries) eqn:E;
      [|apply Z.ltb_ge in E; lia].
    rewrite calculate_backoff_in_range by lia.
    destruct (IH (attempt + 1) (used + 1) (Some (str_exc e))
                 (backed_off st' attempt max_retries
                    (Qmin (1 * 2 ^ attempt) 60) (str_exc e)))
      as [st_last [e' [st'' [Hf' [Hloop Hcalls]]]]]; [lia | lia |].
    exists st_last, e', st''. split; [assumption|]. split.
    + rewrite Hloop. do 3 f_equal. lia.
    + rewrite Hcalls, calls_backed_off.
      rewrite (quiet_calls _ _ _ _ Hquiet Hf), calls_called. lia.
Qed.

(** With a budget between 0 and 1024, an operation that always raises a
    retryable error is invoked once more than the budget, and the outcome
    is the failure built from the last message, with the whole budget
    used. *)
Lemma retry_exhausted_in_range (st : State W) :
  always_retryable func -> quiet func -> 0 <= max_retries <= 1024 ->
  exists st_last e st',
    func st_last = (Raise e, st')
    /\ retry_with_backoff func max_retries st =
       (Ret (exhausted_item max_retries (str_exc e) max_retries), st')
    /\ calls (log st') = calls (log st) + (max_retries + 1).
Proof.
  intros Hretry Hquiet [Hlo Hhi]. unfold retry_with_backoff.
  replace (Z.to_nat (max_retries + 1)) with (S (Z.to_nat max_retries))
    by lia.
  destruct (retry_loop_exhausts (Z.to_nat max_retries) Hretry Hquiet Hhi
              0 0 None st) as [st_last [e [st' [Hf [Hloop Hcalls]]]]];
    [lia | lia |].
  exists st_last, e, st'. split; [assumption|]. split.
  - rewrite Hloop. do 3 f_equal. lia.
  - rewrite Hcalls. lia.
Qed.

(** With a larger budget the same operation is invoked 1025 times, and
    then the delay before the next attempt cannot be computed: the
    executor raises [OverflowError] and returns no outcome. *)
Lemma retry_loop_overflows (k : nat) :
  always_retryable func -> quiet func -> 1025 <= max_retries ->
  forall (fuel : nat) (attempt used : Z) (last : option string)
         (st : State W),
    attempt + Z.of_nat k = 1024 -> 0 <= attempt ->
    exists st',
      retry_loop func max_retries (S fuel + k) attempt used last st =
      (Raise (Exc OverflowError "int too large to convert to float"), st')
      /\ calls (log st') = calls (log st) + Z.of_nat (S k).
Proof.
  intros Hretry Hquiet Hmax.
  induction k as [|k IH]; intros fuel attempt used last st Hk Ha.
  - destruct (Hretry (called st)) as [e [st' [Hf He]]].
    exists st'. rewrite Nat.add_0_r, retry_loop_S, Hf, He.
    simpl negb. cbv iota.
    destruct (attempt <? max_retries) eqn:E;
      [|apply Z.ltb_ge in E; lia].
    rewrite calculate_backoff_overflows by lia. split; [reflexivity|].
    rewrite (quiet_calls _ _ _ _ Hquiet Hf), calls_called. lia.
  - destruct (Hretry (called st)) as [e [st' [Hf He]]].
    replace (S fuel + S k)%nat with (S (S fuel + k)) by lia.
    rewrite retry_loop_S, Hf, He. simpl negb. cbv iota.
    destruct (attempt <? max_retries) eqn:E;
      [|apply Z.ltb_ge in E; lia].
    rewrite calculate_backoff_in_range by lia.
    destruct (IH fuel (attempt + 1) (used + 1) (Some (str_exc e))
                 (backed_off st' attempt max_retries
                    (Qmin (1 * 2 ^ attempt) 60) (str_exc e)))
      as [st'' [Hloop Hcalls]]; [lia | lia |].
    exists st''. split; [assumption|].
    rewrite Hcalls, calls_backed_off.
    rewrite (quiet_calls _ _ _ _ Hquiet Hf), calls_called. lia.
Qed.

Lemma retry_overflows_beyond_range (st : State W) :
  always_retryable func -> quiet func -> 1025 <= max_retries ->
  exists st',
    retry_with_backoff func max_retries st =
    (Raise (Exc OverflowError "int too large to convert to float"), st')
    /\ calls (log st') = calls (log st) + 1025.
Proof.
  intros Hretry Hquiet Hmax. unfold retry_with_backoff.
  replace (Z.to_nat (max_retries + 1))
    with (S (Z.to_nat (max_retries - 1024)) + 1024)%nat by lia.
  destruct (retry_loop_overflows 1024 Hretry Hquiet Hmax
              (Z.to_nat (max_retries - 1024)) 0 0 None st)
    as [st' [Hloop Hcalls]]; [lia | lia |].
  exists st'. split; [assumption|]. rewrite Hcalls. lia.
Qed.

(** A negative budget leaves no turn of the loop, and the code after the
    loop fails on the error message it never got. *)
Lemma retry_negative_budget (st : State W) :
  max_retries < 0 ->
  retry_with_backoff func max_retries st =
  (Raise (Exc AttributeError "'NoneType' object has no attribute 'lower'"),
   st).
Proof.
  intros Hneg. unfold retry_with_backoff.
  replace (Z.to_nat (max_retries + 1)) with O by lia. reflexivity.
Qed.

End RetryFacts.

Lemma unavailable_always_retryable {W} : always_retryable (@unavailable W).
Proof.
  intros st. now exists (Exc OtherException "503 Service Unavailable"), st.
Qed.

Lemma unavailable_quiet {W} : quiet (@unavailable W).
Proof. intros st. reflexivity. Qed.

(** ** Single-item generation *)

Section SingleFacts.
Context {W : Type} `{Collaborators W}.

Lemma quiet_ret {A} (a : A) : quiet (@ret W A a).
Proof. intros st. reflexivity. Qed.

Lemma quiet_raise {A} (e : exception) : quiet (@raise W A e).
Proof. intros st. reflexivity. Qed.

Lemma quiet_lift {A} (r : exception + A) : quiet (@lift W A r).
Proof. destruct r; [apply quiet_raise | apply quiet_ret]. Qed.

Lemma quiet_bind {A B} (c : M W A) (k : A -> M W B) :
  quiet c -> (forall a, quiet (k a)) -> quiet (bind c k).
Proof.
  intros Hc Hk st. unfold bind. specialize (Hc st).
  destruct (c st) as [[a|e|code] st1]; simpl in *; try assumption.
  now rewrite (Hk a st1).
Qed.

Lemma quiet_emit (ev : event) : is_call ev = false -> quiet (@emit W ev).
Proof.
  intros Hev st. simpl. rewrite calls_app. unfold calls at 2. simpl.
  rewrite Hev. simpl. lia.
Qed.

Lemma quiet_same_log {A} (c : M W A) :
  (forall st, log (snd (c st)) = log st) -> quiet c.
Proof. intros Hc st. now rewrite Hc. Qed.

Lemma quiet_run_io (r : option exception * W) : quiet (run_io r).
Proof. apply quiet_same_log. intros st. now destruct r as [[e|] w]. Qed.

Lemma quiet_mkdir (p : Path) : quiet (Path_mkdir p).
Proof.
  unfold Path_mkdir. apply quiet_bind; [now apply quiet_emit|].
  intros _ st. apply quiet_run_io.
Qed.

Lemma quiet_write_bytes (p : Path) (data : string) :
  quiet (Path_write_bytes p data).
Proof.
  unfold Path_write_bytes. apply quiet_bind; [now apply quiet_emit|].
  intros _ st. apply quiet_run_io.
Qed.

Lemma quiet_generate_content (client : Client) (req : Request) :
  quiet (models_generate_content client req).
Proof.
  unfold models_generate_content. apply quiet_bind; [now apply quiet_emit|].
  intros _. apply quiet_same_log. intros st.
  now destruct (generate_content (world st) client req) as [[e|parts] w].
Qed.

Lemma quiet_extract_image (prompt : string) (out : Path)
      (parts : list ResponsePart) :
  quiet (extract_image prompt out parts).
Proof.
  induction parts as [|part rest IH]; simpl; [apply quiet_ret|].
  destruct (inline_data part) as [data|]; [|exact IH].
  apply quiet_bind; [apply quiet_lift|]. intros img.
  apply quiet_bind; [apply quiet_mkdir|]. intros _.
  apply quiet_bind; [apply quiet_write_bytes|]. intros _. apply quiet_ret.
Qed.

Lemma quiet_generate_single_image client prompt out style edit refs ar model :
  quiet (generate_single_image client prompt out style edit refs ar model).
Proof.
  unfold generate_single_image.
  apply quiet_bind; [apply quiet_generate_content|].
  intros parts. apply quiet_extract_image.
Qed.

(** What [generate_single_image] can give: the success record, the
    no-image record, or an exception. *)
Lemma extract_image_outcome (prompt : string) (out : Path)
      (parts : list ResponsePart) (st : State W) :
  fst (extract_image prompt out parts st) = Ret (success_item prompt out)
  \/ fst (extract_image prompt out parts st) = Ret (no_image_item prompt)
  \/ exists e, fst (extract_image prompt out parts st) = Raise e.
Proof.
  induction parts as [|part rest IH]; simpl; [now right; left|].
  destruct (inline_data part) as [data|]; [|exact IH].
  unfold bind.
  destruct (b64decode data) as [e|img]; simpl; [right; right; eauto|].
  unfold Path_mkdir, Path_write_bytes, bind, emit, run_io. simpl.
  destruct (mkdir_parents (world st) (path_parent out)) as [[e|] w1];
    simpl; [right; right; eauto|].
  destruct (write_bytes w1 out img) as [[e|] w2];
    simpl; [right; right; eauto|].
  now left.
Qed.

Lemma generate_single_image_eq client prompt out style edit refs ar model
      (st : State W) :
  generate_single_image client prompt out style edit refs ar model st =
  let req := request_for prompt style edit refs ar model in
  match generate_content (world st) client req with
  | (inl e, w) => (Raise e, mkState w (log st ++ [EvRemote req]))
  | (inr parts, w) =>
      extract_image prompt out parts (mkState w (log st ++ [EvRemote req]))
  end.
Proof.
  unfold generate_single_image, models_generate_content, request_for.
  unfold bind, emit. simpl.
  match goal with
  | |- context [generate_content ?w ?c ?r] =>
      destruct (generate_content w c r) as [[e|parts] w']
  end; reflexivity.
Qed.

Lemma generate_single_image_outcome client prompt out style edit refs ar model
      (st : State W) :
  let run := generate_single_image client prompt out style edit refs ar model
               st in
  fst run = Ret (success_item prompt out)
  \/ fst run = Ret (no_image_item prompt)
  \/ exists e, fst run = Raise e.
Proof.
  cbv zeta. rewrite generate_single_image_eq. cbv zeta.
  destruct (generate_content _ _ _) as [[e|parts] w].
  - right; right. now exists e.
  - apply extract_image_outcome.
Qed.

Lemma no_exit_generate_single_image client prompt out style edit refs ar model :
  no_exit (generate_single_image client prompt out style edit refs ar model).
Proof.
  intros st code Hexit.
  destruct (generate_single_image_outcome client prompt out style edit refs
              ar model st) as [Hr | [Hr | [e Hr]]];
    rewrite Hr in Hexit; discriminate.
Qed.

(** A response without an image part: every part is looked at, nothing is
    written, and the no-image failure is returned as a value. *)
Lemma extract_image_none (prompt : string) (out : Path)
      (parts : list ResponsePart) (st : State W) :
  Forall (fun part => inline_data part = None) parts ->
  extract_image prompt out parts st = (Ret (no_image_item prompt), st).
Proof.
  induction 1 as [|part rest Hpart _ IH]; simpl; [reflexivity|].
  now rewrite Hpart.
Qed.

End SingleFacts.

(** ** The retry executor around any operation that cannot end the process *)

Section RetryOutcome.
Context {W : Type} `{Collaborators W}.
Variable func : M W ItemDict.
Variable max_retries : Z.

(** Within the range of the backoff the loop always comes back with a
    dictionary: a value the operation returned, with the retry count set,
    or a failure of its own making. *)
Lemma retry_loop_outcome (fuel : nat) :
  no_exit func -> max_retries <= 1024 ->
  forall (attempt used : Z) (last : option string) (st : State W),
    (fuel = O -> last <> None) ->
    exists r st',
      retry_loop func max_retries fuel attempt used last st = (Ret r, st')
      /\ ((exists r0 st0 k,
              fst (func st0) = Ret r0 /\ r = set_retries_used r0 k)
          \/ (exists msg code k,
                 r = mkItem None None (Some msg) false code (Some k)
                 /\ In code executor_kinds)).
Proof.
  intros Hexit Hmax.
  induction fuel as [|fuel IH]; intros attempt used last st Hlast.
  - destruct last as [msg|]; [|now destruct Hlast].
    rewrite retry_loop_O. eexists; eexists. split; [reflexivity|].
    right. unfold exhausted_item. do 3 eexists. split; [reflexivity|].
    unfold executor_kinds.
    destruct (contains "rate" (lower msg)); simpl; auto.
  - rewrite retry_loop_S.
    destruct (func (called st)) as [[result|e|code] st'] eqn:Hf.
    + eexists; eexists. split; [reflexivity|]. left.
      exists result, (called st), used. now rewrite Hf.
    + destruct (is_retryable_error (str_exc e)); simpl negb; cbv iota.
      * destruct (attempt <? max_retries) eqn:E.
        -- apply Z.ltb_lt in E.
           rewrite calculate_backoff_in_range by lia.
           apply IH. discriminate.
        -- apply IH. discriminate.
      * eexists; eexists. split; [reflexivity|]. right.
        unfold api_error_item. do 3 eexists. split; [reflexivity|].
        simpl; auto.
    + exfalso. apply (Hexit (called st) code). now rewrite Hf.
Qed.

Lemma retry_with_backoff_outcome (st : State W) :
  no_exit func -> 0 <= max_retries <= 1024 ->
  exists r st',
    retry_with_backoff func max_retries st = (Ret r, st')
    /\ ((exists r0 st0 k,
            fst (func st0) = Ret r0 /\ r = set_retries_used r0 k)
        \/ (exists msg code k,
               r = mkItem None None (Some msg) false code (Some k)
               /\ In code executor_kinds)).
Proof.
  intros Hexit [Hlo Hhi]. unfold retry_with_backoff.
  apply retry_loop_outcome; try assumption. lia.
Qed.

End RetryOutcome.

(** ** The batch loop *)

Section BatchFacts.
Context {W : Type} `{Collaborators W}.
Variable client : Client.
Variable n : Z.
Variable base : Path.
Variable style : string.
Variable edit : option Part.
Variable refs : list Part.
Variable ar model : string.

(** A prompt the sanitizer rejects: the invalid-input record, no retry,
    and nothing done to the world. *)
Lemma process_prompt_blank (i : Z) (p : string) (st : State W) :
  all_chars isspace p = true ->
  process_prompt client n base style edit refs ar model i p st =
  (Ret (invalid_input_item p, 0), st).
Proof.
  intros Hblank. unfold process_prompt.
  now rewrite (sanitize_prompt_blank p Hblank).
Qed.

(** Every prompt gives exactly one dictionary, of the shape its prompt
    and its position allow. *)
Lemma process_prompt_outcome (i : Z) (p : string) (st : State W) :
  exists r used st',
    process_prompt client n base style edit refs ar model i p st =
    (Ret (r, used), st')
    /\ item_shape n base i p r.
Proof.
  unfold process_prompt, item_shape.
  destruct (sanitize_prompt_cases p) as [-> | [safe ->]].
  - now exists (invalid_input_item p), 0, st.
  - destruct (retry_with_backoff_outcome
                (generate_single_image client safe (out_path_of n base i)
                   style edit refs ar model)
                DEFAULT_MAX_RETRIES st) as [r [st' [Hrun Hshape]]].
    + apply no_exit_generate_single_image.
    + unfold DEFAULT_MAX_RETRIES. lia.
    + unfold bind at 1. rewrite Hrun.
      unfold bind, print, emit.
      exists r. destruct (success r); simpl; eexists; eexists;
        (split; [reflexivity|]).
      all: destruct Hshape as [[r0 [st0 [k [Hr0 ->]]]] | Hfail];
        [|now right; right].
      all: destruct (generate_single_image_outcome client safe
                  (out_path_of n base i) style edit refs ar model st0)
          as [Hr | [Hr | [e Hr]]];
        cbv zeta in Hr; rewrite Hr in Hr0;
        try discriminate; injection Hr0 as <-.
      all: try (left; now exists k).
      all: right; left; now exists k.
Qed.

Lemma batch_loop_outcome (queue : list string) :
  forall (i : Z) (results : list ItemDict) (total : Z) (st : State W),
  exists new total' st',
    batch_loop client n base style edit refs ar model i queue results
               total st =
    (Ret ((results ++ new)%list, total'), st')
    /\ Forall2 (fun ip r => item_shape n base (fst ip) (snd ip) r)
               (enumerate_from i queue) new.
Proof.
  induction queue as [|p queue IH]; intros i results total st.
  - exists [], total, st. simpl. rewrite app_nil_r.
    split; [reflexivity | constructor].
  - destruct (process_prompt_outcome i p st)
      as [r [used [st1 [Hrun Hshape]]]].
    destruct (IH (i + 1) (results ++ [r])%list (total + used) st1)
      as [new [total' [st' [Hloop Hall]]]].
    exists (r :: new), total', st'. split.
    + cbn [batch_loop]. unfold bind at 1. rewrite Hrun, Hloop.
      now rewrite <- app_assoc.
    + simpl. now constructor.
Qed.


End BatchFacts.

(** ** Loading the shared inputs *)

Section LoadFacts.
Context {W : Type} `{Collaborators W}.

Lemma emits_emits (st : State W) (evs1 evs2 : list event) :
  emits (emits st evs1) evs2 = emits st (evs1 ++ evs2).
Proof. unfold emits. simpl. now rewrite app_assoc. Qed.

Lemma emits_nil (st : State W) : emits st [] = st.
Proof. unfold emits. rewrite app_nil_r. now destruct st. Qed.

Lemma emit_emits (ev : event) (st : State W) :
  emit ev st = (Ret tt, emits st [ev]).
Proof. reflexivity. Qed.

Lemma print_warnings_eq (warnings : list string) (st : State W) :
  print_warnings warnings st =
  (Ret tt, emits st (map (fun w => EvPrint ("  - " ++ w)) warnings)).
Proof.
  revert st. induction warnings as [|w ws IH]; intros st.
  - simpl. now rewrite emits_nil.
  - cbn [print_warnings map]. unfold bind, print. rewrite emit_emits.
    rewrite IH, emits_emits. reflexivity.
Qed.

Lemma load_style_eq (style_path : string) (st : State W) :
  load_style style_path st =
  let path := Path_of style_path in
  if path_exists (world st) path then
    match read_text (world st) path with
    | inl e => (Raise e, emits st [EvExists path; EvReadText path])
    | inr content =>
        (Ret content,
         emits st ([EvExists path; EvReadText path]
                   ++ warning_events content))
    end
  else
    (Exit 1,
     emits st [EvExists path;
               EvPrint ("ERROR: Style file not found: " ++ style_path)]).
Proof.
  cbv zeta. unfold load_style, Path_exists, Path_read_text, print.
  unfold bind at 1. unfold bind at 1. rewrite emit_emits.
  cbn [world emits].
  destruct (path_exists (world st) (Path_of style_path)); cbn [negb].
  - unfold bind at 1. unfold bind at 1. rewrite emit_emits.
    cbn [world emits]. rewrite emits_emits.
    destruct (read_text (world st) (Path_of style_path)) as [e|content];
      cbn [lift raise ret]; [reflexivity|].
    unfold warning_events.
    destruct (validate_style_content content) as [is_valid warnings].
    destruct is_valid; cbn [negb].
    + unfold bind, ret. now rewrite app_nil_r.
    + unfold bind at 1. unfold bind at 1. rewrite emit_emits.
      rewrite print_warnings_eq, !emits_emits. reflexivity.
  - unfold bind, sys_exit. rewrite emit_emits, emits_emits. reflexivity.
Qed.

Lemma load_image_eq (image_path : string) (st : State W) :
  load_image image_path st =
  let path := Path_of image_path in
  if path_exists (world st) path then
    match read_bytes (world st) path with
    | inl e => (Raise e, emits st [EvExists path; EvReadBytes path])
    | inr data =>
        (Ret (mkPart data
                (dict_get mime_map (lower (path_suffix path)) "image/png")),
         emits st [EvExists path; EvReadBytes path])
    end
  else
    (Exit 1,
     emits st [EvExists path;
               EvPrint ("ERROR: Image not found: " ++ image_path)]).
Proof.
  cbv zeta. unfold load_image, Path_exists, Path_read_bytes, print.
  unfold bind at 1. unfold bind at 1. rewrite emit_emits.
  cbn [world emits].
  destruct (path_exists (world st) (Path_of image_path)); cbn [negb].
  - unfold bind at 1. unfold bind at 1. rewrite emit_emits.
    cbn [world emits]. rewrite emits_emits.
    destruct (read_bytes (world st) (Path_of image_path)) as [e|data];
      reflexivity.
  - unfold bind, sys_exit. rewrite emit_emits, emits_emits. reflexivity.
Qed.

Lemma warning_events_load (content : string) :
  forallb load_event (warning_events content) = true.
Proof.
  unfold warning_events.
  destruct (validate_style_content content) as [is_valid warnings].
  destruct is_valid; [reflexivity|]. cbn [negb forallb].
  apply andb_true_iff. split; [reflexivity|].
  induction warnings as [|w ws IH]; [reflexivity|]. simpl. exact IH.
Qed.

Lemma loads_ret {A} (a : A) : loads [] (@ret W A a).
Proof.
  intros st _. left. split; [constructor|].
  exists a, []. now rewrite emits_nil.
Qed.

Lemma loads_load_style (p : string) : loads [p] (load_style p).
Proof.
  intros st Hread. rewrite load_style_eq. cbv zeta.
  destruct (path_exists (world st) (Path_of p)) eqn:Hex.
  - left. split; [now repeat constructor|].
    destruct (proj1 (Hread _ Hex)) as [content ->].
    eexists; eexists. split; [reflexivity|].
    cbn [app forallb load_event andb]. apply warning_events_load.
  - right. exists [], p, ("ERROR: Style file not found: " ++ p).
    repeat split; try reflexivity; try assumption; [now left|].
    unfold not_found_line. apply orb_true_iff. left.
    apply prefix_app. now exists p.
Qed.

Lemma loads_load_image (p : string) : loads [p] (load_image p).
Proof.
  intros st Hread. rewrite load_image_eq. cbv zeta.
  destruct (path_exists (world st) (Path_of p)) eqn:Hex.
  - left. split; [now repeat constructor|].
    destruct (proj2 (Hread _ Hex)) as [data ->].
    eexists; eexists. split; reflexivity.
  - right. exists [], p, ("ERROR: Image not found: " ++ p).
    repeat split; try reflexivity; try assumption; [now left|].
    unfold not_found_line. apply orb_true_iff. right.
    apply prefix_app. now exists p.
Qed.

Lemma loads_bind {A B} (ps1 ps2 : list string) (c : M W A) (k : A -> M W B) :
  loads ps1 c -> (forall a, loads ps2 (k a)) ->
  loads (ps1 ++ ps2) (bind c k).
Proof.
  intros Hc Hk st Hread. unfold bind.
  destruct (Hc st Hread)
    as [[Hall1 [a [evs1 [-> Hev1]]]]
       | [evs [p [line [Hin [Habs [Hline [Hev ->]]]]]]]].
  - destruct (Hk a (emits st evs1) Hread)
      as [[Hall2 [b [evs2 [-> Hev2]]]]
         | [evs [p [line [Hin [Habs [Hline [Hev ->]]]]]]]].
    + left. split; [apply Forall_app; now split|].
      exists b, (evs1 ++ evs2)%list. rewrite emits_emits, forallb_app.
      split; [reflexivity|]. now rewrite Hev1, Hev2.
    + right. exists (evs1 ++ evs)%list, p, line.
      rewrite emits_emits, forallb_app, Hev1, Hev, app_assoc.
      repeat split; try assumption. apply in_or_app. now right.
  - right. exists evs, p, line.
    repeat split; try assumption. apply in_or_app. now left.
Qed.

Lemma loads_bind_nil {A B} (ps : list string) (c : M W A) (k : A -> M W B) :
  loads ps c -> (forall a, loads [] (k a)) -> loads ps (bind c k).
Proof.
  intros Hc Hk. rewrite <- (app_nil_r ps). now apply loads_bind.
Qed.

Lemma loads_load_images (ps : list string) : loads ps (load_images ps).
Proof.
  induction ps as [|p ps IH]; [apply loads_ret|].
  cbn [load_images]. change (p :: ps) with ([p] ++ ps)%list.
  apply loads_bind; [apply loads_load_image|]. intros part.
  apply loads_bind_nil; [exact IH|].
  intros parts. apply loads_ret.
Qed.

Lemma loads_load_shared (style_path edit_path : option string)
      (ref_paths : option (list string)) :
  loads (shared_paths style_path edit_path ref_paths)
        (load_shared style_path edit_path ref_paths).
Proof.
  unfold shared_paths, load_shared.
  apply loads_bind.
  { destruct style_path as [[|c s]|];
      [apply loads_ret | apply loads_load_style | apply loads_ret]. }
  intros style_text. apply loads_bind.
  { destruct ref_paths as [ps|]; [apply loads_load_images | apply loads_ret]. }
  intros ref_parts. apply loads_bind_nil.
  { destruct edit_path as [[|c s]|]; try apply loads_ret.
    apply loads_bind_nil; [apply loads_load_image|].
    intros part. apply loads_ret. }
  intros edit_part. apply loads_ret.
Qed.

End LoadFacts.

(** ** The batch orchestrator *)

Section OrchestratorFacts.
Context {W : Type} `{Collaborators W}.

Lemma generate_image_no_credential (prompts : list string)
      (output_path : string) (style_path edit_path : option string)
      (ref_paths : option (list string)) (aspect_ratio model : string)
      (max_retries : Z) (st : State W) :
  environ_get (world st) "GEMINI_API_KEY" = None
  \/ environ_get (world st) "GEMINI_API_KEY" = Some EmptyString ->
  generate_image prompts output_path style_path edit_path ref_paths
                 aspect_ratio model max_retries st =
  (Ret (mkResult false API_KEY_MISSING (Some "GEMINI_API_KEY not set") []
                 (Z.of_nat (List.length prompts)) 0
                 (Z.of_nat (List.length prompts)) None),
   st).
Proof.
  intros Henv. unfold generate_image. unfold bind at 1.
  unfold os_environ_get. destruct Henv as [-> | ->]; reflexivity.
Qed.

(** With the credential: load the shared inputs, run the loop, aggregate. *)
Lemma generate_image_eq (prompts : list string) (output_path : string)
      (style_path edit_path : option string)
      (ref_paths : option (list string)) (aspect_ratio model : string)
      (max_retries : Z) (st : State W) (c : ascii) (key : string) :
  environ_get (world st) "GEMINI_API_KEY" = Some (String c key) ->
  generate_image prompts output_path style_path edit_path ref_paths
                 aspect_ratio model max_retries st =
  match load_shared style_path edit_path ref_paths st with
  | (Ret (style_text, ref_parts, edit_part), st1) =>
      match batch_loop (mkClient (String c key))
                       (Z.of_nat (List.length prompts))
                       (Path_of output_path) style_text edit_part ref_parts
                       aspect_ratio model 0 prompts [] 0 st1 with
      | (Ret (results, total_retries), st2) =>
          (Ret (aggregate prompts results total_retries), st2)
      | (Raise e, st2) => (Raise e, st2)
      | (Exit code, st2) => (Exit code, st2)
      end
  | (Raise e, st1) => (Raise e, st1)
  | (Exit code, st1) => (Exit code, st1)
  end.
Proof.
  intros Henv. unfold generate_image. unfold bind at 1.
  unfold os_environ_get. rewrite Henv. unfold load_shared.
  unfold bind at 1. unfold bind at 5.
  match goal with
  | |- context [match ?stage st with _ => _ end] =>
      destruct (stage st) as [[style_text|e|code] st1]
  end; try reflexivity.
  unfold bind at 1. unfold bind at 4.
  match goal with
  | |- context [match ?stage st1 with _ => _ end] =>
      destruct (stage st1) as [[ref_parts|e|code] st2]
  end; try reflexivity.
  unfold bind at 1. unfold bind at 3.
  match goal with
  | |- context [match ?stage st2 with _ => _ end] =>
      destruct (stage st2) as [[edit_part|e|code] st3]
  end; try reflexivity.
  unfold bind at 1. unfold ret at 2. cbv beta iota.
  destruct (batch_loop _ _ _ _ _ _ _ _ _ _ _ _ st3)
    as [[[results total]|e|code] st4]; reflexivity.
Qed.

Lemma enumerate_from_length (l : list string) (i : Z) :
  List.length (enumerate_from i l) = List.length l.
Proof.
  revert i. induction l as [|p l IH]; intros i; simpl; [reflexivity|].
  now rewrite IH.
Qed.

Lemma aggregate_counts (prompts : list string) (results : list ItemDict)
      (total : Z) :
  List.length results = List.length prompts ->
  let b := aggregate prompts results total in
  r_succeeded b + r_failed b = r_total b
  /\ r_total b = Z.of_nat (List.length prompts)
  /\ r_succeeded b = Z.of_nat (List.length (filter success results))
  /\ r_failed b =
     Z.of_nat (List.length (filter (fun r => negb (success r)) results))
  /\ (r_success b = true <-> r_failed b = 0)
  /\ (r_failed b = 0 -> r_error_code b = SUCCESS)
  /\ (r_failed b <> 0 -> r_error_code b = PARTIAL_FAILURE).
Proof.
  intros Hlen. unfold aggregate, count_success. cbn.
  pose proof (filter_length success results) as Hsplit.
  split; [lia|]. split; [lia|]. split; [lia|]. split; [lia|].
  split; [apply Z.eqb_eq|]. split.
  - intros ->. reflexivity.
  - intros Hne. apply Z.eqb_neq in Hne. now rewrite Hne.
Qed.

Lemma load_event_only_loading (evs : list event) :
  forallb load_event evs = true ->
  forallb only_loading evs = true
  /\ filter is_not_found_print evs = [].
Proof.
  induction evs as [|ev evs IH]; [now split|].
  cbn [forallb filter]. intros Hall.
  apply andb_true_iff in Hall as [Hev Hevs].
  destruct (IH Hevs) as [IH1 IH2]. rewrite IH1, IH2.
  destruct ev; try discriminate; simpl; try (now split).
  simpl in Hev. apply negb_true_iff in Hev. now rewrite Hev.
Qed.

End OrchestratorFacts.

(** ** Paths *)

Lemma append_nil_r (s : string) : s ++ EmptyString = s.
Proof. induction s as [|c s IH]; simpl; [reflexivity | now rewrite IH]. Qed.

Lemma append_assoc (a b c : string) : (a ++ b) ++ c = a ++ b ++ c.
Proof. induction a as [|x a IH]; simpl; [reflexivity | now rewrite IH]. Qed.

Lemma length_append (a b : string) :
  String.length (a ++ b) = (String.length a + String.length b)%nat.
Proof. induction a as [|x a IH]; simpl; [reflexivity | now rewrite IH]. Qed.

Lemma truthy_append_r (a b : string) :
  truthy b = true -> truthy (a ++ b) = true.
Proof. destruct a; simpl; [trivial | reflexivity]. Qed.

Lemma any_char_append (p : ascii -> bool) (a b : string) :
  any_char p (a ++ b) = any_char p a || any_char p b.
Proof.
  induction a as [|x a IH]; simpl; [reflexivity|].
  now rewrite IH, orb_assoc.
Qed.

Lemma take_drop (k : nat) (s : string) : take k s ++ drop k s = s.
Proof.
  revert s. induction k as [|k IH]; intros [|c s]; simpl; try reflexivity.
  now rewrite IH.
Qed.

Lemma any_char_take (p : ascii -> bool) (k : nat) (s : string) :
  any_char p s = false -> any_char p (take k s) = false.
Proof.
  intros Hs. rewrite <- (take_drop k s), any_char_append in Hs.
  now apply orb_false_iff in Hs.
Qed.

Lemma any_char_drop (p : ascii -> bool) (k : nat) (s : string) :
  any_char p s = false -> any_char p (drop k s) = false.
Proof.
  intros Hs. rewrite <- (take_drop k s), any_char_append in Hs.
  now apply orb_false_iff in Hs.
Qed.

(** The fields of a split hold no separator. *)
Lemma split_from_fields (sep : ascii) (s cur : string) :
  any_char (Ascii.eqb sep) cur = false ->
  Forall (fun x => any_char (Ascii.eqb sep) x = false) (split_from sep cur s).
Proof.
  revert cur. induction s as [|c s IH]; intros cur Hcur; simpl.
  - now constructor.
  - destruct (Ascii.eqb c sep) eqn:E.
    + constructor; [assumption | now apply IH].
    + apply IH. rewrite any_char_append, Hcur. simpl.
      rewrite Ascii.eqb_sym, E. reflexivity.
Qed.

(** A string without separator is its own only field. *)
Lemma split_from_whole (sep : ascii) (s cur : string) :
  any_char (Ascii.eqb sep) s = false ->
  split_from sep cur s = [cur ++ s].
Proof.
  revert cur. induction s as [|c s IH]; intros cur Hs; simpl.
  - now rewrite append_nil_r.
  - simpl in Hs. apply orb_false_iff in Hs as [Hc Hs].
    rewrite Ascii.eqb_sym, Hc, (IH _ Hs), append_assoc. reflexivity.
Qed.

Lemma Path_of_components (s : string) : Forall no_slash (tail (Path_of s)).
Proof.
  unfold Path_of. cbn [tail]. apply Forall_forall. intros x Hx.
  apply filter_In in Hx as [Hx _].
  pose proof (split_from_fields "/" (lstrip_slash s) EmptyString eq_refl)
    as Hall.
  rewrite Forall_forall in Hall. exact (Hall x Hx).
Qed.

(** The path of a single clean component. *)
Lemma Path_of_component (name : string) :
  no_slash name -> truthy name = true -> name <> "." ->
  Path_of name = mkPath EmptyString [name].
Proof.
  intros Hslash Hne Hdot. unfold Path_of.
  destruct name as [|c name]; [discriminate|].
  unfold no_slash in Hslash.
  assert (Hc : Ascii.eqb "/" c = false).
  { simpl in Hslash. now apply orb_false_iff in Hslash. }
  assert (Hpre : String.prefix "/" (String c name) = false).
  { destruct (String.prefix "/" (String c name)) eqn:E; [|reflexivity].
    apply prefix_app in E as [b Hb]. injection Hb as -> _.
    discriminate Hc. }
  rewrite Hpre.
  assert (Hstrip : lstrip_slash (String c name) = String c name).
  { simpl. destruct c as [[] [] [] [] [] [] [] []]; try reflexivity.
    discriminate Hc. }
  rewrite Hstrip. unfold split.
  rewrite (split_from_whole "/" (String c name) EmptyString Hslash).
  cbn [append filter truthy andb].
  destruct (String.eqb (String c name) ".") eqn:E.
  - apply String.eqb_eq in E. contradiction.
  - reflexivity.
Qed.

Lemma join_snoc (l : list string) (x : string) :
  join "/" (l ++ [x])
  = fold_right (fun c acc => c ++ "/" ++ acc) EmptyString l ++ x.
Proof.
  induction l as [|c l IH]; [reflexivity|].
  cbn [app fold_right]. rewrite !append_assoc, <- IH.
  destruct l; reflexivity.
Qed.

Lemma path_str_snoc (r : string) (l : list string) (x : string) :
  truthy x = true ->
  path_str (mkPath r (l ++ [x])) =
  dir_prefix (mkPath r (l ++ [x])) ++ x.
Proof.
  intros Hx. unfold path_str, dir_prefix. cbn [root tail].
  rewrite removelast_last, join_snoc, <- append_assoc.
  now rewrite truthy_append_r.
Qed.

Lemma path_name_tail (p : Path) :
  path_name p <> EmptyString ->
  tail p = (removelast (tail p) ++ [path_name p])%list.
Proof.
  unfold path_name. intros Hname. apply app_removelast_last.
  intros Hnil. rewrite Hnil in Hname. now apply Hname.
Qed.

Lemma stem_suffix (p : Path) : path_stem p ++ path_suffix p = path_name p.
Proof.
  unfold path_stem, path_suffix.
  destruct ((0 <? rfind "." (path_name p))
            && (rfind "." (path_name p) <? len (path_name p) - 1)).
  - apply take_drop.
  - apply append_nil_r.
Qed.

Lemma no_slash_stem (p : Path) :
  no_slash (path_name p) -> no_slash (path_stem p).
Proof.
  unfold path_stem, no_slash. intros Hn.
  destruct (_ && _); [now apply any_char_take | assumption].
Qed.

Lemma no_slash_suffix (p : Path) :
  no_slash (path_name p) -> no_slash (path_suffix p).
Proof.
  unfold path_suffix, no_slash. intros Hn.
  destruct (_ && _); [now apply any_char_drop | reflexivity].
Qed.

Lemma no_slash_zeros (k : nat) : no_slash (zeros k).
Proof. induction k as [|k IH]; [reflexivity | exact IH]. Qed.

Lemma digit_not_slash (d : Z) :
  0 <= d < 10 -> Ascii.eqb "/" (chr (48 + d)) = false.
Proof.
  intros Hd.
  assert (Hcases : d = 0 \/ d = 1 \/ d = 2 \/ d = 3 \/ d = 4 \/ d = 5
                   \/ d = 6 \/ d = 7 \/ d = 8 \/ d = 9) by lia.
  repeat (destruct Hcases as [-> | Hcases]; [reflexivity|]).
  now subst.
Qed.

Lemma no_slash_digits_fuel (fuel : nat) (k : Z) (acc : string) :
  no_slash acc -> no_slash (digits_fuel fuel k acc).
Proof.
  revert k acc. induction fuel as [|fuel IH]; intros k acc Hacc; simpl.
  - assumption.
  - assert (Hacc' : no_slash (String (chr (48 + k mod 10)) acc)).
    { unfold no_slash in *. cbn [any_char].
      rewrite Hacc, digit_not_slash; [reflexivity|].
      apply Z.mod_pos_bound. lia. }
    destruct (k <? 10); [assumption | now apply IH].
Qed.

Lemma no_slash_digits (k : Z) : no_slash (digits k).
Proof. apply no_slash_digits_fuel. reflexivity. Qed.

Lemma length_zeros (k : nat) : String.length (zeros k) = k.
Proof. induction k as [|k IH]; simpl; [reflexivity | now rewrite IH]. Qed.

(** The sequence number of a file name: the decimal digits, with zeros in
    front of them when there are fewer than three. *)
Lemma format_03d_nonneg (k : Z) :
  0 <= k ->
  format_03d k
  = zeros (3 - String.length (str_of_int k)) ++ str_of_int k
  /\ (3 <= String.length (format_03d k))%nat.
Proof.
  intros Hk. unfold format_03d, str_of_int.
  destruct (k <? 0) eqn:E; [apply Z.ltb_lt in E; lia|].
  rewrite Z.abs_eq by assumption. cbn [append String.length].
  rewrite Nat.sub_0_r. split; [reflexivity|].
  rewrite length_append, length_zeros. lia.
Qed.

Lemma no_slash_format_03d (k : Z) : no_slash (format_03d k).
Proof.
  unfold format_03d, no_slash. rewrite !any_char_append.
  rewrite (no_slash_zeros _), (no_slash_digits _).
  now destruct (k <? 0).
Qed.

(** With more than one prompt, the file of an item is named after the
    given path: same directory, and the sequence number between the stem
    and the suffix. *)
Lemma out_path_of_many (output_path : string) (n i : Z) :
  let base := Path_of output_path in
  1 < n -> path_name base <> EmptyString ->
  path_str base = dir_prefix base ++ path_stem base ++ path_suffix base
  /\ path_str (out_path_of n base i)
     = dir_prefix base ++ path_stem base ++ "_" ++ format_03d (i + 1)
       ++ path_suffix base.
Proof.
  intros base Hn Hname.
  pose proof (Path_of_components output_path) as Hcomp. fold base in Hcomp.
  pose proof (path_name_tail base Hname) as Htail.
  assert (Hslash : no_slash (path_name base)).
  { rewrite Forall_forall in Hcomp. apply Hcomp. rewrite Htail.
    apply in_or_app. right. now left. }
  assert (Htruthy : truthy (path_name base) = true).
  { destruct (path_name base); [now destruct Hname | reflexivity]. }
  split.
  - rewrite stem_suffix. destruct base as [r t]. cbn [tail] in Htail.
    rewrite Htail at 1. rewrite path_str_snoc by assumption.
    unfold dir_prefix. cbn [root tail]. now rewrite removelast_last.
  - set (name := path_stem base ++ "_" ++ format_03d (i + 1)
                 ++ path_suffix base).
    assert (Hunder : any_char (Ascii.eqb "_") name = true).
    { unfold name. rewrite !any_char_append. simpl.
      now rewrite orb_true_r. }
    assert (Hname_slash : no_slash name).
    { unfold name, no_slash. rewrite !any_char_append.
      rewrite (no_slash_stem base Hslash), (no_slash_suffix base Hslash).
      now rewrite (no_slash_format_03d (i + 1)). }
    assert (Hname_truthy : truthy name = true).
    { destruct name; [discriminate | reflexivity]. }
    assert (Hname_dot : name <> ".").
    { intros Heq. rewrite Heq in Hunder. discriminate. }
    unfold out_path_of. apply Z.ltb_lt in Hn. rewrite Hn. fold name.
    unfold path_div. rewrite (Path_of_component name) by assumption.
    cbn [root truthy tail path_parent].
    rewrite path_str_snoc by assumption.
    unfold dir_prefix. cbn [root tail]. now rewrite removelast_last.
Qed.

Lemma out_path_of_single (base : Path) (n i : Z) :
  n <= 1 -> out_path_of n base i = base.
Proof.
  intros Hn. unfold out_path_of.
  destruct (1 <? n) eqn:E; [apply Z.ltb_lt in E; lia | reflexivity].
Qed.

(** ** Facts about the scripted world *)

Lemma sim_readable (w : SimWorld) : readable w.
Proof.
  intros p Hex. simpl in *. unfold sim_read.
  destruct (assoc (sim_files w) (path_str p)) as [content|];
    [split; now exists content | discriminate].
Qed.

Lemma sim_has_credential script default :
  has_credential (sim_world script default).
Proof. now exists "s"%char, "ecret". Qed.

(** What can be told about a failed item from its dictionary: the kind
    and the message are always there; the prompt is the original one for
    invalid input, the sanitized one when the response had no image, and
    missing when the retry executor built the failure. *)
Lemma item_shape_failure (n : Z) (base : Path) (i : Z) (p : string)
      (r : ItemDict) :
  item_shape n base i p r -> success r = false ->
  (exists msg, error r = Some msg)
  /\ error_code r <> SUCCESS
  /\ (prompt r = Some p
      \/ (exists safe, sanitize_prompt p = inr safe /\ prompt r = Some safe)
      \/ prompt r = None).
Proof.
  unfold item_shape. intros Hshape Hfail.
  destruct (sanitize_prompt p) as [e|safe].
  - subst r. simpl. split; [eauto|]. split; [discriminate | now left].
  - destruct Hshape as [[k ->] | [[k ->] | [msg [code [k [-> Hcode]]]]]].
    + discriminate.
    + simpl. split; [eauto|]. split; [discriminate|].
      right; left. now exists safe.
    + simpl. split; [eauto|]. split; [|now right; right].
      unfold executor_kinds in Hcode. simpl in Hcode.
      intuition (subst; discriminate).
Qed.

(** The dictionaries of a returned batch, position by position. *)
Lemma generate_image_items {W : Type} `{Collaborators W}
      (prompts : list string) (output_path : string)
      (style_path edit_path : option string)
      (ref_paths : option (list string)) (aspect_ratio model : string)
      (max_retries : Z) (st : State W) (b : ResultDict) :
  has_credential (world st) ->
  fst (generate_image prompts output_path style_path edit_path ref_paths
         aspect_ratio model max_retries st) = Ret b ->
  Forall2
    (fun ip r =>
       item_shape (Z.of_nat (List.length prompts)) (Path_of output_path)
                  (fst ip) (snd ip) r)
    (enumerate_from 0 prompts) (r_results b).
Proof.
  intros [c [key Henv]] Hb.
  rewrite (generate_image_eq _ _ _ _ _ _ _ _ _ _ _ Henv) in Hb.
  destruct (load_shared style_path edit_path ref_paths st)
    as [[[[style_text ref_parts] edit_part]|e|code] st1];
    try discriminate.
  destruct (batch_loop_outcome (mkClient (String c key))
              (Z.of_nat (List.length prompts)) (Path_of output_path)
              style_text edit_part ref_parts aspect_ratio model prompts
              0 [] 0 st1)
    as [new [total [st' [Hloop Hall]]]].
  rewrite Hloop in Hb. cbn [app fst] in Hb. injection Hb as <-.
  exact Hall.
Qed.

Lemma Forall2_enumerate_nth {R : Z * string -> ItemDict -> Prop}
      (l : list string) :
  forall (i : Z) (rs : list ItemDict),
    Forall2 R (enumerate_from i l) rs ->
    forall (k : nat) (r : ItemDict),
      nth_error rs k = Some r ->
      exists p, nth_error l k = Some p /\ R (i + Z.of_nat k, p) r.
Proof.
  induction l as [|p l IH]; intros i rs Hall k r Hk.
  - inversion Hall; subst. now destruct k.
  - inversion Hall as [|ip r0 ips rs0 Hhead Htail]; subst.
    destruct k as [|k]; simpl in Hk.
    + injection Hk as <-. exists p. rewrite Z.add_0_r. now split.
    + destruct (IH (i + 1) rs0 Htail k r Hk) as [q [Hq HR]].
      exists q. split; [assumption|].
      now replace (i + Z.of_nat (S k)) with (i + 1 + Z.of_nat k) by lia.
Qed.

Lemma item_shape_output (n : Z) (base : Path) (i : Z) (p : string)
      (r : ItemDict) :
  item_shape n base i p r -> success r = true ->
  output r = Some (path_str (out_path_of n base i)).
Proof.
  unfold item_shape. intros Hshape Hok.
  destruct (sanitize_prompt p) as [e|safe].
  - now subst r.
  - destruct Hshape as [[k ->] | [[k ->] | [msg [code [k [-> _]]]]]];
      [reflexivity | discriminate | discriminate].
Qed.

(** ** Decimal numerals *)

Lemma decimal_value_append (v : Z) (a b : string) :
  decimal_value v (a ++ b) = decimal_value (decimal_value v a) b.
Proof.
  revert v. induction a as [|c a IH]; intros v; simpl; [reflexivity|].
  apply IH.
Qed.

Lemma ord_chr_digit (d : Z) : 0 <= d < 10 -> ord (chr (48 + d)) = 48 + d.
Proof.
  intros Hd.
  assert (Hcases : d = 0 \/ d = 1 \/ d = 2 \/ d = 3 \/ d = 4 \/ d = 5
                   \/ d = 6 \/ d = 7 \/ d = 8 \/ d = 9) by lia.
  repeat (destruct Hcases as [-> | Hcases]; [reflexivity|]).
  now subst.
Qed.

(** The fuel of [digits] is enough: what it puts in front of the
    accumulator is the decimal numeral of the number. *)
Lemma digits_fuel_value (fuel : nat) :
  forall (k : Z) (acc : string),
    0 <= k < 2 ^ Z.of_nat (S fuel) ->
    exists pre,
      digits_fuel (S fuel) k acc = pre ++ acc
      /\ forall v, decimal_value v pre
                   = v * 10 ^ Z.of_nat (String.length pre) + k.
Proof.
  induction fuel as [|fuel IH]; intros k acc Hk; cbn [digits_fuel].
  - change (2 ^ Z.of_nat 1) with 2 in Hk.
    destruct (k <? 10) eqn:E; [|apply Z.ltb_ge in E; lia].
    exists (String (chr (48 + k mod 10)) EmptyString).
    split; [reflexivity|]. intros v. cbn [decimal_value String.length].
    rewrite Z.mod_small by lia. rewrite ord_chr_digit by lia.
    change (Z.of_nat 1) with 1. lia.
  - destruct (k <? 10) eqn:E.
    + apply Z.ltb_lt in E.
      exists (String (chr (48 + k mod 10)) EmptyString).
      split; [reflexivity|]. intros v. cbn [decimal_value String.length].
      rewrite Z.mod_small by lia. rewrite ord_chr_digit by lia.
      change (Z.of_nat 1) with 1. lia.
    + apply Z.ltb_ge in E.
      assert (Hdiv : 0 <= k / 10 < 2 ^ Z.of_nat (S fuel)).
      { split; [apply Z.div_pos; lia|].
        apply Z.div_lt_upper_bound; [lia|].
        rewrite (Nat2Z.inj_succ (S fuel)), Z.pow_succ_r in Hk by lia. lia. }
      destruct (IH (k / 10) (String (chr (48 + k mod 10)) acc) Hdiv)
        as [pre [Hpre Hval]].
      exists (pre ++ String (chr (48 + k mod 10)) EmptyString).
      split.
      * change (digits_fuel (S fuel) (k / 10)
                            (String (chr (48 + k mod 10)) acc)
                = (pre ++ String (chr (48 + k mod 10)) EmptyString) ++ acc).
        rewrite Hpre, append_assoc. reflexivity.
      * intros v. rewrite decimal_value_append, Hval.
        cbn [decimal_value]. rewrite length_append. cbn [String.length].
        rewrite ord_chr_digit by (apply Z.mod_pos_bound; lia).
        rewrite Nat.add_1_r, Nat2Z.inj_succ, Z.pow_succ_r by lia.
        pose proof (Z.div_mod k 10 ltac:(lia)) as Hdm. nia.
Qed.

(** [digits] writes a number in decimal. *)
Lemma digits_value (k : Z) : 0 <= k -> decimal_value 0 (digits k) = k.
Proof.
  intros Hk. unfold digits.
  destruct (digits_fuel_value (Z.to_nat (Z.log2 k)) k EmptyString)
    as [pre [Hpre Hval]].
  - split; [assumption|].
    rewrite Nat2Z.inj_succ, Z2Nat.id by apply Z.log2_nonneg.
    destruct (Z.eq_dec k 0) as [->|Hne]; [reflexivity|].
    apply Z.log2_spec. lia.
  - rewrite Hpre, append_nil_r, Hval. lia.
Qed.

(** ** The code on concrete inputs *)

Example paths_are_normalised :
  map (fun s => path_str (Path_of s))
      ["out.png"; "./out.png"; "a//b.png"; "dir/"; "///x"; "//x/y"; ".."]
  = ["out.png"; "out.png"; "a/b.png"; "dir"; "/x"; "//x/y"; ".."]
  /\ path_str (Path_of EmptyString) = ".".
Proof. split; reflexivity. Qed.

Example stems_and_suffixes :
  map (fun s => (path_stem (Path_of s), path_suffix (Path_of s)))
      ["out.png"; "a/y.tar.gz"; ".hidden"; "name."; "out"]
  = [("out", ".png"); ("y.tar", ".gz"); (".hidden", EmptyString);
     ("name.", EmptyString); ("out", EmptyString)].
Proof. reflexivity. Qed.

Example sequence_numbers :
  map format_03d [1; 2; 42; 999; 1000] = ["001"; "002"; "042"; "999"; "1000"].
Proof. reflexivity. Qed.

Example numbered_paths :
  map (fun i => path_str (out_path_of 3 (Path_of "out/img.png") i)) [0; 1; 2]
  = ["out/img_001.png"; "out/img_002.png"; "out/img_003.png"].
Proof. reflexivity. Qed.

Example sanitize_examples :
  sanitize_prompt "a cat" = inr "a cat"
  /\ sanitize_prompt "a cat; a dog" = inr "'a cat; a dog'"
  /\ sanitize_prompt EmptyString
     = inl (Exc ValueError "Prompt cannot be empty")
  /\ sanitize_prompt (String newline " ")
     = inl (Exc ValueError "Prompt cannot be empty").
Proof. repeat split. Qed.

Example style_warnings :
  validate_style_content "plain glass style" = (true, [])
  /\ validate_style_content "x ```  BaSh y ${a}b} $(ls) <SCRIPT> javascript:"
     = (false,
        ["Suspicious pattern: ```  BaSh..."; "Suspicious pattern: ${a}b}...";
         "Suspicious pattern: $(ls)..."; "Suspicious pattern: `...";
         "Suspicious pattern: <SCRIPT...";
         "Suspicious pattern: javascript:..."]).
Proof. split; reflexivity. Qed.

Example retryable_examples :
  map is_retryable_error
      ["HTTP 429 Too Many Requests"; "Rate Limit exceeded";
       "Connection reset by peer"; "400 Bad Request"; "quota exceeded"]
  = [true; true; true; false; false].
Proof. reflexivity. Qed.

Example backoff_delays :
  map (fun a => calculate_backoff a 1 60) [0; 1; 2; 5; 6; 7]
  = [inr 1%Q; inr 2%Q; inr 4%Q; inr 32%Q; inr 60%Q; inr 60%Q].
Proof. reflexivity. Qed.

(** A batch with a blank prompt and a valid one whose remote call
    succeeds. *)
Example batch_with_blank_prompt :
  fst (generate_image [EmptyString; "valid prompt"] "out.png" None None None
         "1:1" DEFAULT_MODEL 3 (start (sim_world [] image_reply)))
  = Ret (mkResult false PARTIAL_FAILURE None
           [ mkItem (Some EmptyString) None (Some "Prompt cannot be empty")
                    false INVALID_INPUT None;
             mkItem (Some "valid prompt") (Some "out_002.png") None true
                    SUCCESS (Some 0) ]
           2 1 1 (Some 0)).
Proof. vm_compute. reflexivity. Qed.

(** A batch of three prompts that all succeed, the second after one
    retry. *)
Example batch_of_three :
  fst (generate_image ["cube"; "sphere"; "pyramid"] "out/img.png" None None
         None "1:1" DEFAULT_MODEL 3
         (start (sim_world [image_reply; error_reply "503 Service Unavailable"]
                           image_reply)))
  = Ret (mkResult true SUCCESS None
           [ mkItem (Some "cube") (Some "out/img_001.png") None true SUCCESS
                    (Some 0);
             mkItem (Some "sphere") (Some "out/img_002.png") None true
                    SUCCESS (Some 1);
             mkItem (Some "pyramid") (Some "out/img_003.png") None true
                    SUCCESS (Some 0) ]
           3 3 0 (Some 1)).
Proof. vm_compute. reflexivity. Qed.

(** The retry executor at its default budget, around an operation that
    keeps failing: four invocations, three waits of 1, 2 and 4 seconds. *)
Example exhausted_after_three_retries :
  retry_with_backoff unavailable 3 (start (sim_world [] image_reply))
  = (Ret (mkItem None None
                 (Some "Failed after 3 retries: 503 Service Unavailable")
                 false NETWORK_ERROR (Some 3)),
     mkState (sim_world [] image_reply)
       [ EvCall; EvPrint "Retry 1/3 after 1.0s: 503 Service Unavailable";
         EvSleep 1;
         EvCall; EvPrint "Retry 2/3 after 2.0s: 503 Service Unavailable";
         EvSleep 2;
         EvCall; EvPrint "Retry 3/3 after 4.0s: 503 Service Unavailable";
         EvSleep 4;
         EvCall ]).
Proof. vm_compute. reflexivity. Qed.

(** A response without image for a prompt that had to be quoted: the
    dictionary keeps the quoted prompt. *)
Example no_image_records_sanitized_prompt :
  fst (generate_image ["a cat; a dog"] "out.png" None None None "1:1"
         DEFAULT_MODEL 3 (start (sim_world [] no_image_reply)))
  = Ret (mkResult false PARTIAL_FAILURE None
           [mkItem (Some "'a cat; a dog'") None (Some "No image in response")
                   false API_ERROR (Some 0)]
           1 0 1 (Some 0)).
Proof. vm_compute. reflexivity. Qed.

(** The [max_retries] argument of [generate_image] is not handed to the
    retry executor, which is applied with its default budget. *)
Lemma generate_image_ignores_max_retries {W : Type} `{Collaborators W}
      (prompts : list string) (output_path : string)
      (style_path edit_path : option string)
      (ref_paths : option (list string)) (aspect_ratio model : string)
      (m1 m2 : Z) :
  generate_image prompts output_path style_path edit_path ref_paths
                 aspect_ratio model m1
  = generate_image prompts output_path style_path edit_path ref_paths
                   aspect_ratio model m2.
Proof. reflexivity. Qed.

(* ====================================================================== *)
(** * The claims                                                           *)
(* ====================================================================== *)

(** C1.  For every invocation of [generate_image] in which the credential
    is present: if the shared inputs are there and can be read, a
    [ResultDict] is returned; and whenever one is returned,
    [succeeded + failed = total = len(prompts)], [results] holds exactly
    one dictionary per prompt, in the order of the prompts and of the
    shape the prompt at that position allows, [succeeded] and [failed]
    count the items with and without [success], the overall [success] is
    true exactly when [failed = 0], and the error code is [SUCCESS] when
    [failed = 0] and [PARTIAL_FAILURE] otherwise. *)
Theorem batch_outcome_invariant {W : Type} `{Collaborators W}
        (prompts : list string) (output_path : string)
        (style_path edit_path : option string)
        (ref_paths : option (list string)) (aspect_ratio model : string)
        (max_retries : Z) (st : State W) :
  has_credential (world st) ->
  let run := generate_image prompts output_path style_path edit_path
               ref_paths aspect_ratio model max_retries st in
  (readable (world st) ->
   Forall (present (world st)) (shared_paths style_path edit_path ref_paths)
   -> exists b, fst run = Ret b)
  /\ forall b, fst run = Ret b ->
       r_succeeded b + r_failed b = r_total b
       /\ r_total b = Z.of_nat (List.length prompts)
       /\ List.length (r_results b) = List.length prompts
       /\ Forall2
            (fun ip r =>
               item_shape (Z.of_nat (List.length prompts))
                          (Path_of output_path) (fst ip) (snd ip) r)
            (enumerate_from 0 prompts) (r_results b)
       /\ r_succeeded b
          = Z.of_nat (List.length (filter success (r_results b)))
       /\ r_failed b
          = Z.of_nat (List.length
                        (filter (fun r => negb (success r)) (r_results b)))
       /\ (r_success b = true <-> r_failed b = 0)
       /\ (r_failed b = 0 -> r_error_code b = SUCCESS)
       /\ (r_failed b <> 0 -> r_error_code b = PARTIAL_FAILURE).
Proof.
  intros [c [key Henv]] run. subst run.
  rewrite (generate_image_eq _ _ _ _ _ _ _ _ _ _ _ Henv).
  split.
  - intros Hread Hall.
    destruct (loads_load_shared style_path edit_path ref_paths st Hread)
      as [[_ [[[style_text ref_parts] edit_part] [evs [-> _]]]]
         | [evs [p [line [Hin [Habs _]]]]]].
    + destruct (batch_loop_outcome (mkClient (String c key))
                  (Z.of_nat (List.length prompts)) (Path_of output_path)
                  style_text edit_part ref_parts aspect_ratio model prompts
                  0 [] 0 (emits st evs))
        as [new [total [st' [-> _]]]].
      eexists. reflexivity.
    + rewrite Forall_forall in Hall. specialize (Hall p Hin).
      unfold present in Hall. congruence.
  - intros b Hb.
    destruct (load_shared style_path edit_path ref_paths st)
      as [[[[style_text ref_parts] edit_part]|e|code] st1];
      try discriminate.
    destruct (batch_loop_outcome (mkClient (String c key))
                (Z.of_nat (List.length prompts)) (Path_of output_path)
                style_text edit_part ref_parts aspect_ratio model prompts
                0 [] 0 st1)
      as [new [total [st' [Hloop Hall]]]].
    rewrite Hloop in Hb. cbn [app fst] in Hb. injection Hb as <-.
    assert (Hlen : List.length new = List.length prompts).
    { rewrite <- (Forall2_length Hall). apply enumerate_from_length. }
    destruct (aggregate_counts prompts new total Hlen)
      as [H1 [H2 [H3 [H4 [H5 [H6 H7]]]]]].
    repeat (split; [assumption|]). assumption.
Qed.

Lemma batch_outcome_invariant_witness :
  let st := start (sim_world [image_reply] (error_reply "400 Bad Request")) in
  has_credential (world st)
  /\ exists b,
       fst (generate_image ["a cat"; "  "; "a dog"] "out.png" None None None
              "1:1" DEFAULT_MODEL 3 st) = Ret b
       /\ r_succeeded b + r_failed b = r_total b
       /\ r_total b = 3.
Proof.
  intros st.
  assert (Hcred : has_credential (world st))
    by apply sim_has_credential.
  split; [exact Hcred|].
  destruct (batch_outcome_invariant ["a cat"; "  "; "a dog"] "out.png"
              None None None "1:1" DEFAULT_MODEL 3 st Hcred)
    as [Hreturns Hinv].
  destruct (Hreturns (sim_readable _) (Forall_nil _)) as [b Hb].
  exists b. split; [exact Hb|].
  destruct (Hinv b Hb) as [H1 [H2 _]]. split; [exact H1 | exact H2].
Defined.

(** C2, at the budget 1025.  The operation raises the retryable error
    "503 Service Unavailable" at every attempt.  The claim asks for 1026
    invocations and a returned failure with [retries_used = 1025]; the
    retry executor invokes the operation 1025 times and then raises
    [OverflowError], because the delay before the next attempt is
    [calculate_backoff(1024)].  For every budget from 0 to 1024 the claim
    holds: see [retry_exhausted_in_range] and [exhausted_item_kind]. *)
Theorem retry_budget_1025_overflows :
  exists st',
    retry_with_backoff unavailable 1025
      (start (sim_world [] image_reply)) =
    (Raise (Exc OverflowError "int too large to convert to float"), st')
    /\ calls (log st') = 1025.
Proof.
  destruct (retry_overflows_beyond_range unavailable 1025
              (start (sim_world [] image_reply))
              unavailable_always_retryable unavailable_quiet)
    as [st' [Hrun Hcalls]]; [lia|].
  exists st'. split; [exact Hrun | exact Hcalls].
Qed.

(** C3.  An error is classified retryable exactly when its lowercase text
    contains one of "rate limit", "429", "503", "502", "connection",
    "timeout", "temporarily unavailable".  When the first invocation of
    the operation raises an error that contains none of them, the retry
    executor returns, whatever the budget (0 or more), the failure with
    code [API_ERROR], that error as message and [retries_used = 0], in the
    state the first invocation left: the operation has been invoked
    once. *)
Theorem non_retryable_fails_at_once {W : Type} `{Collaborators W} :
  (forall msg,
      is_retryable_error msg = true <->
      exists entry,
        In entry [ "rate limit"; "429"; "503"; "502"; "connection";
                   "timeout"; "temporarily unavailable" ]
        /\ exists a b, lower msg = a ++ entry ++ b)
  /\ forall (func : M W ItemDict) (max_retries : Z) (st st' : State W)
            (e : exception),
       0 <= max_retries ->
       func (called st) = (Raise e, st') ->
       (forall entry,
           In entry [ "rate limit"; "429"; "503"; "502"; "connection";
                      "timeout"; "temporarily unavailable" ] ->
           ~ exists a b, lower (str_exc e) = a ++ entry ++ b) ->
       retry_with_backoff func max_retries st =
       (Ret (mkItem None None (Some (str_exc e)) false API_ERROR (Some 0)),
        st')
       /\ (quiet func -> calls (log st') = calls (log st) + 1).
Proof.
  split; [apply is_retryable_error_spec|].
  intros func max_retries st st' e Hmax Hf Hnone.
  assert (He : is_retryable_error (str_exc e) = false).
  { destruct (is_retryable_error (str_exc e)) eqn:E; [|reflexivity].
    apply is_retryable_error_spec in E as [entry [Hin Hex]].
    now destruct (Hnone entry Hin). }
  split.
  - unfold retry_with_backoff.
    replace (Z.to_nat (max_retries + 1)) with (S (Z.to_nat max_retries))
      by lia.
    now rewrite (retry_loop_not_retryable func max_retries _ 0 0 None
                   st st' e Hf He).
  - intros Hquiet.
    now rewrite (quiet_calls func (called st) st' _ Hquiet Hf), calls_called.
Qed.

Lemma non_retryable_fails_at_once_witness :
  let st := start (sim_world [] image_reply) in
  let func : M SimWorld ItemDict :=
    raise (Exc OtherException "400 Bad Request") in
  0 <= 3
  /\ func (called st) = (Raise (Exc OtherException "400 Bad Request"),
                         called st)
  /\ retry_with_backoff func 3 st =
     (Ret (mkItem None None (Some "400 Bad Request") false API_ERROR
                  (Some 0)),
      called st).
Proof.
  intros st func.
  split; [lia|]. split; [reflexivity|].
  refine (proj1 (proj2 non_retryable_fails_at_once func 3 st (called st)
                   (Exc OtherException "400 Bad Request") _ eq_refl _)).
  - lia.
  - intros entry Hin Hex. apply contains_spec in Hex.
    simpl in Hin.
    repeat (destruct Hin as [<- | Hin]; [discriminate Hex|]).
    exact Hin.
Defined.

(** C4.  If the credential variable is absent when the batch starts,
    [generate_image] returns the failure with code [API_KEY_MISSING], an
    empty [results], [total] the number of prompts, [succeeded = 0] and
    [failed = total], and the world and the log of effects are what they
    were: no item is attempted, the service is not called, no file is
    looked up, read or written. *)
Theorem missing_credential {W : Type} `{Collaborators W}
        (prompts : list string) (output_path : string)
        (style_path edit_path : option string)
        (ref_paths : option (list string)) (aspect_ratio model : string)
        (max_retries : Z) (st : State W) :
  environ_get (world st) "GEMINI_API_KEY" = None ->
  exists b,
    generate_image prompts output_path style_path edit_path ref_paths
                   aspect_ratio model max_retries st = (Ret b, st)
    /\ r_success b = false
    /\ r_error_code b = API_KEY_MISSING
    /\ r_results b = []
    /\ r_total b = Z.of_nat (List.length prompts)
    /\ r_succeeded b = 0
    /\ r_failed b = r_total b.
Proof.
  intros Henv. eexists. split.
  - apply generate_image_no_credential. now left.
  - repeat split.
Qed.

Lemma missing_credential_witness :
  let st := start (mkSim [] [] [] image_reply) in
  environ_get (world st) "GEMINI_API_KEY" = None
  /\ exists b,
       generate_image ["a cat"; "a dog"] "out.png" (Some "style.md") None
                      (Some ["ref.png"]) "1:1" DEFAULT_MODEL 3 st
       = (Ret b, st)
       /\ r_error_code b = API_KEY_MISSING /\ r_total b = 2.
Proof.
  intros st.
  assert (Henv : environ_get (world st) "GEMINI_API_KEY" = None)
    by reflexivity.
  split; [exact Henv|].
  destruct (missing_credential ["a cat"; "a dog"] "out.png"
              (Some "style.md") None (Some ["ref.png"]) "1:1"
              DEFAULT_MODEL 3 st Henv)
    as [b [Hrun [_ [Hcode [_ [Htotal _]]]]]].
  exists b. split; [exact Hrun|]. split; [exact Hcode | exact Htotal].
Defined.

(** C5, at a batch of one prompt whose remote call is refused, and at one
    whose remote call keeps failing.  The claim asks that the original
    prompt of a failed item can be recovered from what is returned; the
    dictionary of each of these failed items has its kind and its message
    but no [prompt] key. *)
Theorem failed_item_without_prompt :
  fst (generate_image ["a cat"] "out.png" None None None "1:1"
         DEFAULT_MODEL 3
         (start (sim_world [] (error_reply "400 Bad Request"))))
  = Ret (mkResult false PARTIAL_FAILURE None
           [mkItem None None (Some "400 Bad Request") false API_ERROR
                   (Some 0)]
           1 0 1 (Some 0))
  /\ fst (generate_image ["a cat"] "out.png" None None None "1:1"
            DEFAULT_MODEL 3
            (start (sim_world [] (error_reply "503 Service Unavailable"))))
     = Ret (mkResult false PARTIAL_FAILURE None
              [mkItem None None
                      (Some "Failed after 3 retries: 503 Service Unavailable")
                      false NETWORK_ERROR (Some 3)]
              1 0 1 (Some 3)).
Proof. split; vm_compute; reflexivity. Qed.



(** C7 as stated fails.  With the credential set and the style file
    absent, [generate_image] does not return: the process exits with
    status 1, and no result with code [FILE_NOT_FOUND] exists.  Without
    the credential the same call returns [API_KEY_MISSING] and does not
    look at the file at all. *)
Lemma missing_style_file_exits_without_kind :
  let w := sim_world [] image_reply in
  let run := generate_image ["a cat"] "out.png" (Some "style.md") None None
               "1:1" DEFAULT_MODEL 3 (start w) in
  let w0 := mkSim [] [] [] image_reply in
  let run0 := generate_image ["a cat"] "out.png" (Some "style.md") None None
                "1:1" DEFAULT_MODEL 3 (start w0) in
  path_exists w (Path_of "style.md") = false
  /\ fst run = Exit 1
  /\ ~ (exists b, fst run = Ret b /\ r_error_code b = FILE_NOT_FOUND)
  /\ path_exists w0 (Path_of "style.md") = false
  /\ (exists b, run0 = (Ret b, start w0)
                /\ r_error_code b = API_KEY_MISSING).
Proof.
  cbv zeta. split; [reflexivity|]. split; [reflexivity|]. split.
  - intros [b [Hb _]]. discriminate Hb.
  - split; [reflexivity|]. eexists. split; reflexivity.
Qed.

(** Loading in order.  What [load_shared] does is decided by the first
    given input that is absent and by the inputs before it. *)
Section LoadOrderFacts.
Context {W : Type} `{Collaborators W}.

Lemma loads_in_order_ret {A} (a : A) : loads_in_order [] (@ret W A a).
Proof.
  intros st. split.
  - intros _. exists a, []. now rewrite emits_nil.
  - intros before x after Hsplit. now destruct before.
Qed.

Lemma single_split {A} (y x : A) (before after : list A) :
  [y] = (before ++ x :: after)%list -> before = [] /\ x = y /\ after = [].
Proof.
  destruct before as [|z before]; simpl.
  - intros [= -> <-]. now repeat split.
  - intros [= _ Hrest]. now destruct before.
Qed.

Lemma loads_in_order_load_style (p : string) :
  loads_in_order [(StyleFile, p)] (load_style p).
Proof.
  intros st. rewrite load_style_eq. cbv zeta. split.
  - intros Hall. inversion Hall as [|x l Hx _]; subst.
    destruct Hx as [Hex Hread]. cbn [fst snd] in Hex, Hread.
    destruct Hread as [content Hread]. rewrite Hex, Hread.
    eexists; eexists. split; [reflexivity|].
    cbn [app forallb load_event andb]. apply warning_events_load.
  - intros before x after Hsplit _ Habsent.
    apply single_split in Hsplit. destruct Hsplit as [-> [-> ->]].
    cbn [fst snd] in Habsent. rewrite Habsent.
    exists []. split; reflexivity.
Qed.

Lemma loads_in_order_load_image (p : string) :
  loads_in_order [(ImageFile, p)] (load_image p).
Proof.
  intros st. rewrite load_image_eq. cbv zeta. split.
  - intros Hall. inversion Hall as [|x l Hx _]; subst.
    destruct Hx as [Hex Hread]. cbn [fst snd] in Hex, Hread.
    destruct Hread as [data Hread]. rewrite Hex, Hread.
    eexists; eexists. split; reflexivity.
  - intros before x after Hsplit _ Habsent.
    apply single_split in Hsplit. destruct Hsplit as [-> [-> ->]].
    cbn [fst snd] in Habsent. rewrite Habsent.
    exists []. split; reflexivity.
Qed.

Lemma loads_in_order_bind {A B} (l1 l2 : list (input_kind * string))
      (c : M W A) (k : A -> M W B) :
  loads_in_order l1 c -> (forall a, loads_in_order l2 (k a)) ->
  loads_in_order (l1 ++ l2) (bind c k).
Proof.
  intros Hc Hk st. destruct (Hc st) as [Hc_all Hc_absent].
  assert (Hthen :
            Forall (can_load (world st)) l1 ->
            exists a evs1,
              forallb load_event evs1 = true
              /\ bind c k st = k a (emits st evs1)).
  { intros Hall1. destruct (Hc_all Hall1) as [a [evs1 [Hrun Hev1]]].
    exists a, evs1. split; [exact Hev1|]. unfold bind. now rewrite Hrun. }
  split.
  - intros Hall. apply Forall_app in Hall. destruct Hall as [Hall1 Hall2].
    destruct (Hthen Hall1) as [a [evs1 [Hev1 ->]]].
    destruct (proj1 (Hk a (emits st evs1)) Hall2) as [b [evs2 [-> Hev2]]].
    exists b, (evs1 ++ evs2)%list. rewrite emits_emits, forallb_app.
    split; [reflexivity|]. now rewrite Hev1, Hev2.
  - intros before x after Hsplit Hbefore Habsent.
    apply app_eq_app in Hsplit.
    destruct Hsplit as [l [[-> Hrest] | [-> ->]]].
    + destruct l as [|y l].
      * cbn [app] in Hrest. rewrite app_nil_r in Hthen.
        destruct (Hthen Hbefore) as [a [evs1 [Hev1 ->]]].
        destruct (proj2 (Hk a (emits st evs1)) [] x after
                        (eq_sym Hrest) (Forall_nil _) Habsent)
          as [evs2 [Hev2 ->]].
        exists (evs1 ++ evs2)%list. rewrite emits_emits, forallb_app.
        split; [now rewrite Hev1, Hev2 | now rewrite app_assoc].
      * cbn [app] in Hrest. injection Hrest as -> ->.
        destruct (Hc_absent before y l eq_refl Hbefore Habsent)
          as [evs [Hev Hrun]].
        exists evs. split; [exact Hev|]. unfold bind. now rewrite Hrun.
    + apply Forall_app in Hbefore. destruct Hbefore as [Hall1 Hl].
      destruct (Hthen Hall1) as [a [evs1 [Hev1 ->]]].
      destruct (proj2 (Hk a (emits st evs1)) l x after eq_refl Hl Habsent)
        as [evs2 [Hev2 ->]].
      exists (evs1 ++ evs2)%list. rewrite emits_emits, forallb_app.
      split; [now rewrite Hev1, Hev2 | now rewrite app_assoc].
Qed.

Lemma loads_in_order_bind_nil {A B} (l : list (input_kind * string))
      (c : M W A) (k : A -> M W B) :
  loads_in_order l c -> (forall a, loads_in_order [] (k a)) ->
  loads_in_order l (bind c k).
Proof.
  intros Hc Hk. rewrite <- (app_nil_r l). now apply loads_in_order_bind.
Qed.

Lemma loads_in_order_load_images (ps : list string) :
  loads_in_order (map (pair ImageFile) ps) (load_images ps).
Proof.
  induction ps as [|p ps IH]; [apply loads_in_order_ret|].
  cbn [load_images map].
  change ((ImageFile, p) :: map (pair ImageFile) ps)
    with ([(ImageFile, p)] ++ map (pair ImageFile) ps)%list.
  apply loads_in_order_bind; [apply loads_in_order_load_image|].
  intros part. apply loads_in_order_bind_nil; [exact IH|].
  intros parts. apply loads_in_order_ret.
Qed.

Lemma loads_in_order_load_shared (style_path edit_path : option string)
      (ref_paths : option (list string)) :
  loads_in_order (shared_inputs style_path edit_path ref_paths)
                 (load_shared style_path edit_path ref_paths).
Proof.
  unfold shared_inputs, load_shared.
  apply loads_in_order_bind.
  { destruct style_path as [[|c s]|];
      [apply loads_in_order_ret | apply loads_in_order_load_style
       | apply loads_in_order_ret]. }
  intros style_text. apply loads_in_order_bind.
  { destruct ref_paths as [ps|];
      [apply loads_in_order_load_images | apply loads_in_order_ret]. }
  intros ref_parts. apply loads_in_order_bind_nil.
  { destruct edit_path as [[|c s]|]; try apply loads_in_order_ret.
    apply loads_in_order_bind_nil; [apply loads_in_order_load_image|].
    intros part. apply loads_in_order_ret. }
  intros edit_part. apply loads_in_order_ret.
Qed.

Lemma not_found_message_line (x : input_kind * string) :
  not_found_line (not_found_message x) = true.
Proof.
  destruct x as [[] p]; unfold not_found_line, not_found_message;
    cbn [fst snd]; apply orb_true_iff; [left | right];
    apply prefix_app; now exists p.
Qed.

End LoadOrderFacts.

(** C7, amended.  Take the given shared inputs in the order in which they
    are loaded: the style, the reference images, the edit image (an empty
    style or edit path counts as not given).  If one of them refers to an
    absent file, and those before it exist and can be read the way they
    are loaded (the style as text, an image as bytes), then with the
    credential set [generate_image] returns nothing and ends the process
    with status 1, right after looking that path up and printing
    [ERROR: Style file not found: ] or [ERROR: Image not found: ] and the
    path.  Up to there it has only looked up and read files and printed;
    the service has not been called, no item has been attempted, nothing
    has been written, and that line is the only one of its kind.  Nothing
    is asked of the files after the absent one, nor of any file but the
    given ones.  Without the credential the call returns the
    [API_KEY_MISSING] result and leaves the files alone. *)
Theorem missing_shared_input_exits {W : Type} `{Collaborators W}
        (prompts : list string) (output_path : string)
        (style_path edit_path : option string)
        (ref_paths : option (list string)) (aspect_ratio model : string)
        (max_retries : Z) (st : State W)
        (before after : list (input_kind * string))
        (x : input_kind * string) :
  shared_inputs style_path edit_path ref_paths
  = (before ++ x :: after)%list ->
  Forall (can_load (world st)) before ->
  path_exists (world st) (Path_of (snd x)) = false ->
  let run := generate_image prompts output_path style_path edit_path
               ref_paths aspect_ratio model max_retries st in
  (has_credential (world st) ->
   exists evs,
     let added := (evs ++ [EvExists (Path_of (snd x));
                           EvPrint (not_found_message x)])%list in
     run = (Exit 1, emits st added)
     /\ not_found_line (not_found_message x) = true
     /\ forallb only_loading added = true
     /\ filter is_not_found_print added = [EvPrint (not_found_message x)])
  /\ (~ has_credential (world st) ->
      exists b, run = (Ret b, st) /\ r_error_code b = API_KEY_MISSING).
Proof.
  intros Hsplit Hbefore Habsent run. subst run. split.
  - intros [c [key Henv]].
    rewrite (generate_image_eq _ _ _ _ _ _ _ _ _ _ _ Henv).
    destruct (proj2 (loads_in_order_load_shared style_path edit_path
                       ref_paths st) before x after Hsplit Hbefore Habsent)
      as [evs [Hev ->]].
    exists evs. cbv zeta.
    destruct (load_event_only_loading evs Hev) as [Honly Hnone].
    pose proof (not_found_message_line x) as Hline.
    split; [reflexivity|]. split; [exact Hline|]. split.
    + rewrite forallb_app, Honly. reflexivity.
    + rewrite filter_app, Hnone. cbn [filter is_not_found_print app].
      now rewrite Hline.
  - intros Hno. eexists. split.
    + apply generate_image_no_credential.
      destruct (environ_get (world st) "GEMINI_API_KEY") as [[|c key]|]
        eqn:Henv; [now right | | now left].
      exfalso. apply Hno. now exists c, key.
    + reflexivity.
Qed.

Lemma missing_shared_input_exits_witness :
  let w := mkRaw [("GEMINI_API_KEY", "secret")]
                 [("style.md", "soft light"); ("in/a.png", "bytes")]
                 ["in/a.png"] [] (inr no_parts) in
  let st := start w in
  let refs := Some ["in/a.png"; "in/missing.png"] in
  let before := [(StyleFile, "style.md"); (ImageFile, "in/a.png")] in
  let x := (ImageFile, "in/missing.png") in
  let after := [(ImageFile, "photo.jpg")] in
  shared_inputs (Some "style.md") (Some "photo.jpg") refs
  = (before ++ x :: after)%list
  /\ Forall (can_load (world st)) before
  /\ path_exists (world st) (Path_of (snd x)) = false
  /\ ~ readable (world st)
  /\ has_credential (world st)
  /\ exists evs,
       generate_image ["a cat"] "out.png" (Some "style.md")
                      (Some "photo.jpg") refs "1:1" DEFAULT_MODEL 3 st
       = (Exit 1,
          emits st (evs ++ [EvExists (Path_of "in/missing.png");
                            EvPrint "ERROR: Image not found: in/missing.png"])).
Proof.
  intros w st refs before x after.
  assert (Hsplit : shared_inputs (Some "style.md") (Some "photo.jpg") refs
                   = (before ++ x :: after)%list) by reflexivity.
  assert (Hbefore : Forall (can_load (world st)) before).
  { repeat constructor; cbn [fst snd]; eexists; reflexivity. }
  assert (Habsent : path_exists (world st) (Path_of (snd x)) = false)
    by reflexivity.
  assert (Hcred : has_credential (world st)).
  { exists "s"%char, "ecret". reflexivity. }
  split; [exact Hsplit|]. split; [exact Hbefore|]. split; [exact Habsent|].
  split.
  { intros Hread.
    destruct (proj1 (Hread (Path_of "in/a.png") eq_refl)) as [content Htext].
    discriminate Htext. }
  split; [exact Hcred|].
  destruct (proj1 (missing_shared_input_exits ["a cat"] "out.png"
                     (Some "style.md") (Some "photo.jpg") refs "1:1"
                     DEFAULT_MODEL 3 st before after x Hsplit Hbefore
                     Habsent) Hcred) as [evs [Hrun _]].
  exists evs. exact Hrun.
Defined.

(** C8, at attempt 1024 with the default parameters.  The claim gives the
    delay [min(1.0 * 2 ** 1024, 60.0)], which is 60.0;
    [calculate_backoff] raises [OverflowError], the integer [2 ** 1024]
    being too large to be converted to a float.  At attempt 1023 the
    delay is 60.0.  Below 1024 the claim holds: see
    [calculate_backoff_in_range], [calculate_backoff_default_bounded] and
    [calculate_backoff_default_monotone]. *)
Theorem backoff_overflows_at_1024 :
  calculate_backoff 1024 1 60
  = inl (Exc OverflowError "int too large to convert to float")
  /\ calculate_backoff 1023 1 60 = inr 60%Q.
Proof. split; vm_compute; reflexivity. Qed.

(** C9 as stated fails in two places.  The thousandth item of a batch
    has a sequence number of four digits, so its file name is not the
    given one with three digits after the underscore.  And a single
    prompt with the output path "./out.png" has its output recorded as
    "out.png", the path in normal form, not the given string. *)
Lemma output_path_not_as_stated :
  (path_str (out_path_of 1000 (Path_of "out.png") 999) = "out_1000.png"
   /\ ~ (exists number,
            String.length number = 3%nat
            /\ path_str (out_path_of 1000 (Path_of "out.png") 999)
               = "out" ++ "_" ++ number ++ ".png"))
  /\ (fst (generate_image ["a cat"] "./out.png" None None None "1:1"
             DEFAULT_MODEL 3 (start (sim_world [] image_reply)))
      = Ret (mkResult true SUCCESS None
               [mkItem (Some "a cat") (Some "out.png") None true SUCCESS
                       (Some 0)]
               1 1 0 (Some 0))
      /\ "out.png" <> "./out.png").
Proof.
  split; split.
  - reflexivity.
  - intros [number [Hlen Heq]].
    apply (f_equal String.length) in Heq.
    change (path_str (out_path_of 1000 (Path_of "out.png") 999))
      with "out_1000.png" in Heq.
    rewrite !length_append, Hlen in Heq. discriminate Heq.
  - vm_compute. reflexivity.
  - discriminate.
Qed.

(** C9, amended.  With exactly one prompt the output path of the item is
    the path made from the given one, with nothing inserted.  With more
    than one prompt, and a given path that has a file name, the path of
    item [i] (counted from 0, so the [i+1]-th item) reads as the given
    path, in normal form, with an underscore and the number [i+1] between
    the stem and the suffix of its file name, the number written in
    decimal with zeros in front up to at least three digits.  In what
    [generate_image] returns, the [output] of a successful item at
    position [k] is the string of that path for [i = k]. *)
Theorem output_path_naming (output_path : string) (n i : Z) :
  let base := Path_of output_path in
  (n = 1 -> out_path_of n base i = base)
  /\ (1 < n -> 0 <= i -> path_name base <> EmptyString ->
      let number :=
        zeros (3 - String.length (str_of_int (i + 1)))
        ++ str_of_int (i + 1) in
      path_str base = dir_prefix base ++ path_stem base ++ path_suffix base
      /\ path_str (out_path_of n base i)
         = dir_prefix base ++ path_stem base ++ "_" ++ number
           ++ path_suffix base
      /\ (3 <= String.length number)%nat)
  /\ forall (W : Type) (C : Collaborators W) (prompts : list string)
            (style_path edit_path : option string)
            (ref_paths : option (list string)) (aspect_ratio model : string)
            (max_retries : Z) (st : State W) (b : ResultDict) (k : nat)
            (r : ItemDict),
       has_credential (world st) ->
       fst (generate_image prompts output_path style_path edit_path
              ref_paths aspect_ratio model max_retries st) = Ret b ->
       nth_error (r_results b) k = Some r ->
       success r = true ->
       output r
       = Some (path_str (out_path_of (Z.of_nat (List.length prompts)) base
                                     (Z.of_nat k))).
Proof.
  intros base. split; [|split].
  - intros ->. now apply out_path_of_single.
  - intros Hn Hi Hname number.
    destruct (out_path_of_many output_path n i Hn Hname) as [Hbase Hout].
    destruct (format_03d_nonneg (i + 1)) as [Hfmt Hlen]; [lia|].
    fold base in Hbase, Hout. rewrite Hfmt in Hout, Hlen.
    split; [exact Hbase|]. split; [exact Hout | exact Hlen].
  - intros W C prompts style_path edit_path ref_paths aspect_ratio model
           max_retries st b k r Hcred Hb Hk Hok.
    pose proof (generate_image_items prompts output_path style_path
                  edit_path ref_paths aspect_ratio model max_retries st b
                  Hcred Hb) as Hall.
    destruct (Forall2_enumerate_nth prompts 0 (r_results b) Hall k r Hk)
      as [p [_ Hshape]].
    cbn [fst snd] in Hshape. rewrite Z.add_0_l in Hshape.
    now apply (item_shape_output _ _ _ p).
Qed.

Lemma output_path_naming_witness :
  1 < 3 /\ 0 <= 1 /\ path_name (Path_of "out/img.png") <> EmptyString
  /\ path_str (out_path_of 3 (Path_of "out/img.png") 1) = "out/img_002.png"
  /\ out_path_of 1 (Path_of "./out.png") 0 = Path_of "./out.png".
Proof.
  assert (H3 : 1 < 3) by reflexivity.
  assert (H1 : 0 <= 1) by discriminate.
  assert (Hname : path_name (Path_of "out/img.png") <> EmptyString)
    by discriminate.
  split; [exact H3|]. split; [exact H1|]. split; [exact Hname|]. split.
  - exact (proj1 (proj2 (proj1 (proj2 (output_path_naming "out/img.png" 3 1))
                           H3 H1 Hname))).
  - exact (proj1 (output_path_naming "./out.png" 1 0) eq_refl).
Defined.

(** What holds of C10.  A response whose first candidate has a list of
    parts none of which carries an image makes [generate_single_image]
    return, as a value, the failure with code [API_ERROR] and message
    "No image in response", having called the service once and written
    nothing; see [no_image_after_retries] for the retry executor around
    it. *)
Lemma no_image_parts_give_failure {W : Type} `{Collaborators W}
      (client : Client) (prompt : string) (out : Path) (style : string)
      (edit : option Part) (refs : list Part) (ar model : string)
      (st : State W) (parts : list ResponsePart) (w' : W) :
  generate_content (world st) client
                   (request_for prompt style edit refs ar model)
  = (inr parts, w') ->
  Forall (fun part => inline_data part = None) parts ->
  generate_single_image client prompt out style edit refs ar model st
  = (Ret (mkItem (Some prompt) None (Some "No image in response") false
                 API_ERROR None),
     mkState w' (log st ++ [EvRemote (request_for prompt style edit refs
                                                  ar model)])).
Proof.
  intros Hreply Hnone.
  rewrite generate_single_image_eq. cbv zeta. rewrite Hreply.
  now apply extract_image_none.
Qed.

(** C10, at a response without candidates.  The call returns normally a
    response whose list of candidates is empty, so the response contains
    no image part.  The claim gives the failure "No image in response"
    returned by [generate_single_image] with the prompt in it.  Line 277
    indexes the empty list: [generate_single_image] raises [IndexError],
    and the retry executor, which does not find the message retryable,
    returns a failure whose message is "list index out of range" and
    which has no prompt; that is what the batch records and prints.  A
    response whose first candidate has an empty list of parts gets the
    failure the claim gives. *)
Theorem no_candidates_is_not_no_image :
  let w := mkRaw [("GEMINI_API_KEY", "secret")] [] [] [inr no_candidates]
                 (inr no_parts) in
  let w' := mkRaw [("GEMINI_API_KEY", "secret")] [] [] [inr no_parts]
                  (inr no_parts) in
  let single := generate_single_image (mkClient "secret") "a cat"
                  (Path_of "out.png") EmptyString None [] "1:1"
                  DEFAULT_MODEL in
  let by_index :=
    mkItem None None (Some "list index out of range") false API_ERROR
           (Some 0) in
  response_images no_candidates = []
  /\ fst (single (start w))
     = Raise (Exc OtherException "list index out of range")
  /\ fst (retry_with_backoff single 3 (start w)) = Ret by_index
  /\ (exists b,
         fst (generate_image ["a cat"] "out.png" None None None "1:1"
                DEFAULT_MODEL 3 (start w)) = Ret b
         /\ r_results b = [by_index]
         /\ In (EvPrint "ERROR: list index out of range")
               (log (snd (generate_image ["a cat"] "out.png" None None None
                            "1:1" DEFAULT_MODEL 3 (start w)))))
  /\ response_images no_parts = []
  /\ fst (retry_with_backoff single 3 (start w'))
     = Ret (mkItem (Some "a cat") None (Some "No image in response") false
                   API_ERROR (Some 0)).
Proof.
  cbv zeta. split; [reflexivity|]. split; [vm_compute; reflexivity|].
  split; [vm_compute; reflexivity|]. split.
  - eexists. split; [vm_compute; reflexivity|].
    split; [reflexivity|]. vm_compute. tauto.
  - split; [reflexivity|]. vm_compute. reflexivity.
Qed.

(* ====================================================================== *)
(** * Further properties                                                   *)
(* ====================================================================== *)

(** ** More on strings *)

Lemma append_inj_l (a x y : string) : a ++ x = a ++ y -> x = y.
Proof.
  induction a as [|c a IH]; simpl; [trivial|].
  intros Heq. injection Heq as Heq. now apply IH.
Qed.

Lemma append_inj_same_length (x y s t : string) :
  String.length x = String.length y -> x ++ s = y ++ t -> x = y /\ s = t.
Proof.
  revert y. induction x as [|c x IH]; intros [|d y] Hlen Heq;
    simpl in *; try discriminate.
  - now split.
  - injection Heq as -> Heq. injection Hlen as Hlen.
    destruct (IH y Hlen Heq) as [-> ->]. now split.
Qed.

Lemma append_inj_r (x y s : string) : x ++ s = y ++ s -> x = y.
Proof.
  intros Heq.
  assert (Hlen : String.length x = String.length y).
  { apply (f_equal String.length) in Heq.
    rewrite !length_append in Heq. lia. }
  exact (proj1 (append_inj_same_length x y s s Hlen Heq)).
Qed.




Lemma length_replace (old : ascii) (new s : string) :
  (1 <= String.length new)%nat ->
  (String.length s <= String.length (replace old new s))%nat.
Proof.
  intros Hnew. induction s as [|c s IH]; simpl; [lia|].
  destruct (Ascii.eqb c old); simpl.
  - rewrite length_append. lia.
  - lia.
Qed.

Lemma decimal_value_zeros (k : nat) (v : Z) :
  decimal_value v (zeros k) = v * 10 ^ Z.of_nat k.
Proof.
  revert v. induction k as [|k IH]; intros v.
  - simpl. lia.
  - cbn [zeros decimal_value]. rewrite IH.
    change (ord "0" - 48) with 0.
    rewrite Nat2Z.inj_succ, Z.pow_succ_r by lia. lia.
Qed.

(** The sequence number of a file name reads back as the number. *)
Lemma format_03d_value (k : Z) :
  0 <= k -> decimal_value 0 (format_03d k) = k.
Proof.
  intros Hk. destruct (format_03d_nonneg k Hk) as [-> _].
  unfold str_of_int.
  destruct (k <? 0) eqn:E; [apply Z.ltb_lt in E; lia|].
  rewrite decimal_value_append, decimal_value_zeros. simpl Z.mul.
  now apply digits_value.
Qed.

(** X1.  For attempts from 0 to 1023 the delay with the default
    parameters is [2 ** attempt] seconds up to attempt 5 and 60 seconds
    from attempt 6 on; it is at least 1, at most 60, and does not decrease
    from one attempt to a later one.  With any parameters the delay of
    such an attempt exceeds neither the cap nor
    [base_delay * 2 ** attempt]. *)
Theorem backoff_default_profile (a b : Z) :
  0 <= a -> a <= b -> b < 1024 ->
  (exists da db,
      calculate_backoff a 1 60 = inr da
      /\ calculate_backoff b 1 60 = inr db
      /\ (1 <= da)%Q /\ (da <= db)%Q /\ (db <= 60)%Q
      /\ (a <= 5 -> (da == 2 ^ a)%Q)
      /\ (6 <= a -> da = 60%Q))
  /\ forall (base cap d : Q),
       calculate_backoff a base cap = inr d ->
       (d <= cap)%Q /\ (d <= base * 2 ^ a)%Q.
Proof.
  intros Ha Hab Hb. split.
  - exists (Qmin (1 * 2 ^ a) 60), (Qmin (1 * 2 ^ b) 60).
    rewrite !calculate_backoff_in_range by lia.
    split; [reflexivity|]. split; [reflexivity|].
    assert (Hone : (1 <= 2 ^ a)%Q).
    { change 1%Q with (2 ^ 0)%Q.
      apply Qpower_le_compat_l; [assumption | discriminate]. }
    split.
    { apply Q.min_glb; [now rewrite Qmult_1_l | discriminate]. }
    split.
    { apply Q.min_le_compat_r. rewrite !Qmult_1_l.
      apply Qpower_le_compat_l; [assumption | discriminate]. }
    split; [apply Q.le_min_r|]. split.
    + intros H5.
      assert (Hle : (1 * 2 ^ a <= 60)%Q).
      { rewrite Qmult_1_l. apply Qle_trans with (2 ^ 5)%Q.
        - apply Qpower_le_compat_l; [assumption | discriminate].
        - discriminate. }
      rewrite (Q.min_l _ _ Hle). apply Qmult_1_l.
    + intros H6.
      assert (Hgt : (60 < 1 * 2 ^ a)%Q).
      { rewrite Qmult_1_l. apply Qlt_le_trans with (2 ^ 6)%Q.
        - reflexivity.
        - apply Qpower_le_compat_l; [assumption | discriminate]. }
      unfold Qmin, GenericMinMax.gmin.
      apply Qgt_alt in Hgt. now rewrite Hgt.
  - intros base cap d Hd.
    rewrite calculate_backoff_in_range in Hd by lia.
    injection Hd as <-. split; [apply Q.le_min_r | apply Q.le_min_l].
Qed.

Lemma backoff_default_profile_witness :
  0 <= 2 /\ 2 <= 7 /\ 7 < 1024
  /\ exists da db,
       calculate_backoff 2 1 60 = inr da
       /\ calculate_backoff 7 1 60 = inr db
       /\ (da <= db)%Q /\ (db <= 60)%Q.
Proof.
  assert (H0 : 0 <= 2) by discriminate.
  assert (H1 : 2 <= 7) by discriminate.
  assert (H2 : 7 < 1024) by reflexivity.
  split; [exact H0|]. split; [exact H1|]. split; [exact H2|].
  destruct (proj1 (backoff_default_profile 2 7 H0 H1 H2))
    as [da [db [Ha [Hb [_ [Hle [Hcap _]]]]]]].
  exists da, db.
  split; [exact Ha|]. split; [exact Hb|]. split; [exact Hle | exact Hcap].
Defined.



(** X3.  What the sanitizer lets through is never blank and never shorter
    than the prompt, and it is the prompt itself exactly when the prompt
    has none of the shell metacharacters: a prompt with one of them
    reaches the service between single quotes. *)
Theorem sanitized_prompt_facts (p safe : string) :
  sanitize_prompt p = inr safe ->
  all_chars isspace safe = false
  /\ (String.length p <= String.length safe)%nat
  /\ (safe = p <->
      ~ exists c, In c shell_metacharacters
                  /\ In c (list_ascii_of_string p))
  /\ ((exists c, In c shell_metacharacters
                 /\ In c (list_ascii_of_string p)) ->
      exists body, safe = "'" ++ body ++ "'").
Proof.
  intros Hsafe.
  destruct (all_chars isspace p) eqn:Hblank.
  { rewrite (sanitize_prompt_blank p Hblank) in Hsafe. discriminate. }
  destruct (any_char SHELL_DANGEROUS_CHARS p) eqn:Hmeta.
  - rewrite (sanitize_prompt_quoted p Hmeta) in Hsafe.
    injection Hsafe as <-.
    rewrite (shlex_quote_metacharacter p Hmeta).
    set (body := replace "'" _ p).
    assert (Hlen : (String.length p <= String.length body)%nat).
    { apply length_replace. simpl. lia. }
    split; [reflexivity|]. split.
    { rewrite !length_append. simpl. lia. }
    split.
    + split.
      * intros Heq. apply (f_equal String.length) in Heq.
        rewrite !length_append in Heq. simpl in Heq. lia.
      * intros Hnone. exfalso. apply Hnone. now apply has_metacharacter.
    + intros _. now exists body.
  - rewrite (sanitize_prompt_unchanged p Hblank Hmeta) in Hsafe.
    injection Hsafe as <-.
    split; [assumption|]. split; [lia|]. split.
    + split; [|reflexivity]. intros _ Hex.
      apply has_metacharacter in Hex. congruence.
    + intros Hex. apply has_metacharacter in Hex. congruence.
Qed.

Lemma sanitized_prompt_facts_witness :
  sanitize_prompt "a cat & a dog" = inr "'a cat & a dog'"
  /\ all_chars isspace "'a cat & a dog'" = false
  /\ (String.length "a cat & a dog" <= String.length "'a cat & a dog'")%nat.
Proof.
  assert (Hs : sanitize_prompt "a cat & a dog" = inr "'a cat & a dog'")
    by reflexivity.
  split; [exact Hs|].
  destruct (sanitized_prompt_facts "a cat & a dog" "'a cat & a dog'" Hs)
    as [H1 [H2 _]].
  split; [exact H1 | exact H2].
Defined.

(** X4.  In a batch of more than one prompt, for a given path that has a
    file name, two different items never get the same output file, and no
    item gets the given file itself. *)
Theorem output_paths_distinct (output_path : string) (n i j : Z) :
  let base := Path_of output_path in
  1 < n -> 0 <= i -> 0 <= j -> i <> j -> path_name base <> EmptyString ->
  path_str (out_path_of n base i) <> path_str (out_path_of n base j)
  /\ path_str (out_path_of n base i) <> path_str base.
Proof.
  intros base Hn Hi Hj Hij Hname.
  destruct (out_path_of_many output_path n i Hn Hname) as [Hbase Hout_i].
  destruct (out_path_of_many output_path n j Hn Hname) as [_ Hout_j].
  fold base in Hbase, Hout_i, Hout_j. split.
  - rewrite Hout_i, Hout_j. intros Heq.
    apply append_inj_l, append_inj_l, append_inj_l, append_inj_r in Heq.
    apply (f_equal (decimal_value 0)) in Heq.
    rewrite !format_03d_value in Heq by lia. lia.
  - rewrite Hout_i, Hbase. intros Heq.
    apply append_inj_l, append_inj_l in Heq.
    apply (f_equal String.length) in Heq.
    rewrite !length_append in Heq. simpl in Heq. lia.
Qed.

Lemma output_paths_distinct_witness :
  1 < 3 /\ 0 <= 0 /\ 0 <= 2 /\ 0 <> 2
  /\ path_name (Path_of "out/img.png") <> EmptyString
  /\ path_str (out_path_of 3 (Path_of "out/img.png") 0)
     <> path_str (out_path_of 3 (Path_of "out/img.png") 2).
Proof.
  assert (H1 : 1 < 3) by reflexivity.
  assert (H2 : 0 <= 0) by discriminate.
  assert (H3 : 0 <= 2) by discriminate.
  assert (H4 : 0 <> 2) by discriminate.
  assert (H5 : path_name (Path_of "out/img.png") <> EmptyString)
    by discriminate.
  split; [exact H1|]. split; [exact H2|]. split; [exact H3|].
  split; [exact H4|]. split; [exact H5|].
  exact (proj1 (output_paths_distinct "out/img.png" 3 0 2 H1 H2 H3 H4 H5)).
Defined.

(** ** More on the retry executor *)

Section RetryMore.
Context {W : Type} `{Collaborators W}.
Variable func : M W ItemDict.
Variable max_retries : Z.

Lemma count_app (p : event -> bool) (l1 l2 : list event) :
  count p (l1 ++ l2) = count p l1 + count p l2.
Proof. unfold count. rewrite filter_app, length_app. lia. Qed.

Lemma count_called (p : event -> bool) (st : State W) :
  p EvCall = false -> count p (log (called st)) = count p (log st).
Proof.
  intros Hp. unfold called. cbn [log]. rewrite count_app.
  unfold count at 2. simpl. rewrite Hp. simpl. lia.
Qed.

Lemma sleeps_backed_off (st : State W) a n d msg :
  count is_sleep (log (backed_off st a n d msg))
  = count is_sleep (log st) + 1.
Proof.
  unfold backed_off. cbn [log]. rewrite !count_app. unfold count. simpl. lia.
Qed.

Lemma silent_count {A} (p : event -> bool) (c : M W A) (st st' : State W)
      (res : Res A) :
  silent p c -> c st = (res, st') -> count p (log st') = count p (log st).
Proof. intros Hs Hc. specialize (Hs st). now rewrite Hc in Hs. Qed.

(** The retries a returned dictionary records lie between those counted
    when the loop was entered and the budget. *)
Lemma retry_loop_retries (fuel : nat) :
  forall (attempt used : Z) (last : option string) (st st' : State W)
         (r : ItemDict),
    retry_loop func max_retries fuel attempt used last st = (Ret r, st') ->
    exists k, retries_used r = Some k
              /\ used <= k <= used + Z.max 0 (max_retries - attempt).
Proof.
  induction fuel as [|fuel IH]; intros attempt used last st st' r Hrun.
  - destruct last as [msg|]; [|discriminate].
    rewrite retry_loop_O in Hrun. injection Hrun as <- _.
    exists used. split; [reflexivity | lia].
  - rewrite retry_loop_S in Hrun.
    destruct (func (called st)) as [[result|e|code] st1];
      [| |discriminate].
    + injection Hrun as <- _. exists used. split; [reflexivity | lia].
    + destruct (is_retryable_error (str_exc e)); cbn [negb] in Hrun.
      * destruct (attempt <? max_retries) eqn:E.
        -- apply Z.ltb_lt in E.
           destruct (calculate_backoff attempt 1 60) as [e'|delay];
             [discriminate|].
           destruct (IH _ _ _ _ _ _ Hrun) as [k [Hk Hbound]].
           exists k. split; [assumption | lia].
        -- apply Z.ltb_ge in E.
           destruct (IH _ _ _ _ _ _ Hrun) as [k [Hk Hbound]].
           exists k. split; [assumption | lia].
      * injection Hrun as <- _. exists used. split; [reflexivity | lia].
Qed.

(** When the loop runs its turns from attempt [attempt] to the budget and
    comes back with a dictionary, the invocations it made are one more
    than the retries it added, and it waited once per retry. *)
Lemma retry_loop_attempts (fuel : nat) :
  quiet func -> silent is_sleep func ->
  forall (attempt used : Z) (last : option string) (st st' : State W)
         (r : ItemDict),
    0 <= attempt ->
    attempt + Z.of_nat (S fuel) = max_retries + 1 ->
    retry_loop func max_retries (S fuel) attempt used last st
    = (Ret r, st') ->
    exists k, retries_used r = Some k
              /\ used <= k <= used + (max_retries - attempt)
              /\ calls (log st') = calls (log st) + (k - used) + 1
              /\ count is_sleep (log st')
                 = count is_sleep (log st) + (k - used).
Proof.
  intros Hquiet Hsilent.
  induction fuel as [|fuel IH]; intros attempt used last st st' r Ha Hsum
    Hrun; rewrite retry_loop_S in Hrun;
    destruct (func (called st)) as [[result|e|code] st1] eqn:Hf;
    try discriminate.
  - injection Hrun as <- <-. exists used.
    rewrite (quiet_calls _ _ _ _ Hquiet Hf), calls_called.
    rewrite (silent_count _ _ _ _ _ Hsilent Hf), count_called by reflexivity.
    repeat split; try reflexivity; lia.
  - destruct (is_retryable_error (str_exc e)); cbn [negb] in Hrun.
    + destruct (attempt <? max_retries) eqn:E;
        [apply Z.ltb_lt in E; lia|].
      rewrite retry_loop_O in Hrun. injection Hrun as <- <-. exists used.
      rewrite (quiet_calls _ _ _ _ Hquiet Hf), calls_called.
      rewrite (silent_count _ _ _ _ _ Hsilent Hf), count_called
        by reflexivity.
      cbn [retries_used exhausted_item]. repeat split; try reflexivity; lia.
    + injection Hrun as <- <-. exists used.
      rewrite (quiet_calls _ _ _ _ Hquiet Hf), calls_called.
      rewrite (silent_count _ _ _ _ _ Hsilent Hf), count_called
        by reflexivity.
      cbn [retries_used api_error_item]. repeat split; try reflexivity; lia.
  - injection Hrun as <- <-. exists used.
    rewrite (quiet_calls _ _ _ _ Hquiet Hf), calls_called.
    rewrite (silent_count _ _ _ _ _ Hsilent Hf), count_called by reflexivity.
    repeat split; try reflexivity; lia.
  - destruct (is_retryable_error (str_exc e)); cbn [negb] in Hrun.
    + destruct (attempt <? max_retries) eqn:E;
        [|apply Z.ltb_ge in E; lia].
      destruct (calculate_backoff attempt 1 60) as [e'|delay];
        [discriminate|].
      destruct (IH (attempt + 1) (used + 1) _ _ _ _ ltac:(lia) ltac:(lia)
                   Hrun)
        as [k [Hk [Hbound [Hcalls Hsleeps]]]].
      exists k. split; [assumption|]. split; [lia|].
      rewrite Hcalls, Hsleeps, calls_backed_off, sleeps_backed_off.
      rewrite (quiet_calls _ _ _ _ Hquiet Hf), calls_called.
      rewrite (silent_count _ _ _ _ _ Hsilent Hf), count_called
        by reflexivity.
      split; lia.
    + injection Hrun as <- <-. exists used.
      rewrite (quiet_calls _ _ _ _ Hquiet Hf), calls_called.
      rewrite (silent_count _ _ _ _ _ Hsilent Hf), count_called
        by reflexivity.
      cbn [retries_used api_error_item]. repeat split; try reflexivity; lia.
Qed.

(** After [k] transient failures the loop is where [transient] says. *)
Lemma retry_loop_transient (k : nat) :
  forall (fuel : nat) (attempt used : Z) (last : option string)
         (st st' : State W),
    transient func max_retries k attempt st st' ->
    exists last',
      retry_loop func max_retries (k + fuel) attempt used last st
      = retry_loop func max_retries fuel (attempt + Z.of_nat k)
                   (used + Z.of_nat k) last' st'.
Proof.
  induction k as [|k IH]; intros fuel attempt used last st st' Htr.
  - inversion Htr; subst. exists last.
    now rewrite !Z.add_0_r.
  - inversion Htr as [|k0 a0 st0 st1 st2 e delay Hf He Ha Hd Hrest];
      subst.
    destruct (IH fuel (attempt + 1) (used + 1) (Some (str_exc e)) _ _ Hrest)
      as [last' Hloop].
    exists last'. cbn [Nat.add].
    rewrite retry_loop_S, Hf, He. cbn [negb].
    apply Z.ltb_lt in Ha. rewrite Ha, Hd, Hloop.
    f_equal; lia.
Qed.

End RetryMore.

Lemma transient_budget {W : Type} `{Collaborators W} (func : M W ItemDict)
      (max_retries : Z) (k : nat) (a : Z) (st st' : State W) :
  transient func max_retries k a st st' ->
  k = O \/ a + Z.of_nat k <= max_retries.
Proof.
  induction 1 as [|k a st st1 st' e delay Hf He Ha Hd Hrest IH];
    [now left|].
  right. destruct IH as [-> | IH]; lia.
Qed.

Lemma silent_raise {W : Type} `{Collaborators W} {A} (p : event -> bool)
      (e : exception) :
  silent p (@raise W A e).
Proof. intros st. reflexivity. Qed.

(** X5.  Whenever the retry executor returns a dictionary, around any
    operation and with any budget, the dictionary records retries between
    0 and the budget, the operation has been invoked once more than that,
    and the executor has waited once per recorded retry. *)
Theorem retry_count_matches_attempts {W : Type} `{Collaborators W}
        (func : M W ItemDict) (max_retries : Z) (st st' : State W)
        (r : ItemDict) :
  quiet func -> silent is_sleep func ->
  retry_with_backoff func max_retries st = (Ret r, st') ->
  exists k,
    retries_used r = Some k
    /\ 0 <= k <= max_retries
    /\ calls (log st') = calls (log st) + (k + 1)
    /\ count is_sleep (log st') = count is_sleep (log st) + k.
Proof.
  intros Hquiet Hsilent Hrun.
  destruct (Z.ltb_spec max_retries 0) as [Hneg | Hpos].
  { rewrite (retry_negative_budget func max_retries st Hneg) in Hrun.
    discriminate. }
  unfold retry_with_backoff in Hrun.
  replace (Z.to_nat (max_retries + 1)) with (S (Z.to_nat max_retries))
    in Hrun by lia.
  destruct (retry_loop_attempts func max_retries (Z.to_nat max_retries)
              Hquiet Hsilent 0 0 None st st' r ltac:(lia) ltac:(lia) Hrun)
    as [k [Hk [Hbound [Hcalls Hsleeps]]]].
  exists k. split; [assumption|]. split; [lia|]. split; lia.
Qed.

Lemma retry_count_matches_attempts_witness :
  let st := start (sim_world [] image_reply) in
  quiet (@unavailable SimWorld)
  /\ silent is_sleep (@unavailable SimWorld)
  /\ exists r st' k,
       retry_with_backoff unavailable 3 st = (Ret r, st')
       /\ retries_used r = Some k
       /\ calls (log st') = calls (log st) + (k + 1).
Proof.
  intros st.
  assert (Hq : quiet (@unavailable SimWorld)) by exact unavailable_quiet.
  assert (Hs : silent is_sleep (@unavailable SimWorld))
    by (intros s; reflexivity).
  split; [exact Hq|]. split; [exact Hs|].
  destruct (retry_with_backoff unavailable 3 st) as [[r| |] st'] eqn:Hrun;
    [|discriminate Hrun|discriminate Hrun].
  destruct (retry_count_matches_attempts unavailable 3 st st' r Hq Hs Hrun)
    as [k [Hk [_ [Hcalls _]]]].
  exists r, st', k. split; [reflexivity|]. split; [exact Hk | exact Hcalls].
Defined.

(** X6.  If the first [k] invocations of the operation raise retryable
    errors within the budget and the next one returns a dictionary, the
    retry executor returns that dictionary with [retries_used = k], in
    the state that invocation left. *)
Theorem retry_returns_after_transient_failures {W : Type} `{Collaborators W}
        (func : M W ItemDict) (max_retries : Z) (k : nat)
        (st st1 st2 : State W) (r : ItemDict) :
  0 <= max_retries ->
  transient func max_retries k 0 st st1 ->
  func (called st1) = (Ret r, st2) ->
  retry_with_backoff func max_retries st
  = (Ret (set_retries_used r (Z.of_nat k)), st2).
Proof.
  intros Hmax Htr Hf.
  assert (Hk : Z.of_nat k <= max_retries).
  { destruct (transient_budget func max_retries k 0 st st1 Htr)
      as [-> | Hle]; simpl; lia. }
  unfold retry_with_backoff.
  replace (Z.to_nat (max_retries + 1))
    with (k + S (Z.to_nat (max_retries - Z.of_nat k)))%nat by lia.
  destruct (retry_loop_transient func max_retries k
              (S (Z.to_nat (max_retries - Z.of_nat k))) 0 0 None st st1 Htr)
    as [last' ->].
  now rewrite (retry_loop_returns func max_retries _ _ _ last' st1 st2 r Hf).
Qed.

Lemma retry_returns_after_transient_failures_witness :
  let st := start (sim_world [error_reply "503 Service Unavailable"]
                             image_reply) in
  let func := generate_single_image (mkClient "secret") "a cat"
                (Path_of "out.png") EmptyString None [] "1:1" DEFAULT_MODEL in
  exists st1 st2 r,
    0 <= 3
    /\ transient func 3 1 0 st st1
    /\ func (called st1) = (Ret r, st2)
    /\ retry_with_backoff func 3 st = (Ret (set_retries_used r 1), st2).
Proof.
  intros st func.
  set (sta := snd (func (called st))).
  assert (Hfirst : func (called st)
                   = (Raise (Exc OtherException "503 Service Unavailable"),
                      sta))
    by (vm_compute; reflexivity).
  set (st1 := backed_off sta 0 3 1 "503 Service Unavailable").
  set (r := mkItem (Some "a cat") (Some "out.png") None true SUCCESS None).
  set (st2 := snd (func (called st1))).
  assert (Hsecond : func (called st1) = (Ret r, st2))
    by (vm_compute; reflexivity).
  assert (H3 : 0 <= 3) by discriminate.
  assert (Htr : transient func 3 1 0 st st1).
  { eapply transient_S with (e := Exc OtherException "503 Service Unavailable")
                            (delay := 1%Q).
    - exact Hfirst.
    - reflexivity.
    - reflexivity.
    - reflexivity.
    - apply transient_O. }
  exists st1, st2, r. split; [exact H3|]. split; [exact Htr|].
  split; [exact Hsecond|].
  exact (retry_returns_after_transient_failures func 3 1 st st1 st2 r
           H3 Htr Hsecond).
Defined.

(** A response without image is final at any turn.  If the first [k]
    invocations of [generate_single_image] raise retryable errors within
    the budget and the next call of the service returns parts none of
    which carries an image, the retry executor returns the failure
    "No image in response" with [retries_used = k], right after that
    call: nothing is announced, waited for or asked after it. *)
Lemma no_image_after_retries {W : Type} `{Collaborators W}
      (client : Client) (prompt : string) (out : Path) (style : string)
      (edit : option Part) (refs : list Part) (ar model : string)
      (max_retries : Z) (k : nat) (st st1 : State W)
      (parts : list ResponsePart) (w' : W) :
  let single := generate_single_image client prompt out style edit refs ar
                  model in
  let req := request_for prompt style edit refs ar model in
  0 <= max_retries ->
  transient single max_retries k 0 st st1 ->
  generate_content (world st1) client req = (inr parts, w') ->
  Forall (fun part => inline_data part = None) parts ->
  retry_with_backoff single max_retries st
  = (Ret (mkItem (Some prompt) None (Some "No image in response") false
                 API_ERROR (Some (Z.of_nat k))),
     mkState w' (log st1 ++ [EvCall; EvRemote req])).
Proof.
  intros single req Hmax Htr Hreply Hnone.
  assert (Hk : Z.of_nat k <= max_retries).
  { destruct (transient_budget single max_retries k 0 st st1 Htr)
      as [-> | Hle]; simpl; lia. }
  assert (Hlast : single (called st1)
                  = (Ret (no_image_item prompt),
                     mkState w' (log st1 ++ [EvCall; EvRemote req]))).
  { unfold single. rewrite generate_single_image_eq. cbv zeta.
    cbn [called world log]. fold req. rewrite Hreply.
    rewrite (extract_image_none prompt out parts _ Hnone).
    now rewrite <- app_assoc. }
  unfold retry_with_backoff.
  replace (Z.to_nat (max_retries + 1))
    with (k + S (Z.to_nat (max_retries - Z.of_nat k)))%nat by lia.
  destruct (retry_loop_transient single max_retries k
              (S (Z.to_nat (max_retries - Z.of_nat k))) 0 0 None st st1 Htr)
    as [last' ->].
  rewrite (retry_loop_returns single max_retries _ _ _ last' st1 _ _ Hlast).
  reflexivity.
Qed.

(** X7.  With a budget from 0 to 1024, around an operation that raises a
    retryable error at every invocation, the retry executor invokes the
    operation once more than the budget and returns the failure whose
    message is "Failed after N retries: " followed by the last error,
    with the whole budget as [retries_used], and with the code
    [RATE_LIMITED] when the lowercase of that last error contains "rate"
    and [NETWORK_ERROR] when it does not. *)
Theorem retry_exhausts_within_budget {W : Type} `{Collaborators W}
        (func : M W ItemDict) (max_retries : Z) (st : State W) :
  always_retryable func -> quiet func -> 0 <= max_retries <= 1024 ->
  exists st_last e st' code,
    func st_last = (Raise e, st')
    /\ retry_with_backoff func max_retries st
       = (Ret (mkItem None None
                 (Some ("Failed after " ++ str_of_int max_retries
                        ++ " retries: " ++ str_exc e))
                 false code (Some max_retries)),
          st')
    /\ calls (log st') = calls (log st) + (max_retries + 1)
    /\ ((exists a b, lower (str_exc e) = a ++ "rate" ++ b) ->
        code = RATE_LIMITED)
    /\ (~ (exists a b, lower (str_exc e) = a ++ "rate" ++ b) ->
        code = NETWORK_ERROR).
Proof.
  intros Hretry Hquiet Hrange.
  destruct (retry_exhausted_in_range func max_retries st Hretry Hquiet Hrange)
    as [st_last [e [st' [Hf [Hrun Hcalls]]]]].
  exists st_last, e, st',
    (error_code (exhausted_item max_retries (str_exc e) max_retries)).
  split; [exact Hf|]. split; [exact Hrun|]. split; [exact Hcalls|].
  destruct (exhausted_item_kind max_retries (str_exc e) max_retries)
    as [Hrate Hnet].
  split; [apply Hrate | apply Hnet].
Qed.

Lemma retry_exhausts_within_budget_witness :
  let st := start (sim_world [] image_reply) in
  always_retryable (@unavailable SimWorld)
  /\ quiet (@unavailable SimWorld)
  /\ 0 <= 5 <= 1024
  /\ exists r st',
       retry_with_backoff unavailable 5 st = (Ret r, st')
       /\ calls (log st') = calls (log st) + (5 + 1).
Proof.
  intros st.
  assert (Ha : always_retryable (@unavailable SimWorld))
    by exact unavailable_always_retryable.
  assert (Hq : quiet (@unavailable SimWorld)) by exact unavailable_quiet.
  assert (Hr : 0 <= 5 <= 1024) by (split; discriminate).
  split; [exact Ha|]. split; [exact Hq|]. split; [exact Hr|].
  destruct (retry_exhausts_within_budget unavailable 5 st Ha Hq Hr)
    as [st_last [e [st' [code [_ [Hrun [Hcalls _]]]]]]].
  eexists. exists st'. split; [exact Hrun | exact Hcalls].
Defined.

(** ** More on the batch *)

Section BatchMore.
Context {W : Type} `{Collaborators W}.

(** A returned batch with the credential set: the shared inputs were
    loaded, the loop ran over the prompts, and the result is the
    aggregate. *)
Lemma generate_image_returns (prompts : list string) (output_path : string)
      (style_path edit_path : option string)
      (ref_paths : option (list string)) (aspect_ratio model : string)
      (max_retries : Z) (st : State W) (c : ascii) (key : string)
      (b : ResultDict) :
  environ_get (world st) "GEMINI_API_KEY" = Some (String c key) ->
  fst (generate_image prompts output_path style_path edit_path ref_paths
         aspect_ratio model max_retries st) = Ret b ->
  exists style_text ref_parts edit_part st1 results total st2,
    load_shared style_path edit_path ref_paths st
    = (Ret (style_text, ref_parts, edit_part), st1)
    /\ batch_loop (mkClient (String c key)) (Z.of_nat (List.length prompts))
                  (Path_of output_path) style_text edit_part ref_parts
                  aspect_ratio model 0 prompts [] 0 st1
       = (Ret (results, total), st2)
    /\ b = aggregate prompts results total
    /\ snd (generate_image prompts output_path style_path edit_path
              ref_paths aspect_ratio model max_retries st) = st2.
Proof.
  intros Henv Hb.
  rewrite (generate_image_eq _ _ _ _ _ _ _ _ _ _ _ Henv) in *.
  destruct (load_shared style_path edit_path ref_paths st)
    as [[[[style_text ref_parts] edit_part]|e|code] st1];
    try discriminate.
  destruct (batch_loop _ _ _ _ _ _ _ _ _ _ _ _ st1)
    as [[[results total]|e|code] st2] eqn:Hloop; try discriminate.
  injection Hb as <-.
  exists style_text, ref_parts, edit_part, st1, results, total, st2.
  repeat split. exact Hloop.
Qed.

Lemma item_shape_code (n : Z) (base : Path) (i : Z) (p : string)
      (r : ItemDict) :
  item_shape n base i p r -> In (error_code r) item_codes.
Proof.
  unfold item_shape, item_codes. intros Hshape.
  destruct (sanitize_prompt p) as [e|safe].
  - subst r. simpl. tauto.
  - destruct Hshape as [[k ->] | [[k ->] | [msg [code [k [-> Hcode]]]]]];
      simpl; tauto.
Qed.

Lemma Forall2_right {A B} (R : A -> B -> Prop) (P : B -> Prop)
      (l : list A) (l' : list B) :
  (forall a b, R a b -> P b) -> Forall2 R l l' -> Forall P l'.
Proof.
  intros HRP. induction 1; constructor; eauto.
Qed.

Variable client : Client.
Variable n : Z.
Variable base : Path.
Variable style : string.
Variable edit : option Part.
Variable refs : list Part.
Variable ar model : string.

Lemma process_prompt_retries (i : Z) (p : string) (st st' : State W)
      (r : ItemDict) (used : Z) :
  process_prompt client n base style edit refs ar model i p st
  = (Ret (r, used), st') ->
  used = retries_of r /\ 0 <= used <= 3.
Proof.
  unfold process_prompt.
  destruct (sanitize_prompt_cases p) as [-> | [safe ->]].
  - intros [= <- <- _]. split; [reflexivity | lia].
  - unfold bind at 1.
    destruct (retry_with_backoff _ DEFAULT_MAX_RETRIES st)
      as [[result|e|code] st1] eqn:Hrun; try discriminate.
    unfold retry_with_backoff in Hrun.
    destruct (retry_loop_retries _ _ _ _ _ _ _ _ _ Hrun) as [k [Hk Hbound]].
    unfold bind, print, emit.
    destruct (success result); intros [= <- <- _];
      unfold retries_of; rewrite Hk;
      (split; [reflexivity | unfold DEFAULT_MAX_RETRIES in Hbound; lia]).
Qed.

Lemma batch_loop_retries (queue : list string) :
  forall (i : Z) (results results' : list ItemDict) (total total' : Z)
         (st st' : State W),
    batch_loop client n base style edit refs ar model i queue results total
               st
    = (Ret (results', total'), st') ->
    exists new,
      results' = (results ++ new)%list
      /\ total' = total + sum_retries new
      /\ Forall (fun r => 0 <= retries_of r <= 3) new.
Proof.
  induction queue as [|p queue IH];
    intros i results results' total total' st st' Hrun.
  - injection Hrun as <- <- _. exists []. rewrite app_nil_r.
    split; [reflexivity|]. split; [simpl; lia | constructor].
  - cbn [batch_loop] in Hrun. unfold bind at 1 in Hrun.
    destruct (process_prompt client n base style edit refs ar model i p st)
      as [[[r used]|e|code] st1] eqn:Hitem; try discriminate.
    destruct (process_prompt_retries i p st st1 r used Hitem)
      as [Hused Hbound].
    destruct (IH _ _ _ _ _ _ _ Hrun) as [new [-> [-> Hall]]].
    exists (r :: new). rewrite <- app_assoc. split; [reflexivity|].
    split; [simpl; lia|]. constructor; [lia | assumption].
Qed.

End BatchMore.

Lemma sum_retries_bound (results : list ItemDict) :
  Forall (fun r => 0 <= retries_of r <= 3) results ->
  0 <= sum_retries results <= 3 * Z.of_nat (List.length results).
Proof.
  induction 1 as [|r results Hr _ IH]; simpl sum_retries; [simpl; lia|].
  rewrite length_cons, Nat2Z.inj_succ. lia.
Qed.

(** X8.  Whatever [generate_image] returns carries one of the codes
    [SUCCESS], [PARTIAL_FAILURE], [API_KEY_MISSING], and each of its items
    one of [SUCCESS], [INVALID_INPUT], [API_ERROR], [RATE_LIMITED],
    [NETWORK_ERROR]: the codes [FILE_NOT_FOUND], [CONTENT_POLICY] and
    [TIMEOUT] are never reported.  The code is [API_KEY_MISSING] exactly
    when the credential is not set or empty. *)
Theorem reported_codes {W : Type} `{Collaborators W}
        (prompts : list string) (output_path : string)
        (style_path edit_path : option string)
        (ref_paths : option (list string)) (aspect_ratio model : string)
        (max_retries : Z) (st : State W) (b : ResultDict) :
  fst (generate_image prompts output_path style_path edit_path ref_paths
         aspect_ratio model max_retries st) = Ret b ->
  In (r_error_code b) batch_codes
  /\ Forall (fun r => In (error_code r) item_codes) (r_results b)
  /\ (r_error_code b = API_KEY_MISSING <-> ~ has_credential (world st))
  /\ r_error_code b <> FILE_NOT_FOUND
  /\ Forall (fun r => error_code r <> FILE_NOT_FOUND
                      /\ error_code r <> CONTENT_POLICY
                      /\ error_code r <> TIMEOUT) (r_results b).
Proof.
  intros Hb.
  assert (Hmain :
    In (r_error_code b) batch_codes
    /\ Forall (fun r => In (error_code r) item_codes) (r_results b)
    /\ (r_error_code b = API_KEY_MISSING <-> ~ has_credential (world st))).
  { destruct (environ_get (world st) "GEMINI_API_KEY") as [[|c key]|]
      eqn:Henv.
    - rewrite generate_image_no_credential in Hb by now right.
      injection Hb as <-. cbn. split; [tauto|]. split; [constructor|].
      split; [|reflexivity]. intros _ [c [key Hc]]. congruence.
    - assert (Hcred : has_credential (world st)) by now exists c, key.
      pose proof (generate_image_items _ _ _ _ _ _ _ _ _ _ Hcred Hb)
        as Hitems.
      destruct (generate_image_returns _ _ _ _ _ _ _ _ _ _ _ _ Henv Hb)
        as [s1 [s2 [s3 [st1 [results [total [st2 [_ [_ [-> _]]]]]]]]]].
      split.
      { unfold aggregate, batch_codes. cbn.
        destruct (_ =? 0); tauto. }
      split.
      { eapply Forall2_right; [|exact Hitems].
        intros [i p] r. apply item_shape_code. }
      split; [|intros Hno; now destruct Hno].
      unfold aggregate. cbn. destruct (_ =? 0); discriminate.
    - rewrite generate_image_no_credential in Hb by now left.
      injection Hb as <-. cbn. split; [tauto|]. split; [constructor|].
      split; [|reflexivity]. intros _ [c [key Hc]]. congruence. }
  destruct Hmain as [Hbatch [Hitems Hkey]].
  split; [assumption|]. split; [assumption|]. split; [assumption|]. split.
  - intros Heq. rewrite Heq in Hbatch. unfold batch_codes in Hbatch.
    simpl in Hbatch. intuition discriminate.
  - eapply Forall_impl; [|exact Hitems].
    intros r Hr. unfold item_codes in Hr. simpl in Hr.
    repeat split; intros Heq; rewrite Heq in Hr; intuition discriminate.
Qed.

Lemma reported_codes_witness :
  exists b,
    fst (generate_image ["a cat"] "out.png" None None None "1:1"
           DEFAULT_MODEL 3 (start (sim_world [] (error_reply "timeout"))))
    = Ret b
    /\ In (r_error_code b) batch_codes.
Proof.
  assert (Hb : exists b,
             fst (generate_image ["a cat"] "out.png" None None None "1:1"
                    DEFAULT_MODEL 3
                    (start (sim_world [] (error_reply "timeout"))))
             = Ret b)
    by (vm_compute; eexists; reflexivity).
  destruct Hb as [b Hb]. exists b. split; [exact Hb|].
  exact (proj1 (reported_codes ["a cat"] "out.png" None None None "1:1"
                  DEFAULT_MODEL 3 _ b Hb)).
Defined.

(** X9.  In a returned batch with the credential set, whatever
    [max_retries] was passed: no item records more than 3 retries, and
    the [retries_used] of the batch is the sum of the retries its items
    record, hence at most 3 times the number of prompts. *)
Theorem batch_retries_bounded {W : Type} `{Collaborators W}
        (prompts : list string) (output_path : string)
        (style_path edit_path : option string)
        (ref_paths : option (list string)) (aspect_ratio model : string)
        (max_retries : Z) (st : State W) (b : ResultDict) :
  has_credential (world st) ->
  fst (generate_image prompts output_path style_path edit_path ref_paths
         aspect_ratio model max_retries st) = Ret b ->
  Forall (fun r => 0 <= retries_of r <= 3) (r_results b)
  /\ r_retries_used b = Some (sum_retries (r_results b))
  /\ 0 <= sum_retries (r_results b) <= 3 * Z.of_nat (List.length prompts).
Proof.
  intros [c [key Henv]] Hb.
  assert (Hcred : has_credential (world st)) by now exists c, key.
  pose proof (generate_image_items _ _ _ _ _ _ _ _ _ _ Hcred Hb) as Hitems.
  destruct (generate_image_returns _ _ _ _ _ _ _ _ _ _ _ _ Henv Hb)
    as [s1 [s2 [s3 [st1 [results [total [st2 [_ [Hloop [-> _]]]]]]]]]].
  destruct (batch_loop_retries _ _ _ _ _ _ _ _ _ _ _ _ _ _ _ _ Hloop)
    as [new [Hres [Htotal Hall]]].
  cbn [app] in Hres. subst results. cbn [r_results aggregate] in *.
  assert (Hlen : List.length new = List.length prompts).
  { rewrite <- (Forall2_length Hitems). apply enumerate_from_length. }
  pose proof (sum_retries_bound new Hall) as Hsum. rewrite Hlen in Hsum.
  split; [assumption|]. split; [|assumption].
  cbn. now rewrite Htotal.
Qed.

Lemma batch_retries_bounded_witness :
  let st := start (sim_world [] (error_reply "connection reset")) in
  has_credential (world st)
  /\ exists b,
       fst (generate_image ["a cat"; "a dog"] "out.png" None None None
              "1:1" DEFAULT_MODEL 10 st) = Ret b
       /\ r_retries_used b = Some (sum_retries (r_results b))
       /\ sum_retries (r_results b) <= 3 * 2.
Proof.
  intros st.
  assert (Hcred : has_credential (world st)) by apply sim_has_credential.
  split; [exact Hcred|].
  assert (Hb : exists b,
             fst (generate_image ["a cat"; "a dog"] "out.png" None None None
                    "1:1" DEFAULT_MODEL 10 st) = Ret b)
    by (vm_compute; eexists; reflexivity).
  destruct Hb as [b Hb]. exists b. split; [exact Hb|].
  destruct (batch_retries_bounded ["a cat"; "a dog"] "out.png" None None None
              "1:1" DEFAULT_MODEL 10 st b Hcred Hb) as [_ [Hsum [_ Hle]]].
  split; [exact Hsum | exact Hle].
Defined.

(** ** What a batch costs *)

Section Spending.
Context {W : Type} `{Collaborators W}.
Variables wr ws : Z.
Hypothesis Hwr : 0 <= wr.
Hypothesis Hws : 0 <= ws.

Lemma cost_app (l1 l2 : list event) :
  cost wr ws (l1 ++ l2) = cost wr ws l1 + cost wr ws l2.
Proof.
  induction l1 as [|ev l1 IH]; simpl; [reflexivity | rewrite IH; lia].
Qed.

Lemma spends_weaken {A} (k k' : Z) (c : M W A) :
  k <= k' -> spends wr ws k c -> spends wr ws k' c.
Proof. intros Hk Hc st. specialize (Hc st). lia. Qed.

Lemma spends_same_log {A} (c : M W A) :
  (forall st, log (snd (c st)) = log st) -> spends wr ws 0 c.
Proof. intros Hc st. rewrite Hc. lia. Qed.

Lemma spends_ret {A} (a : A) : spends wr ws 0 (@ret W A a).
Proof. now apply spends_same_log. Qed.

Lemma spends_lift {A} (r : exception + A) : spends wr ws 0 (@lift W A r).
Proof. apply spends_same_log. intros st. now destruct r. Qed.

Lemma spends_bind {A B} (k1 k2 : Z) (c : M W A) (f : A -> M W B) :
  0 <= k2 -> spends wr ws k1 c -> (forall a, spends wr ws k2 (f a)) ->
  spends wr ws (k1 + k2) (bind c f).
Proof.
  intros Hk2 Hc Hf st. unfold bind. specialize (Hc st).
  destruct (c st) as [[a|e|code] st1]; cbn [snd] in *; try lia.
  specialize (Hf a st1). lia.
Qed.

Lemma spends_emit (ev : event) : spends wr ws (weight wr ws ev) (@emit W ev).
Proof.
  intros st. cbn [emit snd log]. rewrite cost_app. cbn [cost].
  destruct ev; cbn [weight]; lia.
Qed.

Lemma spends_step {A B} (k : Z) (c : M W A) (f : A -> M W B) :
  0 <= k -> spends wr ws 0 c -> (forall a, spends wr ws k (f a)) ->
  spends wr ws k (bind c f).
Proof.
  intros Hk Hc Hf. change k with (0 + k). now apply spends_bind.
Qed.

Lemma spends_run_io (r : option exception * W) : spends wr ws 0 (run_io r).
Proof. apply spends_same_log. intros st. now destruct r as [[e|] w]. Qed.

Lemma spends_print (line : string) : spends wr ws 0 (@print W line).
Proof. apply (spends_emit (EvPrint line)). Qed.

Lemma spends_exists (p : Path) : spends wr ws 0 (Path_exists p).
Proof.
  unfold Path_exists. apply spends_step; [lia | |].
  - apply (spends_emit (EvExists p)).
  - intros _. now apply spends_same_log.
Qed.

Lemma spends_read_text (p : Path) : spends wr ws 0 (Path_read_text p).
Proof.
  unfold Path_read_text. apply spends_step; [lia | |].
  - apply (spends_emit (EvReadText p)).
  - intros _. apply spends_same_log. intros st.
    now destruct (read_text (world st) p).
Qed.

Lemma spends_read_bytes (p : Path) : spends wr ws 0 (Path_read_bytes p).
Proof.
  unfold Path_read_bytes. apply spends_step; [lia | |].
  - apply (spends_emit (EvReadBytes p)).
  - intros _. apply spends_same_log. intros st.
    now destruct (read_bytes (world st) p).
Qed.

Lemma spends_mkdir (p : Path) : spends wr ws 0 (Path_mkdir p).
Proof.
  unfold Path_mkdir. apply spends_step; [lia | |].
  - apply (spends_emit (EvMkdir p)).
  - intros _ st. apply spends_run_io.
Qed.

Lemma spends_write_bytes (p : Path) (data : string) :
  spends wr ws 0 (Path_write_bytes p data).
Proof.
  unfold Path_write_bytes. apply spends_step; [lia | |].
  - apply (spends_emit (EvWrite p data)).
  - intros _ st. apply spends_run_io.
Qed.

Lemma spends_generate_content (client : Client) (req : Request) :
  spends wr ws wr (models_generate_content client req).
Proof.
  unfold models_generate_content.
  replace wr with (wr + 0) at 2 by lia. apply spends_bind; [lia | |].
  - apply (spends_emit (EvRemote req)).
  - intros _. apply spends_same_log. intros st.
    now destruct (generate_content (world st) client req) as [[e|parts] w].
Qed.

Lemma spends_extract_image (prompt : string) (out : Path)
      (parts : list ResponsePart) :
  spends wr ws 0 (extract_image prompt out parts).
Proof.
  induction parts as [|part rest IH]; simpl; [apply spends_ret|].
  destruct (inline_data part) as [data|]; [|exact IH].
  apply spends_step; [lia | apply spends_lift|]. intros img.
  apply spends_step; [lia | apply spends_mkdir|]. intros _.
  apply spends_step; [lia | apply spends_write_bytes|]. intros _.
  apply spends_ret.
Qed.

(** One invocation of [generate_single_image] calls the service at most
    once and does not wait. *)
Lemma spends_generate_single_image client prompt out style edit refs ar model :
  spends wr ws wr
         (generate_single_image client prompt out style edit refs ar model).
Proof.
  unfold generate_single_image.
  replace wr with (wr + 0) at 2 by lia. apply spends_bind; [lia | |].
  - apply spends_generate_content.
  - intros parts. apply spends_extract_image.
Qed.

Lemma cost_called (st : State W) :
  cost wr ws (log (called st)) = cost wr ws (log st).
Proof. unfold called. cbn [log]. rewrite cost_app. simpl. lia. Qed.

Lemma cost_backed_off (st : State W) a n d msg :
  cost wr ws (log (backed_off st a n d msg)) = cost wr ws (log st) + ws.
Proof. unfold backed_off. cbn [log]. rewrite !cost_app. simpl. lia. Qed.

(** The retry loop spends what its invocations spend, plus one wait per
    retry left in the budget. *)
Lemma spends_retry_loop (func : M W ItemDict) (max_retries kf : Z)
      (fuel : nat) :
  0 <= kf -> spends wr ws kf func ->
  forall (attempt used : Z) (last : option string),
    spends wr ws
           (Z.of_nat fuel * kf + Z.max 0 (max_retries - attempt) * ws)
           (retry_loop func max_retries fuel attempt used last).
Proof.
  intros Hkf Hfunc.
  induction fuel as [|fuel IH]; intros attempt used last st.
  - assert (Hsame : log (snd (retry_loop func max_retries 0 attempt used
                                 last st)) = log st)
      by now destruct last.
    rewrite Hsame. nia.
  - rewrite retry_loop_S. specialize (Hfunc (called st)).
    rewrite cost_called in Hfunc.
    rewrite Nat2Z.inj_succ, Z.mul_succ_l.
    assert (Hfuel : 0 <= Z.of_nat fuel * kf) by nia.
    assert (Hmax : 0 <= Z.max 0 (max_retries - attempt) * ws) by nia.
    destruct (func (called st)) as [[result|e|code] st1]; cbn [snd] in *;
      try lia.
    destruct (negb (is_retryable_error (str_exc e))); cbn [snd]; [lia|].
    destruct (attempt <? max_retries) eqn:E.
    + apply Z.ltb_lt in E.
      destruct (calculate_backoff attempt 1 60) as [e'|delay];
        cbn [snd]; [lia|].
      specialize (IH (attempt + 1) (used + 1) (Some (str_exc e))
                     (backed_off st1 attempt max_retries delay (str_exc e))).
      rewrite cost_backed_off in IH.
      replace (Z.max 0 (max_retries - (attempt + 1)))
        with (max_retries - attempt - 1) in IH by lia.
      replace (Z.max 0 (max_retries - attempt))
        with (max_retries - attempt) by lia.
      nia.
    + apply Z.ltb_ge in E.
      specialize (IH (attempt + 1) used (Some (str_exc e)) st1).
      replace (Z.max 0 (max_retries - (attempt + 1))) with 0 in IH by lia.
      lia.
Qed.

Variable client : Client.
Variable n : Z.
Variable base : Path.
Variable style : string.
Variable edit : option Part.
Variable refs : list Part.
Variable ar model : string.

(** A prompt costs nothing when blank, and otherwise at most four calls
    of the service and three waits. *)
Lemma spends_process_prompt (i : Z) (p : string) :
  spends wr ws
         (if all_chars isspace p then 0 else 4 * wr + 3 * ws)
         (process_prompt client n base style edit refs ar model i p).
Proof.
  destruct (all_chars isspace p) eqn:Hblank.
  - apply spends_same_log. intros st.
    now rewrite (process_prompt_blank _ _ _ _ _ _ _ _ i p st Hblank).
  - unfold process_prompt.
    destruct (sanitize_prompt_cases p) as [Hs | [safe ->]].
    { rewrite Hs. apply spends_weaken with 0; [lia | apply spends_ret]. }
    replace (4 * wr + 3 * ws) with ((4 * wr + 3 * ws) + 0) by lia.
    apply spends_bind; [lia | |].
    + unfold retry_with_backoff.
      pose proof (spends_retry_loop
                    (generate_single_image client safe (out_path_of n base i)
                       style edit refs ar model)
                    DEFAULT_MAX_RETRIES wr
                    (Z.to_nat (DEFAULT_MAX_RETRIES + 1)) Hwr
                    (spends_generate_single_image _ _ _ _ _ _ _ _)
                    0 0 None) as Hloop.
      unfold DEFAULT_MAX_RETRIES in *.
      eapply spends_weaken; [|exact Hloop].
      change (Z.of_nat (Z.to_nat (3 + 1))) with 4.
      change (Z.max 0 (3 - 0)) with 3. lia.
    + intros result. apply spends_step; [lia | |].
      * destruct (success result); apply spends_print.
      * intros _. apply spends_ret.
Qed.

Lemma spends_batch_loop (queue : list string) :
  forall (i : Z) (results : list ItemDict) (total : Z),
    spends wr ws
           ((4 * wr + 3 * ws) * Z.of_nat (List.length (nonblank queue)))
           (batch_loop client n base style edit refs ar model i queue
                       results total).
Proof.
  induction queue as [|p queue IH]; intros i results total.
  - simpl. rewrite Z.mul_0_r. apply spends_ret.
  - cbn [batch_loop].
    assert (Hrest : 0 <= (4 * wr + 3 * ws)
                         * Z.of_nat (List.length (nonblank queue))) by nia.
    eapply spends_weaken;
      [|apply (spends_bind
                 (if all_chars isspace p then 0 else 4 * wr + 3 * ws)
                 ((4 * wr + 3 * ws)
                  * Z.of_nat (List.length (nonblank queue))))].
    + unfold nonblank. cbn [filter]. fold (nonblank queue).
      destruct (all_chars isspace p); cbn [negb List.length]; [lia|].
      rewrite Nat2Z.inj_succ. lia.
    + exact Hrest.
    + apply spends_process_prompt.
    + intros [item used]. apply IH.
Qed.

End Spending.

Section SpendingBatch.
Context {W : Type} `{Collaborators W}.
Variables wr ws : Z.
Hypothesis Hwr : 0 <= wr.
Hypothesis Hws : 0 <= ws.

Lemma spends_print_warnings (warnings : list string) :
  spends wr ws 0 (print_warnings warnings : M W unit).
Proof.
  induction warnings as [|w rest IH]; simpl; [apply spends_ret; try assumption|].
  apply spends_step; [lia | apply spends_print; try assumption | intros _; exact IH].
Qed.

Lemma spends_sys_exit {A} (code : Z) : spends wr ws 0 (@sys_exit W A code).
Proof. now apply spends_same_log. Qed.

Lemma spends_load_style (p : string) : spends wr ws 0 (load_style p).
Proof.
  unfold load_style. apply spends_step; [lia | apply spends_exists; try assumption|].
  intros found. destruct found; cbn [negb].
  - apply spends_step; [lia | apply spends_read_text; try assumption|]. intros content.
    destruct (validate_style_content content) as [is_valid warnings].
    apply spends_step; [lia | | intros _; apply spends_ret; try assumption].
    destruct is_valid; cbn [negb]; [apply spends_ret; try assumption|].
    apply spends_step; [lia | apply spends_print; try assumption|].
    intros _. apply spends_print_warnings; try assumption.
  - apply spends_step; [lia | apply spends_print; try assumption|].
    intros _. apply spends_sys_exit; try assumption.
Qed.

Lemma spends_load_image (p : string) : spends wr ws 0 (load_image p).
Proof.
  unfold load_image. apply spends_step; [lia | apply spends_exists; try assumption|].
  intros found. destruct found; cbn [negb].
  - apply spends_step; [lia | apply spends_read_bytes; try assumption|]. intros data.
    apply spends_ret; try assumption.
  - apply spends_step; [lia | apply spends_print; try assumption|].
    intros _. apply spends_sys_exit; try assumption.
Qed.

Lemma spends_load_images (ps : list string) : spends wr ws 0 (load_images ps).
Proof.
  induction ps as [|p ps IH]; simpl; [apply spends_ret; try assumption|].
  apply spends_step; [lia | apply spends_load_image; try assumption|]. intros part.
  apply spends_step; [lia | exact IH|]. intros parts. apply spends_ret; try assumption.
Qed.

Lemma spends_generate_image (prompts : list string) (output_path : string)
      (style_path edit_path : option string)
      (ref_paths : option (list string)) (aspect_ratio model : string)
      (max_retries : Z) :
  spends wr ws
         ((4 * wr + 3 * ws) * Z.of_nat (List.length (nonblank prompts)))
         (generate_image prompts output_path style_path edit_path ref_paths
                         aspect_ratio model max_retries).
Proof.
  assert (Hk : 0 <= (4 * wr + 3 * ws)
                    * Z.of_nat (List.length (nonblank prompts))) by nia.
  unfold generate_image. apply spends_step; [exact Hk | |].
  { now apply spends_same_log. }
  intros api_key.
  assert (Hmissing : forall b : ResultDict,
             spends wr ws
               ((4 * wr + 3 * ws)
                * Z.of_nat (List.length (nonblank prompts)))
               (@ret W _ b)).
  { intros b. eapply spends_weaken; [exact Hk | apply spends_ret; try assumption]. }
  destruct api_key as [[|c key]|]; try apply Hmissing.
  apply spends_step; [exact Hk | |].
  { destruct style_path as [[|c0 s0]|];
      [apply spends_ret; try assumption | apply spends_load_style; try assumption | apply spends_ret; try assumption]. }
  intros style_text. apply spends_step; [exact Hk | |].
  { destruct ref_paths as [ps|];
      [apply spends_load_images; try assumption | apply spends_ret; try assumption]. }
  intros ref_parts. apply spends_step; [exact Hk | |].
  { destruct edit_path as [[|c0 s0]|]; try apply spends_ret; try assumption.
    apply spends_step; [lia | apply spends_load_image; try assumption|].
    intros part. apply spends_ret; try assumption. }
  intros edit_part.
  replace ((4 * wr + 3 * ws) * Z.of_nat (List.length (nonblank prompts)))
    with ((4 * wr + 3 * ws) * Z.of_nat (List.length (nonblank prompts)) + 0)
    by lia.
  apply spends_bind; [lia | |].
  - now apply spends_batch_loop.
  - intros [results total]. apply spends_ret; try assumption.
Qed.

End SpendingBatch.

Lemma cost_remote (l : list event) : cost 1 0 l = count is_remote l.
Proof.
  unfold count. induction l as [|ev l IH]; [reflexivity|].
  cbn [cost filter]. rewrite IH.
  destruct ev; cbn [weight is_remote List.length]; lia.
Qed.

Lemma cost_sleep (l : list event) : cost 0 1 l = count is_sleep l.
Proof.
  unfold count. induction l as [|ev l IH]; [reflexivity|].
  cbn [cost filter]. rewrite IH.
  destruct ev; cbn [weight is_sleep List.length]; lia.
Qed.

Lemma nonblank_all_blank (prompts : list string) :
  Forall (fun p => all_chars isspace p = true) prompts ->
  nonblank prompts = [].
Proof.
  unfold nonblank. induction 1 as [|p ps Hp _ IH]; [reflexivity|].
  cbn [filter]. rewrite Hp. exact IH.
Qed.

(** X10.  Whatever happens, a call of [generate_image] asks the service
    at most four times, and waits at most three times, for each prompt
    that is not blank; a batch of blank prompts asks nothing and never
    waits. *)
Theorem batch_calls_bounded {W : Type} `{Collaborators W}
        (prompts : list string) (output_path : string)
        (style_path edit_path : option string)
        (ref_paths : option (list string)) (aspect_ratio model : string)
        (max_retries : Z) (st : State W) :
  let st' := snd (generate_image prompts output_path style_path edit_path
                    ref_paths aspect_ratio model max_retries st) in
  count is_remote (log st')
  <= count is_remote (log st) + 4 * Z.of_nat (List.length (nonblank prompts))
  /\ count is_sleep (log st')
     <= count is_sleep (log st)
        + 3 * Z.of_nat (List.length (nonblank prompts))
  /\ (Forall (fun p => all_chars isspace p = true) prompts ->
      count is_remote (log st') = count is_remote (log st)
      /\ count is_sleep (log st') = count is_sleep (log st)).
Proof.
  intros st'.
  pose proof (spends_generate_image 1 0 ltac:(lia) ltac:(lia) prompts
                output_path style_path edit_path ref_paths aspect_ratio
                model max_retries st) as Hremote.
  pose proof (spends_generate_image 0 1 ltac:(lia) ltac:(lia) prompts
                output_path style_path edit_path ref_paths aspect_ratio
                model max_retries st) as Hsleep.
  subst st'.
  rewrite !cost_remote in Hremote. rewrite !cost_sleep in Hsleep.
  split; [lia|]. split; [lia|].
  intros Hblank.
  rewrite (nonblank_all_blank prompts Hblank) in Hremote, Hsleep. cbn [List.length] in Hremote, Hsleep.
  lia.
Qed.

Lemma batch_calls_bounded_witness :
  let st := start (sim_world [] image_reply) in
  Forall (fun p => all_chars isspace p = true) [EmptyString; "  "]
  /\ count is_remote
       (log (snd (generate_image [EmptyString; "  "] "out.png" None None
                    None "1:1" DEFAULT_MODEL 3 st)))
     = count is_remote (log st).
Proof.
  intros st.
  assert (Hblank : Forall (fun p => all_chars isspace p = true)
                          [EmptyString; "  "])
    by (repeat constructor).
  split; [exact Hblank|].
  exact (proj1 (proj2 (proj2 (batch_calls_bounded [EmptyString; "  "]
                                "out.png" None None None "1:1"
                                DEFAULT_MODEL 3 st)) Hblank)).
Defined.

(** ** What a batch touches *)

Section Keeping.
Context {W : Type} `{Collaborators W}.
Variable P : event -> Prop.

Lemma keeps_same_log {A} (c : M W A) :
  (forall st, log (snd (c st)) = log st) -> keeps P c.
Proof. intros Hc st Hst. now rewrite Hc. Qed.

Lemma keeps_ret {A} (a : A) : keeps P (@ret W A a).
Proof. now apply keeps_same_log. Qed.

Lemma keeps_lift {A} (r : exception + A) : keeps P (@lift W A r).
Proof. apply keeps_same_log. intros st. now destruct r. Qed.

Lemma keeps_sys_exit {A} (code : Z) : keeps P (@sys_exit W A code).
Proof. now apply keeps_same_log. Qed.

Lemma keeps_bind {A B} (c : M W A) (f : A -> M W B) :
  keeps P c -> (forall a, keeps P (f a)) -> keeps P (bind c f).
Proof.
  intros Hc Hf st Hst. unfold bind. specialize (Hc st Hst).
  destruct (c st) as [[a|e|code] st1]; cbn [snd] in *; try assumption.
  now apply Hf.
Qed.

Lemma keeps_emit (ev : event) : P ev -> keeps P (@emit W ev).
Proof.
  intros Hev st Hst. cbn [emit snd log]. apply Forall_app.
  split; [assumption | now constructor].
Qed.

Lemma keeps_run_io (r : option exception * W) : keeps P (run_io r).
Proof. apply keeps_same_log. intros st. now destruct r as [[e|] w]. Qed.

(** One invocation of [generate_single_image] sends one request, creates
    no directory but the parent of its output path and writes no file but
    that path. *)
Lemma keeps_generate_single_image client prompt out style edit refs ar model :
  P (EvRemote (request_for prompt style edit refs ar model)) ->
  P (EvMkdir (path_parent out)) -> (forall data, P (EvWrite out data)) ->
  keeps P (generate_single_image client prompt out style edit refs ar model).
Proof.
  intros Hremote Hmkdir Hwrite. unfold generate_single_image.
  apply keeps_bind.
  { unfold models_generate_content.
    apply keeps_bind; [now apply keeps_emit|].
    intros _. apply keeps_same_log. intros st.
    now destruct (generate_content (world st) client _) as [[e|parts] w]. }
  intros parts. induction parts as [|part rest IH]; simpl;
    [apply keeps_ret|].
  destruct (inline_data part) as [data|]; [|exact IH].
  apply keeps_bind; [apply keeps_lift|]. intros img.
  apply keeps_bind.
  { unfold Path_mkdir. apply keeps_bind; [now apply keeps_emit|].
    intros _ st. apply keeps_run_io. }
  intros _. apply keeps_bind.
  { unfold Path_write_bytes. apply keeps_bind; [now apply keeps_emit|].
    intros _ st. apply keeps_run_io. }
  intros _. apply keeps_ret.
Qed.

Hypothesis Hcall : P EvCall.
Hypothesis Hprint : forall line, P (EvPrint line).
Hypothesis Hexists : forall p, P (EvExists p).
Hypothesis Hread_text : forall p, P (EvReadText p).
Hypothesis Hread_bytes : forall p, P (EvReadBytes p).

Lemma keeps_print (line : string) : keeps P (@print W line).
Proof. now apply keeps_emit. Qed.

Lemma keeps_print_warnings (warnings : list string) :
  keeps P (print_warnings warnings : M W unit).
Proof.
  induction warnings as [|w rest IH]; simpl; [apply keeps_ret|].
  apply keeps_bind; [apply keeps_print | intros _; exact IH].
Qed.

Lemma keeps_load_style (p : string) : keeps P (load_style p).
Proof.
  unfold load_style, Path_exists, Path_read_text.
  apply keeps_bind.
  { apply keeps_bind; [now apply keeps_emit|].
    intros _. now apply keeps_same_log. }
  intros found. destruct found; cbn [negb].
  - apply keeps_bind.
    { apply keeps_bind; [now apply keeps_emit|].
      intros _. apply keeps_same_log. intros st.
      now destruct (read_text (world st) (Path_of p)). }
    intros content.
    destruct (validate_style_content content) as [is_valid warnings].
    apply keeps_bind; [|intros _; apply keeps_ret].
    destruct is_valid; cbn [negb]; [apply keeps_ret|].
    apply keeps_bind; [apply keeps_print|].
    intros _. apply keeps_print_warnings.
  - apply keeps_bind; [apply keeps_print|].
    intros _. apply keeps_sys_exit.
Qed.

Lemma keeps_load_image (p : string) : keeps P (load_image p).
Proof.
  unfold load_image, Path_exists, Path_read_bytes.
  apply keeps_bind.
  { apply keeps_bind; [now apply keeps_emit|].
    intros _. now apply keeps_same_log. }
  intros found. destruct found; cbn [negb].
  - apply keeps_bind; [|intros data; apply keeps_ret].
    apply keeps_bind; [now apply keeps_emit|].
    intros _. apply keeps_same_log. intros st.
    now destruct (read_bytes (world st) (Path_of p)).
  - apply keeps_bind; [apply keeps_print|].
    intros _. apply keeps_sys_exit.
Qed.

Lemma keeps_load_images (ps : list string) : keeps P (load_images ps).
Proof.
  induction ps as [|p ps IH]; simpl; [apply keeps_ret|].
  apply keeps_bind; [apply keeps_load_image|]. intros part.
  apply keeps_bind; [exact IH|]. intros parts. apply keeps_ret.
Qed.

Lemma keeps_load_shared (style_path edit_path : option string)
      (ref_paths : option (list string)) :
  keeps P (load_shared style_path edit_path ref_paths).
Proof.
  unfold load_shared.
  apply keeps_bind.
  { destruct style_path as [[|c0 s0]|]; try apply keeps_ret.
    apply keeps_load_style. }
  intros style_text. apply keeps_bind.
  { destruct ref_paths as [ps|]; [|apply keeps_ret].
    apply keeps_load_images. }
  intros ref_parts. apply keeps_bind.
  { destruct edit_path as [[|c0 s0]|]; try apply keeps_ret.
    apply keeps_bind; [|intros part; apply keeps_ret].
    apply keeps_load_image. }
  intros edit_part. apply keeps_ret.
Qed.

(** The retry loop adds, to what its invocations do, announcements and
    the waits the backoff policy gives for the attempts left. *)
Lemma keeps_retry_loop (func : M W ItemDict) (max_retries : Z)
      (fuel : nat) :
  keeps P func ->
  forall (attempt used : Z) (last : option string),
    (forall a d, attempt <= a < max_retries ->
                 calculate_backoff a 1 60 = inr d -> P (EvSleep d)) ->
    keeps P (retry_loop func max_retries fuel attempt used last).
Proof.
  intros Hfunc.
  induction fuel as [|fuel IH]; intros attempt used last Hsleep st Hst.
  - now destruct last.
  - rewrite retry_loop_S.
    assert (Hcalled : Forall P (log (called st))).
    { unfold called. cbn [log]. apply Forall_app.
      split; [assumption | now constructor]. }
    specialize (Hfunc (called st) Hcalled).
    destruct (func (called st)) as [[result|e|code] st1]; cbn [snd] in *;
      try assumption.
    destruct (negb (is_retryable_error (str_exc e))); [assumption|].
    destruct (attempt <? max_retries) eqn:E.
    + apply Z.ltb_lt in E.
      destruct (calculate_backoff attempt 1 60) as [e'|delay] eqn:Hd;
        [assumption|].
      apply IH.
      * intros a d Ha. apply Hsleep. lia.
      * unfold backed_off. cbn [log]. rewrite <- app_assoc.
        apply Forall_app. split; [assumption|].
        constructor; [apply Hprint|]. constructor; [|constructor].
        apply (Hsleep attempt); [lia | assumption].
    + apply IH; [|assumption]. intros a d Ha. apply Hsleep. lia.
Qed.

(** The loop over the prompts, for a property that holds of what the
    processing of each position adds. *)
Variable client : Client.
Variable n : Z.
Variable base : Path.
Variable style : string.
Variable edit : option Part.
Variable refs : list Part.
Variable ar model : string.
Variable prompts : list string.

Hypothesis Hsleep :
  forall a d, 0 <= a < DEFAULT_MAX_RETRIES ->
              calculate_backoff a 1 60 = inr d -> P (EvSleep d).
Hypothesis Hsingle :
  forall i p safe,
    0 <= i < n -> In p prompts -> sanitize_prompt p = inr safe ->
    keeps P (generate_single_image client safe (out_path_of n base i) style
               edit refs ar model).

Lemma keeps_process_prompt (i : Z) (p : string) :
  0 <= i < n -> In p prompts ->
  keeps P (process_prompt client n base style edit refs ar model i p).
Proof.
  intros Hi Hp. unfold process_prompt.
  destruct (sanitize_prompt p) as [[[] msg]|safe] eqn:Hsafe;
    try apply keeps_ret; try (now apply keeps_same_log).
  apply keeps_bind.
  - unfold retry_with_backoff. apply keeps_retry_loop.
    + now apply (Hsingle i p).
    + exact Hsleep.
  - intros result. apply keeps_bind; [|intros _; apply keeps_ret].
    destruct (success result); apply keeps_print.
Qed.

Lemma keeps_batch_loop (queue : list string) :
  incl queue prompts ->
  forall (i : Z) (results : list ItemDict) (total : Z),
    0 <= i -> i + Z.of_nat (List.length queue) <= n ->
    keeps P (batch_loop client n base style edit refs ar model i queue
               results total).
Proof.
  induction queue as [|p queue IH]; intros Hincl i results total Hi Hn.
  - apply keeps_ret.
  - cbn [batch_loop]. cbn [List.length] in Hn.
    apply keeps_bind.
    + apply keeps_process_prompt; [lia|]. apply Hincl. now left.
    + intros [item used]. apply IH; [|lia|lia].
      intros q Hq. apply Hincl. now right.
Qed.

End Keeping.

(** What [generate_image] adds to the log, when each position keeps the
    property whatever was taken in at the start. *)
Lemma keeps_generate_image {W : Type} `{Collaborators W}
      (P : event -> Prop) (prompts : list string) (output_path : string)
      (style_path edit_path : option string)
      (ref_paths : option (list string)) (aspect_ratio model : string)
      (max_retries : Z) :
  P EvCall -> (forall line, P (EvPrint line)) -> (forall p, P (EvExists p)) ->
  (forall p, P (EvReadText p)) -> (forall p, P (EvReadBytes p)) ->
  (forall a d, 0 <= a < DEFAULT_MAX_RETRIES ->
               calculate_backoff a 1 60 = inr d -> P (EvSleep d)) ->
  (forall client style edit refs i p safe,
      0 <= i < Z.of_nat (List.length prompts) -> In p prompts ->
      sanitize_prompt p = inr safe ->
      keeps P (generate_single_image client safe
                 (out_path_of (Z.of_nat (List.length prompts))
                              (Path_of output_path) i)
                 style edit refs aspect_ratio model)) ->
  keeps P (generate_image prompts output_path style_path edit_path ref_paths
             aspect_ratio model max_retries).
Proof.
  intros Hcall Hprint Hexists Hread_text Hread_bytes Hsleep Hsingle st Hst.
  destruct (environ_get (world st) "GEMINI_API_KEY") as [[|c key]|] eqn:Henv.
  - unfold generate_image, bind, os_environ_get. now rewrite Henv.
  - rewrite (generate_image_eq _ _ _ _ _ _ _ _ _ _ _ Henv).
    pose proof (keeps_load_shared P Hprint Hexists Hread_text Hread_bytes
                  style_path edit_path ref_paths st Hst) as Hload.
    destruct (load_shared style_path edit_path ref_paths st)
      as [[[[style_text ref_parts] edit_part]|e|code] st1];
      cbn [snd] in *; try assumption.
    pose proof (keeps_batch_loop P Hcall Hprint (mkClient (String c key))
                  (Z.of_nat (List.length prompts)) (Path_of output_path)
                  style_text edit_part ref_parts aspect_ratio model prompts
                  Hsleep
                  (Hsingle (mkClient (String c key)) style_text edit_part
                           ref_parts)
                  prompts (incl_refl prompts) 0 [] 0 ltac:(lia) ltac:(lia)
                  st1 Hload) as Hloop.
    destruct (batch_loop _ _ _ _ _ _ _ _ _ _ _ _ st1)
      as [[[results total]|e|code] st2]; cbn [snd] in *; assumption.
  - unfold generate_image, bind, os_environ_get. now rewrite Henv.
Qed.

Lemma default_delays (a : Z) (d : Q) :
  0 <= a < 3 -> calculate_backoff a 1 60 = inr d ->
  d = 1%Q \/ d = 2%Q \/ d = 4%Q.
Proof.
  intros Ha Hd.
  assert (Hcases : a = 0 \/ a = 1 \/ a = 2) by lia.
  destruct Hcases as [-> | [-> | ->]]; vm_compute in Hd;
    injection Hd as <-; tauto.
Qed.

Lemma batch_event_other (n : Z) (base : Path) (ev : event) :
  is_write ev = false -> is_sleep ev = false -> batch_event n base ev.
Proof. destruct ev; intros Hw Hs; try discriminate; now split. Qed.

(** X11.  Whatever happens, the calls a run of [generate_image] makes
    are confined: every [write_bytes] is made on the output path of one
    of its items, every [mkdir(parents=True, exist_ok=True)] is made on
    the parent of such a path (the call that creates this directory
    together with its missing ancestors, and no call names another
    directory), and every [time.sleep] is of 1, 2 or 4 seconds. *)
Theorem batch_effects_confined {W : Type} `{Collaborators W}
        (prompts : list string) (output_path : string)
        (style_path edit_path : option string)
        (ref_paths : option (list string)) (aspect_ratio model : string)
        (max_retries : Z) (st : State W) :
  let n := Z.of_nat (List.length prompts) in
  let base := Path_of output_path in
  Forall (batch_event n base) (log st) ->
  Forall (batch_event n base)
         (log (snd (generate_image prompts output_path style_path edit_path
                      ref_paths aspect_ratio model max_retries st))).
Proof.
  intros n base. revert st.
  apply keeps_generate_image; try (intros; now apply batch_event_other).
  - intros a d Ha Hd. split; [exact I|].
    apply (default_delays a d); [unfold DEFAULT_MAX_RETRIES in Ha; lia|].
    exact Hd.
  - intros client style edit refs i p safe Hi _ _.
    apply keeps_generate_single_image.
    + now apply batch_event_other.
    + split; [|exact I]. now exists i.
    + intros data. split; [|exact I]. now exists i.
Qed.

Lemma batch_effects_confined_witness :
  let st := start (sim_world [error_reply "HTTP 502"] image_reply) in
  let base := Path_of "a/b/c/img.png" in
  let run := generate_image ["a cat"; "a dog"] "a/b/c/img.png" None None
               None "1:1" DEFAULT_MODEL 3 st in
  Forall (batch_event 2 base) (log st)
  /\ Forall (batch_event 2 base) (log (snd run))
  /\ filter is_write (log (snd run))
     = [EvMkdir (Path_of "a/b/c");
        EvWrite (Path_of "a/b/c/img_001.png") "aW1hZ2U=";
        EvMkdir (Path_of "a/b/c");
        EvWrite (Path_of "a/b/c/img_002.png") "aW1hZ2U="].
Proof.
  intros st base run.
  assert (Hst : Forall (batch_event 2 base) (log st)) by constructor.
  split; [exact Hst|]. split.
  - exact (batch_effects_confined ["a cat"; "a dog"] "a/b/c/img.png" None
             None None "1:1" DEFAULT_MODEL 3 st Hst).
  - vm_compute. reflexivity.
Defined.

(** X12.  Every request [generate_image] sends to the service is the
    request of one of its prompts: the text is the sanitized prompt,
    after the style text and [Generate: ] when there is a style, followed
    by the edit source and the reference images taken in at the start,
    the same for every item, with the aspect ratio and the model of the
    call.  A prompt that the sanitizer refuses is never sent. *)
Theorem requests_carry_sanitized_prompts {W : Type} `{Collaborators W}
        (prompts : list string) (output_path : string)
        (style_path edit_path : option string)
        (ref_paths : option (list string)) (aspect_ratio model : string)
        (max_retries : Z) (st st1 : State W) (style_text : string)
        (ref_parts : list Part) (edit_part : option Part) :
  load_shared style_path edit_path ref_paths st
  = (Ret (style_text, ref_parts, edit_part), st1) ->
  let sent := request_event prompts style_text edit_part ref_parts
                aspect_ratio model in
  Forall sent (log st) ->
  Forall sent
         (log (snd (generate_image prompts output_path style_path edit_path
                      ref_paths aspect_ratio model max_retries st))).
Proof.
  intros Hload sent Hst.
  assert (Hother : forall ev, is_remote ev = false -> sent ev)
    by (intros ev Hev; destruct ev; try discriminate; exact I).
  destruct (environ_get (world st) "GEMINI_API_KEY") as [[|c key]|] eqn:Henv.
  - unfold generate_image, bind, os_environ_get. now rewrite Henv.
  - rewrite (generate_image_eq _ _ _ _ _ _ _ _ _ _ _ Henv).
    pose proof (keeps_load_shared sent ltac:(intros; now apply Hother)
                  ltac:(intros; now apply Hother)
                  ltac:(intros; now apply Hother)
                  ltac:(intros; now apply Hother)
                  style_path edit_path ref_paths st Hst) as Hloaded.
    rewrite Hload in *. cbn [snd] in Hloaded.
    assert (Hloop :
              keeps sent
                (batch_loop (mkClient (String c key))
                   (Z.of_nat (List.length prompts)) (Path_of output_path)
                   style_text edit_part ref_parts aspect_ratio model 0
                   prompts [] 0)).
    { apply (keeps_batch_loop sent ltac:(now apply Hother)
               ltac:(intros; now apply Hother) _ _ _ _ _ _ _ _ prompts).
      - intros a d _ _. now apply Hother.
      - intros i p safe Hi Hp Hsafe.
        apply keeps_generate_single_image.
        + exists p, safe. now repeat split.
        + now apply Hother.
        + intros data. now apply Hother.
      - apply incl_refl.
      - lia.
      - lia. }
    specialize (Hloop st1 Hloaded).
    destruct (batch_loop _ _ _ _ _ _ _ _ _ _ _ _ st1)
      as [[[results total]|e|code] st2]; cbn [snd] in *; assumption.
  - unfold generate_image, bind, os_environ_get. now rewrite Henv.
Qed.

Lemma requests_carry_sanitized_prompts_witness :
  let st := start (sim_world [error_reply "HTTP 502"] image_reply) in
  let sent := request_event ["a cat"; "cat; dog"] EmptyString None []
                "1:1" DEFAULT_MODEL in
  load_shared None None None st = (Ret (EmptyString, [], None), st)
  /\ Forall sent (log st)
  /\ Forall sent
            (log (snd (generate_image ["a cat"; "cat; dog"] "out/img.png"
                         None None None "1:1" DEFAULT_MODEL 3 st))).
Proof.
  intros st sent.
  assert (Hload : load_shared None None None st
                  = (Ret (EmptyString, [], None), st)) by reflexivity.
  assert (Hst : Forall sent (log st)) by constructor.
  split; [exact Hload|]. split; [exact Hst|].
  exact (requests_carry_sanitized_prompts ["a cat"; "cat; dog"]
           "out/img.png" None None None "1:1" DEFAULT_MODEL 3 st st
           EmptyString [] None Hload Hst).
Defined.

(** ** The command line *)

Lemma filter_all {A} (f : A -> bool) (l : list A) :
  List.length (filter f l) = List.length l <-> Forall (fun a => f a = true) l.
Proof.
  induction l as [|a l IH]; simpl; [split; [constructor | reflexivity]|].
  pose proof (filter_length_le f l) as Hle.
  destruct (f a) eqn:Ha; simpl.
  - split.
    + intros Hlen. constructor; [assumption|]. apply IH. lia.
    + intros Hall. inversion Hall; subst. f_equal. now apply IH.
  - split; [lia|]. intros Hall. inversion Hall; congruence.
Qed.

Lemma not_all_exists (l : list ItemDict) :
  ~ Forall (fun r => success r = true) l
  <-> Exists (fun r => success r = false) l.
Proof.
  induction l as [|r l IH].
  - split; [intros Hn; now destruct Hn | intros Hex; inversion Hex].
  - split.
    + intros Hn. destruct (success r) eqn:Hr.
      * apply Exists_cons_tl. apply IH. intros Hall. apply Hn.
        now constructor.
      * now apply Exists_cons_hd.
    + intros Hex Hall. inversion Hall; subst.
      inversion Hex; subst; [congruence|]. now apply IH.
Qed.

Section CommandLineFacts.
Context {W : Type} `{Collaborators W}.

Lemma print_failed_eq (results : list ItemDict) (st : State W) :
  print_failed results st =
  (Ret tt,
   emits st (map (fun r =>
                    EvPrint ("  - " ++ get_default (prompt r) "Unknown"
                             ++ ": "
                             ++ get_default (error r) "Unknown error"))
                 (filter (fun r => negb (success r)) results))).
Proof.
  revert st. induction results as [|r rest IH]; intros st.
  - simpl. now rewrite emits_nil.
  - cbn [print_failed filter]. unfold bind at 1.
    destruct (negb (success r)).
    + unfold print. rewrite emit_emits, IH, emits_emits. reflexivity.
    + unfold ret at 1. apply IH.
Qed.

End CommandLineFacts.

(** X13.  [main] never returns normally, and a batch that came back never
    makes it raise: it ends the process with status 2 exactly when the
    credential is missing, after printing only the error line; otherwise
    it prints the summary and ends with status 0 exactly when every item
    succeeded and with status 1 exactly when some item failed.  When
    [generate_image] itself ends the process or raises, so does [main],
    with nothing printed after it. *)
Theorem main_exit_status {W : Type} `{Collaborators W} (args : Args)
        (st : State W) :
  match generate_image (args_prompts args) (args_output args)
          (args_style args) (args_edit args) (args_ref args)
          (args_aspect args) (args_model args) (args_max_retries args) st
  with
  | (Ret b, st1) =>
      exists code,
        main args st
        = (Exit code,
           emits st1 (if code =? 2
                      then [EvPrint "ERROR: GEMINI_API_KEY not set"]
                      else report_events b))
        /\ (code = 2 <-> ~ has_credential (world st))
        /\ (code = 0 <->
            has_credential (world st)
            /\ Forall (fun r => success r = true) (r_results b))
        /\ (code = 1 <->
            has_credential (world st)
            /\ Exists (fun r => success r = false) (r_results b))
  | (Raise e, st1) => main args st = (Raise e, st1)
  | (Exit code, st1) => main args st = (Exit code, st1)
  end.
Proof.
  destruct args as [output prompts style edit refs aspect model retries].
  cbn [args_prompts args_output args_style args_edit args_ref args_aspect
       args_model args_max_retries].
  destruct (generate_image prompts output style edit refs aspect model
              retries st) as [[b|e|code] st1] eqn:Hrun;
    unfold main; cbn [args_prompts args_output args_style args_edit args_ref
                      args_aspect args_model args_max_retries];
    unfold bind at 1; rewrite Hrun; try reflexivity.
  assert (Hmissing :
            forall (P Q : Prop),
              ~ has_credential (world st) ->
              (2 = 2 <-> ~ has_credential (world st))
              /\ (2 = 0 <-> has_credential (world st) /\ P)
              /\ (2 = 1 <-> has_credential (world st) /\ Q)).
  { intros P Q Hno. split; [tauto|]. split; split; try lia; tauto. }
  destruct (environ_get (world st) "GEMINI_API_KEY") as [[|c key]|] eqn:Henv.
  - unfold generate_image, bind, os_environ_get in Hrun.
    rewrite Henv in Hrun. injection Hrun as <- <-.
    exists 2. split; [reflexivity|]. apply Hmissing.
    intros [c [key Hkey]]. congruence.
  - assert (Hcred : has_credential (world st)) by now exists c, key.
    rewrite (generate_image_eq _ _ _ _ _ _ _ _ _ _ _ Henv) in Hrun.
    destruct (load_shared style edit refs st)
      as [[[[style_text ref_parts] edit_part]|e|code] st0];
      try discriminate.
    destruct (batch_loop _ _ _ _ _ _ _ _ _ _ _ _ st0)
      as [[[results total]|e|code] st2]; try discriminate.
    injection Hrun as <- <-.
    pose proof (filter_all success results) as Hall.
    pose proof (filter_length_le success results) as Hle.
    pose proof (not_all_exists results) as Hex.
    unfold report_events, aggregate, count_success.
    cbn [r_error_code r_retries_used r_failed r_success r_results
         r_succeeded r_total].
    set (failed := Z.of_nat (List.length results)
                   - Z.of_nat (List.length (filter success results))).
    assert (Hfailed : 0 <= failed) by (unfold failed; lia).
    destruct (failed =? 0) eqn:Hf.
    + apply Z.eqb_eq in Hf. exists 0.
      split.
      * change (ErrorCode_eqb SUCCESS API_KEY_MISSING) with false.
        cbv iota. rewrite Hf. change (0 <? 0) with false. cbv iota.
        unfold bind at 1. unfold print at 1. rewrite emit_emits.
        unfold bind at 1. unfold ret at 1. cbv iota beta.
        unfold bind at 1.
        destruct (0 <? total).
        -- unfold print at 1. rewrite emit_emits, emits_emits.
           unfold bind, ret, sys_exit. rewrite app_nil_r. reflexivity.
        -- unfold bind, ret, sys_exit. rewrite !app_nil_r. reflexivity.
      * split; [split; [lia | tauto]|].
        split.
        -- split; [|reflexivity]. intros _. split; [assumption|].
           apply Hall. unfold failed in Hf. lia.
        -- split; [lia|]. intros [_ Hsome]. apply Hex in Hsome.
           exfalso. apply Hsome, Hall. unfold failed in Hf. lia.
    + apply Z.eqb_neq in Hf. exists 1.
      split.
      * change (ErrorCode_eqb PARTIAL_FAILURE API_KEY_MISSING) with false.
        cbv iota.
        assert (Hpos : (0 <? failed) = true) by (apply Z.ltb_lt; lia).
        rewrite Hpos.
        unfold bind at 1. unfold print at 1. rewrite emit_emits.
        unfold bind at 1. unfold ret at 1. cbv iota beta.
        unfold bind at 1.
        destruct (0 <? total).
        -- unfold print at 1. rewrite emit_emits, emits_emits.
           unfold bind at 1. unfold bind at 1. unfold print at 1.
           rewrite emit_emits, emits_emits, print_failed_eq, emits_emits.
           unfold sys_exit. rewrite <- !app_assoc. reflexivity.
        -- unfold ret at 1. unfold bind at 1. unfold bind at 1.
           unfold print at 1.
           rewrite emit_emits, emits_emits, print_failed_eq, emits_emits.
           unfold sys_exit. rewrite <- !app_assoc. reflexivity.
      * split; [split; [lia | tauto]|].
        split.
        -- split; [lia|]. intros [_ Hevery]. apply Hall in Hevery.
           unfold failed in Hf. lia.
        -- split; [|reflexivity]. intros _. split; [assumption|].
           apply Hex. intros Hevery. apply Hall in Hevery.
           unfold failed in Hf. lia.
  - unfold generate_image, bind, os_environ_get in Hrun.
    rewrite Henv in Hrun. injection Hrun as <- <-.
    exists 2. split; [reflexivity|]. apply Hmissing.
    intros [c [key Hkey]]. congruence.
Qed.

(** ** One image *)

Section SingleMore.
Context {W : Type} `{Collaborators W}.

Lemma extract_image_first (prompt : string) (out : Path)
      (parts : list ResponsePart) (data : string) (st : State W) :
  first_image parts = Some data ->
  extract_image prompt out parts st =
  match b64decode data with
  | inl e => (Raise e, st)
  | inr img =>
      match mkdir_parents (world st) (path_parent out) with
      | (Some e, w1) =>
          (Raise e, mkState w1 (log st ++ [EvMkdir (path_parent out)]))
      | (None, w1) =>
          match write_bytes w1 out img with
          | (Some e, w2) =>
              (Raise e,
               mkState w2 (log st ++ [EvMkdir (path_parent out);
                                      EvWrite out img]))
          | (None, w2) =>
              (Ret (success_item prompt out),
               mkState w2 (log st ++ [EvMkdir (path_parent out);
                                      EvWrite out img]))
          end
      end
  end.
Proof.
  induction parts as [|part rest IH]; simpl; [discriminate|].
  destruct (inline_data part) as [d|]; [|exact IH].
  intros [= ->]. unfold bind at 1.
  destruct (b64decode data) as [e|img]; [reflexivity|].
  cbn [lift ret]. unfold Path_mkdir, Path_write_bytes, bind, emit, run_io.
  cbn [world log].
  destruct (mkdir_parents (world st) (path_parent out)) as [[e|] w1];
    [reflexivity|].
  cbn [world log].
  destruct (write_bytes w1 out img) as [[e|] w2];
    rewrite <- app_assoc; reflexivity.
Qed.

End SingleMore.

(** X14.  When the service answers, the first part of the answer that
    carries image data decides the outcome of [generate_single_image],
    whatever comes after it: if the data do not decode, the decoder's
    exception is raised and nothing is created or written; otherwise the
    parent directory of the output is created and then the decoded data
    are written to the output path, an exception of either step being
    raised as it is, and the success dictionary is returned with the
    prompt and the string of the output path. *)
Theorem single_image_saves_first_part {W : Type} `{Collaborators W}
        (client : Client) (prompt : string) (out : Path) (style : string)
        (edit : option Part) (refs : list Part) (ar model : string)
        (st : State W) (parts : list ResponsePart) (w : W) (data : string) :
  let req := request_for prompt style edit refs ar model in
  generate_content (world st) client req = (inr parts, w) ->
  first_image parts = Some data ->
  generate_single_image client prompt out style edit refs ar model st =
  match b64decode data with
  | inl e => (Raise e, mkState w (log st ++ [EvRemote req]))
  | inr img =>
      match mkdir_parents w (path_parent out) with
      | (Some e, w1) =>
          (Raise e,
           mkState w1 (log st ++ [EvRemote req; EvMkdir (path_parent out)]))
      | (None, w1) =>
          match write_bytes w1 out img with
          | (Some e, w2) =>
              (Raise e,
               mkState w2 (log st ++ [EvRemote req;
                                      EvMkdir (path_parent out);
                                      EvWrite out img]))
          | (None, w2) =>
              (Ret (success_item prompt out),
               mkState w2 (log st ++ [EvRemote req;
                                      EvMkdir (path_parent out);
                                      EvWrite out img]))
          end
      end
  end.
Proof.
  intros req Hreply Hfirst.
  rewrite generate_single_image_eq. cbv zeta. fold req. rewrite Hreply.
  rewrite (extract_image_first prompt out parts data _ Hfirst).
  cbn [world log].
  destruct (b64decode data) as [e|img]; [reflexivity|].
  destruct (mkdir_parents w (path_parent out)) as [[e|] w1];
    [now rewrite <- app_assoc|].
  destruct (write_bytes w1 out img) as [[e|] w2];
    now rewrite <- app_assoc.
Qed.

Lemma single_image_saves_first_part_witness :
  let parts := [mkResponsePart None; mkResponsePart (Some "first");
                mkResponsePart (Some "second")] in
  let w := sim_world [inr parts] no_image_reply in
  let st := start w in
  let out := Path_of "out/cat.png" in
  let req := request_for "a cat" EmptyString None [] "1:1" DEFAULT_MODEL in
  generate_content (world st) (mkClient "secret") req
  = (inr parts, sim_world [] no_image_reply)
  /\ first_image parts = Some "first"
  /\ fst (generate_single_image (mkClient "secret") "a cat" out EmptyString
            None [] "1:1" DEFAULT_MODEL st)
     = Ret (success_item "a cat" out)
  /\ log (snd (generate_single_image (mkClient "secret") "a cat" out
                 EmptyString None [] "1:1" DEFAULT_MODEL st))
     = [EvRemote req; EvMkdir (Path_of "out"); EvWrite out "first"].
Proof.
  intros parts w st out req.
  assert (Hreply : generate_content (world st) (mkClient "secret") req
                   = (inr parts, sim_world [] no_image_reply))
    by reflexivity.
  assert (Hfirst : first_image parts = Some "first") by reflexivity.
  split; [exact Hreply|]. split; [exact Hfirst|].
  rewrite (single_image_saves_first_part (mkClient "secret") "a cat" out
             EmptyString None [] "1:1" DEFAULT_MODEL st parts _ "first"
             Hreply Hfirst).
  split; reflexivity.
Defined.

(** ** Taking in images and styles *)

Lemma dict_get_mime (suffix : string) :
  In (dict_get mime_map suffix "image/png") mime_types.
Proof.
  unfold mime_map, mime_types. cbn [dict_get].
  repeat match goal with
         | |- context [String.eqb ?a suffix] => destruct (String.eqb a suffix)
         end; simpl; tauto.
Qed.

Lemma dict_get_default (suffix : string) :
  ~ In suffix (map fst mime_map) ->
  dict_get mime_map suffix "image/png" = "image/png".
Proof.
  unfold mime_map. cbn [map fst dict_get]. intros Hnot.
  repeat match goal with
         | |- context [String.eqb ?a suffix] =>
             let E := fresh "E" in
             destruct (String.eqb a suffix) eqn:E;
             [apply String.eqb_eq in E; exfalso; apply Hnot; simpl; tauto
             |clear E]
         end.
  reflexivity.
Qed.

(** X15.  A part that [load_image] returns holds the bytes read from the
    file, unchanged, and leaves the world as it was; its MIME type is one
    of image/png, image/jpeg, image/webp and image/gif, it depends only
    on the suffix of the path with the case of its letters ignored, and
    it is image/png whenever that suffix is none of .png, .jpg, .jpeg,
    .webp and .gif. *)
Theorem loaded_image_part {W : Type} `{Collaborators W} (image_path : string)
        (st st' : State W) (part : Part) :
  load_image image_path st = (Ret part, st') ->
  let suffix := lower (path_suffix (Path_of image_path)) in
  read_bytes (world st) (Path_of image_path) = inr (part_data part)
  /\ world st' = world st
  /\ In (part_mime_type part) mime_types
  /\ (~ In suffix [".png"; ".jpg"; ".jpeg"; ".webp"; ".gif"] ->
      part_mime_type part = "image/png")
  /\ (forall other st0 st0' part0,
         load_image other st0 = (Ret part0, st0') ->
         lower (path_suffix (Path_of other)) = suffix ->
         part_mime_type part0 = part_mime_type part).
Proof.
  intros Hload suffix. rewrite load_image_eq in Hload. cbv zeta in Hload.
  destruct (path_exists (world st) (Path_of image_path)); [|discriminate].
  destruct (read_bytes (world st) (Path_of image_path)) as [e|data];
    [discriminate|].
  injection Hload as <- <-. cbn [part_data part_mime_type emits world].
  split; [reflexivity|]. split; [reflexivity|].
  split; [apply dict_get_mime|].
  split; [apply dict_get_default|].
  intros other st0 st0' part0 Hother Hsame.
  rewrite load_image_eq in Hother. cbv zeta in Hother.
  destruct (path_exists (world st0) (Path_of other)); [|discriminate].
  destruct (read_bytes (world st0) (Path_of other)) as [e|data0];
    [discriminate|].
  injection Hother as <- _. cbn [part_mime_type]. now rewrite Hsame.
Qed.

Lemma loaded_image_part_witness :
  let w := mkSim [] [("in/photo.JPG", "bytes")] [] no_image_reply in
  load_image "in/photo.JPG" (start w)
  = (Ret (mkPart "bytes" "image/jpeg"),
     emits (start w) [EvExists (Path_of "in/photo.JPG");
                      EvReadBytes (Path_of "in/photo.JPG")])
  /\ In "image/jpeg" mime_types.
Proof.
  intros w.
  assert (Hload : load_image "in/photo.JPG" (start w)
                  = (Ret (mkPart "bytes" "image/jpeg"),
                     emits (start w) [EvExists (Path_of "in/photo.JPG");
                                      EvReadBytes (Path_of "in/photo.JPG")]))
    by reflexivity.
  split; [exact Hload|].
  exact (proj1 (proj2 (proj2 (loaded_image_part "in/photo.JPG" (start w) _ _
                                Hload)))).
Defined.

(** ** The check of style files *)

Lemma first_match_none (m : string -> option string) (Q : string -> Prop)
      (s : string) :
  (forall c t, Q (String c t) -> Q t) ->
  (forall t, Q t -> m t = None) ->
  Q s -> first_match m s = None.
Proof.
  intros Htail Hm. induction s as [|c s IH]; intros Hs; simpl.
  - now rewrite (Hm _ Hs).
  - rewrite (Hm _ Hs). apply IH. now apply (Htail c).
Qed.

Lemma first_match_class (cls s : string) :
  any_char (fun c => any_char (Ascii.eqb c) cls) s = true ->
  exists c, first_match (match_class cls) s = Some (String c EmptyString).
Proof.
  induction s as [|c s IH]; simpl; [discriminate|].
  destruct (any_char (Ascii.eqb c) cls); [now exists c|].
  simpl. exact IH.
Qed.

Lemma length_take_le (k : nat) (s : string) :
  (String.length (take k s) <= k)%nat.
Proof.
  revert s. induction k as [|k IH]; intros [|c s]; simpl; try lia.
  specialize (IH s). lia.
Qed.

Lemma plain_lower_char (c p : ascii) :
  lower_char c = lower_char p -> plain_char p = false ->
  plain_char c = false.
Proof.
  intros Hsame Hp.
  assert (Hfixed : lower_char p = p /\ In p [";"; "&"; "|"; "`"; "$"; "<";
                                             ":"]%char).
  { destruct p as [[] [] [] [] [] [] [] []]; vm_compute in Hp;
      try discriminate; (split; [reflexivity | simpl; tauto]). }
  destruct Hfixed as [Hfix Hin]. rewrite Hfix in Hsame.
  assert (Hc : c = p).
  { simpl in Hin.
    destruct Hin as [<-|[<-|[<-|[<-|[<-|[<-|[<-|[]]]]]]]];
      destruct c as [[] [] [] [] [] [] [] []]; vm_compute in Hsame;
      try discriminate; reflexivity. }
  now rewrite Hc.
Qed.

Lemma match_icase_plain (pat t m : string) :
  match_icase pat t = Some m -> all_chars plain_char t = true ->
  all_chars plain_char pat = true.
Proof.
  revert t m. induction pat as [|p pat IH]; intros t m; [reflexivity|].
  destruct t as [|c t]; [discriminate|]. cbn [match_icase all_chars].
  destruct (Ascii.eqb (lower_char c) (lower_char p)) eqn:E; [|discriminate].
  apply Ascii.eqb_eq in E.
  destruct (match_icase pat t) as [m'|] eqn:Hrest; [|discriminate].
  intros _ Hall. apply andb_true_iff in Hall. destruct Hall as [Hc Ht].
  apply andb_true_iff. split; [|now apply (IH t m')].
  destruct (plain_char p) eqn:Hp; [reflexivity|].
  now rewrite (plain_lower_char c p E Hp) in Hc.
Qed.

Lemma plain_no_pattern (content : string) :
  all_chars plain_char content = true ->
  Forall (fun pattern => first_match pattern content = None)
         INJECTION_PATTERNS.
Proof.
  intros Hplain.
  assert (Htail : forall c t, all_chars plain_char (String c t) = true ->
                              all_chars plain_char t = true).
  { intros c t Hall. simpl in Hall. now apply andb_true_iff in Hall. }
  assert (Hfence : forall word t, all_chars plain_char t = true ->
                                  match_fence word t = None).
  { intros word t Ht. unfold match_fence.
    destruct t as [|c t]; [reflexivity|]. simpl in Ht.
    apply andb_true_iff in Ht. destruct Ht as [Hc _].
    cbn [String.prefix].
    destruct (ascii_dec "`" c) as [<-|Hne]; [discriminate Hc|].
    destruct (Ascii.eqb_spec "`"%char c); [contradiction|]. reflexivity. }
  assert (Hsubst : forall o cl t, all_chars plain_char t = true ->
                                  match_subst o cl t = None).
  { intros o cl t Ht. unfold match_subst.
    destruct t as [|c t]; [reflexivity|]. simpl in Ht.
    apply andb_true_iff in Ht. destruct Ht as [Hc _].
    destruct c as [[] [] [] [] [] [] [] []]; try reflexivity.
    discriminate Hc. }
  assert (Hclass : forall t, all_chars plain_char t = true ->
                             match_class ";&|`" t = None).
  { intros t Ht. unfold match_class.
    destruct t as [|c t]; [reflexivity|]. simpl in Ht.
    apply andb_true_iff in Ht. destruct Ht as [Hc _].
    destruct (any_char (Ascii.eqb c) ";&|`") eqn:E; [|reflexivity].
    exfalso. unfold plain_char in Hc. simpl in E, Hc.
    repeat match type of E with
           | (?b || _)%bool = true =>
               destruct b; [discriminate Hc|]; simpl in E, Hc
           end.
    discriminate E. }
  assert (Hicase : forall pat t, all_chars plain_char pat = false ->
                                 all_chars plain_char t = true ->
                                 match_icase pat t = None).
  { intros pat t Hpat Ht.
    destruct (match_icase pat t) as [m|] eqn:E; [|reflexivity].
    rewrite (match_icase_plain pat t m E Ht) in Hpat. discriminate. }
  unfold INJECTION_PATTERNS.
  repeat constructor;
    apply (first_match_none _ (fun t => all_chars plain_char t = true));
    auto.
Qed.

Lemma warnings_shape (content : string) :
  Forall (fun w => exists m, w = "Suspicious pattern: " ++ m ++ "..."
                             /\ (String.length m <= 50)%nat)
         (snd (validate_style_content content))
  /\ (List.length (snd (validate_style_content content)) <= 7)%nat.
Proof.
  unfold validate_style_content. cbn [snd].
  assert (Hlen : forall patterns : list (string -> option string),
            Forall (fun w => exists m,
                        w = "Suspicious pattern: " ++ m ++ "..."
                        /\ (String.length m <= 50)%nat)
                   (flat_map
                      (fun pattern =>
                         match first_match pattern content with
                         | Some m =>
                             ["Suspicious pattern: " ++ take 50 m ++ "..."]
                         | None => []
                         end) patterns)
            /\ (List.length
                  (flat_map
                     (fun pattern =>
                        match first_match pattern content with
                        | Some m =>
                            ["Suspicious pattern: " ++ take 50 m ++ "..."]
                        | None => []
                        end) patterns)
                <= List.length patterns)%nat).
  { induction patterns as [|pattern patterns [IHshape IHlen]];
      [split; [constructor | reflexivity]|].
    cbn [flat_map List.length].
    destruct (first_match pattern content) as [m|].
    - split.
      + constructor; [|exact IHshape].
        exists (take 50 m). split; [reflexivity | apply length_take_le].
      + cbn [app List.length]. lia.
    - split; [exact IHshape|]. cbn [app]. lia. }
  destruct (Hlen INJECTION_PATTERNS) as [Hshape Hcount].
  split; [exact Hshape|]. exact Hcount.
Qed.

Lemma flagged_invalid (content : string) :
  any_char flagged_char content = true ->
  fst (validate_style_content content) = false
  /\ snd (validate_style_content content) <> [].
Proof.
  intros Hflag. destruct (first_match_class ";&|`" content Hflag) as [c Hc].
  unfold validate_style_content, INJECTION_PATTERNS.
  cbn [fst snd flat_map]. rewrite Hc.
  destruct (first_match (match_fence "bash") content);
    destruct (first_match (match_fence "shell") content);
    destruct (first_match (match_subst "{" "}") content);
    destruct (first_match (match_subst "(" ")") content);
    cbn [app List.length Nat.eqb]; split; try reflexivity; discriminate.
Qed.

Lemma flat_map_nil {A B} (f : A -> list B) (l : list A) :
  Forall (fun a => f a = []) l -> flat_map f l = [].
Proof.
  induction 1 as [|a l Ha _ IH]; [reflexivity|].
  cbn [flat_map]. now rewrite Ha, IH.
Qed.

Lemma plain_valid (content : string) :
  all_chars plain_char content = true ->
  validate_style_content content = (true, []).
Proof.
  intros Hplain. pose proof (plain_no_pattern content Hplain) as Hnone.
  unfold validate_style_content. rewrite flat_map_nil; [reflexivity|].
  revert Hnone. apply Forall_impl. intros pattern Hp. now rewrite Hp.
Qed.

(** X16.  [validate_style_content] reports a content as valid exactly
    when it gives no warning.  It gives at most seven warnings, one for
    each pattern, each made of [Suspicious pattern: ], at most fifty
    characters and three dots.  A content with a semicolon, an ampersand,
    a vertical bar or a backquote anywhere is never valid; a content with
    none of these and no dollar sign, less-than sign or colon is valid. *)
Theorem style_validation_facts (content : string) :
  let '(is_valid, warnings) := validate_style_content content in
  (is_valid = true <-> warnings = [])
  /\ (List.length warnings <= 7)%nat
  /\ Forall (fun w => exists m, w = "Suspicious pattern: " ++ m ++ "..."
                                /\ (String.length m <= 50)%nat) warnings
  /\ (any_char flagged_char content = true -> is_valid = false)
  /\ (all_chars plain_char content = true -> is_valid = true).
Proof.
  pose proof (warnings_shape content) as [Hshape Hcount].
  pose proof (flagged_invalid content) as Hflag.
  pose proof (plain_valid content) as Hplain.
  destruct (validate_style_content content) as [is_valid warnings] eqn:Hv.
  cbn [fst snd] in *.
  split.
  { unfold validate_style_content in Hv. injection Hv as <- <-.
    match goal with
    | |- (List.length ?l =? 0)%nat = true <-> _ =>
        destruct l; simpl; split; (reflexivity || discriminate)
    end. }
  split; [exact Hcount|]. split; [exact Hshape|].
  split.
  - intros Hf. now destruct (Hflag Hf).
  - intros Hp. specialize (Hplain Hp). congruence.
Qed.

Lemma style_validation_facts_witness :
  any_char flagged_char "soft light; rm -rf" = true
  /\ all_chars plain_char "soft light, pastel colours" = true
  /\ fst (validate_style_content "soft light; rm -rf") = false
  /\ fst (validate_style_content "soft light, pastel colours") = true.
Proof.
  assert (Hflag : any_char flagged_char "soft light; rm -rf" = true)
    by reflexivity.
  assert (Hplain : all_chars plain_char "soft light, pastel colours" = true)
    by reflexivity.
  split; [exact Hflag|]. split; [exact Hplain|].
  pose proof (style_validation_facts "soft light; rm -rf") as Hbad.
  pose proof (style_validation_facts "soft light, pastel colours") as Hgood.
  destruct (validate_style_content "soft light; rm -rf") as [v1 w1].
  destruct (validate_style_content "soft light, pastel colours") as [v2 w2].
  cbn [fst]. split.
  - exact (proj1 (proj2 (proj2 (proj2 Hbad))) Hflag).
  - exact (proj2 (proj2 (proj2 (proj2 Hgood))) Hplain).
Defined.

(** X17.  The check of a style file is advisory.  [load_style] returns
    the whole content of a file that exists and can be read, and leaves
    the world as it was, whatever the check says: when the content has a
    semicolon, an ampersand, a vertical bar or a backquote it prints the
    warning heading and at least one warning line and still returns the
    content; when the content has none of the characters the patterns
    need it prints nothing. *)
Theorem style_check_is_advisory {W : Type} `{Collaborators W}
        (style_path : string) (st : State W) (content : string) :
  let path := Path_of style_path in
  path_exists (world st) path = true ->
  read_text (world st) path = inr content ->
  let run := load_style style_path st in
  fst run = Ret content
  /\ world (snd run) = world st
  /\ (any_char flagged_char content = true ->
      exists warnings,
        warnings <> []
        /\ log (snd run)
           = (log st ++ [EvExists path; EvReadText path]
                     ++ style_warning warnings)%list)
  /\ (all_chars plain_char content = true ->
      log (snd run) = (log st ++ [EvExists path; EvReadText path])%list).
Proof.
  intros path Hexists Hread run. subst run.
  rewrite load_style_eq. cbv zeta. fold path. rewrite Hexists, Hread.
  cbn [fst snd emits world log].
  split; [reflexivity|]. split; [reflexivity|].
  unfold warning_events. split.
  - intros Hflag. destruct (flagged_invalid content Hflag) as [Hv Hw].
    destruct (validate_style_content content) as [is_valid warnings].
    cbn [fst snd] in Hv, Hw. subst is_valid. cbn [negb].
    exists warnings. split; [exact Hw | reflexivity].
  - intros Hplain. rewrite (plain_valid content Hplain). cbn [negb].
    now rewrite app_nil_r.
Qed.

Lemma style_check_is_advisory_witness :
  let w := mkSim [] [("style.md", "soft light; rm -rf")] [] no_image_reply in
  let st := start w in
  path_exists (world st) (Path_of "style.md") = true
  /\ read_text (world st) (Path_of "style.md") = inr "soft light; rm -rf"
  /\ fst (load_style "style.md" st) = Ret "soft light; rm -rf".
Proof.
  intros w st.
  assert (Hexists : path_exists (world st) (Path_of "style.md") = true)
    by reflexivity.
  assert (Hread : read_text (world st) (Path_of "style.md")
                  = inr "soft light; rm -rf") by reflexivity.
  split; [exact Hexists|]. split; [exact Hread|].
  exact (proj1 (style_check_is_advisory "style.md" st "soft light; rm -rf"
                  Hexists Hread)).
Defined.
